(** * hilbertplot-core: a shallow embedding of the curve engine and of the
      plot layer, with the properties of the specification proved on it.

    Source files modelled here:
    - [headers/hilbertdefines.h]   hint, hsize, hfloat
    - [src/hpoint.cpp]             HPoint and its comparison operators
    - [src/hilbertcurve.cpp]       QuasiSquare, HilbertCurve (the 40 curve types)
    - [parallel_algorithm.h]       reverse_parallel, for_each_parallel
    - [src/hilbertplot.cpp]        HilbertPlot
    - [src/datasequence.cpp]       DataSequence::min, DataSequence::max *)

From Stdlib Require Import ZArith QArith Qcanon Lia List Permutation Sorting.Sorted.
From stdpp Require Import base tactics option numbers list sorting.
From Stdlib Require Floats.
Local Open Scope Z_scope.

(** ** Machine integers

    [hint] and [hsize] are [unsigned int]: values live in [0, 2^32) and every
    arithmetic result is reduced modulo [2^32]. *)

Definition UINT_RANGE : Z := 2 ^ 32.

Definition wrap (z : Z) : Z := z mod UINT_RANGE.

Definition is_hint (z : Z) : Prop := 0 <= z < UINT_RANGE.

(** The conversion [int(u)] of an [unsigned int] to a 32-bit [int]. *)
Definition to_int (u : Z) : Z :=
  if u <? 2 ^ 31 then u else u - UINT_RANGE.

(** ** hfloat

    [hfloat] is [double].  It is modelled by the exact rationals extended
    with the two infinities and NaN: rounding is abstracted away, the
    special values produced by a division by zero are kept.  Zero carries no
    sign; the zero divisors that occur in the modelled code ([max - min] with
    [max = min], a neighbour count of [0]) are positive zeros. *)

Inductive hfloat : Type :=
| Fin (q : Qc)
| Inf (negative : bool)
| NaN.

Definition hf_zero : hfloat := Fin 0%Qc.
Definition hf_one : hfloat := Fin 1%Qc.
Definition hf_of_Z (z : Z) : hfloat := Fin (Q2Qc (inject_Z z)).

Definition Qc_ltb (a b : Qc) : bool :=
  match (a ?= b)%Qc with Lt => true | _ => false end.
Definition Qc_eqb (a b : Qc) : bool :=
  match (a ?= b)%Qc with Eq => true | _ => false end.

Definition hf_neg (a : hfloat) : hfloat :=
  match a with
  | Fin q => Fin (- q)%Qc
  | Inf s => Inf (negb s)
  | NaN => NaN
  end.

Definition hf_add (a b : hfloat) : hfloat :=
  match a, b with
  | NaN, _ | _, NaN => NaN
  | Fin p, Fin q => Fin (p + q)%Qc
  | Fin _, Inf s | Inf s, Fin _ => Inf s
  | Inf s, Inf t => if Bool.eqb s t then Inf s else NaN
  end.

Definition hf_sub (a b : hfloat) : hfloat := hf_add a (hf_neg b).

Definition hf_mul (a b : hfloat) : hfloat :=
  match a, b with
  | NaN, _ | _, NaN => NaN
  | Fin p, Fin q => Fin (p * q)%Qc
  | Fin p, Inf s | Inf s, Fin p =>
      if Qc_eqb p 0 then NaN else Inf (xorb s (Qc_ltb p 0))
  | Inf s, Inf t => Inf (xorb s t)
  end.

Definition hf_div (a b : hfloat) : hfloat :=
  match a, b with
  | NaN, _ | _, NaN => NaN
  | Fin p, Fin q =>
      if Qc_eqb q 0
      then (if Qc_eqb p 0 then NaN else Inf (Qc_ltb p 0))
      else Fin (p / q)%Qc
  | Fin _, Inf _ => Fin 0%Qc
  | Inf s, Fin q => Inf (xorb s (Qc_ltb q 0))
  | Inf _, Inf _ => NaN
  end.

(** [std::fabs] *)
Definition hf_fabs (a : hfloat) : hfloat :=
  match a with
  | Fin q => Fin (if Qc_ltb q 0 then - q else q)%Qc
  | Inf _ => Inf false
  | NaN => NaN
  end.

(** The comparisons [a < b] and [a == b]; both are false on NaN. *)
Definition hf_ltb (a b : hfloat) : bool :=
  match a, b with
  | NaN, _ | _, NaN => false
  | Fin p, Fin q => Qc_ltb p q
  | Fin _, Inf s => negb s
  | Inf s, Fin _ => s
  | Inf s, Inf t => s && negb t
  end.

Definition hf_eqb (a b : hfloat) : bool :=
  match a, b with
  | NaN, _ | _, NaN => false
  | Fin p, Fin q => Qc_eqb p q
  | Inf s, Inf t => Bool.eqb s t
  | _, _ => false
  end.

Definition hf_gtb (a b : hfloat) : bool := hf_ltb b a.

(** [a >= b] *)
Definition hf_geb (a b : hfloat) : bool := hf_gtb a b || hf_eqb a b.

(** ** HPoint ([headers/hpoint.h], [src/hpoint.cpp]) *)

Record HPoint : Type := mkHPoint {
  x : Z;             (* hint *)
  y : Z;             (* hint *)
  difference : hfloat;
  index : Z          (* hint *)
}.

(** [HPoint::HPoint(hint xx, hint yy)] *)
Definition HPoint_xy (xx yy : Z) : HPoint := mkHPoint xx yy hf_zero 0.
(** [HPoint::HPoint()] *)
Definition HPoint_default : HPoint := HPoint_xy 0 0.
(** [HPoint::HPoint(hint n)] *)
Definition HPoint_n (n : Z) : HPoint := HPoint_xy n n.

(** The setters [X(xx)], [Y(yy)] *)
Definition set_X (p : HPoint) (xx : Z) : HPoint :=
  mkHPoint xx (y p) (difference p) (index p).
Definition set_Y (p : HPoint) (yy : Z) : HPoint :=
  mkHPoint (x p) yy (difference p) (index p).
Definition set_index (p : HPoint) (i : Z) : HPoint :=
  mkHPoint (x p) (y p) (difference p) i.
Definition set_difference (p : HPoint) (d : hfloat) : HPoint :=
  mkHPoint (x p) (y p) d (index p).

(** [HPoint::operator+=(const HPoint&)] followed by the copy of
    [HPoint::operator+]: only the coordinates are added. *)
Definition HPoint_add (p q : HPoint) : HPoint :=
  mkHPoint (wrap (x p + x q)) (wrap (y p + y q)) (difference p) (index p).

(** [operator>(p1, p2)]: note that it answers [true] on equal points. *)
Definition HPoint_gt (p1 p2 : HPoint) : bool :=
  if y p1 <? y p2 then false
  else if (y p1 =? y p2) && (x p1 <? x p2) then false
  else true.

(** [operator<(p1, p2)] is [p2 > p1]. *)
Definition HPoint_lt (p1 p2 : HPoint) : bool := HPoint_gt p2 p1.

(** [indexCmp] *)
Definition indexCmp (p1 p2 : HPoint) : bool := index p1 <? index p2.

Definition coords (p : HPoint) : Z * Z := (x p, y p).

(** ** std::vector element access

    [v[i]] on a [std::vector] is unchecked: an access outside the vector is
    undefined behaviour, modelled by [None]. *)

Definition vec_get {T} (v : list T) (i : Z) : option T :=
  if decide (0 <= i) then v !! Z.to_nat i else None.

Definition vec_set {T} (v : list T) (i : Z) (p : T) : option (list T) :=
  if decide (0 <= i < Z.of_nat (length v))
  then Some (<[Z.to_nat i := p]> v) else None.

(** ** QuasiSquare ([src/hilbertcurve.cpp]) *)

Inductive Orientation : Type := A | B | C | D.

Record QuasiSquare : Type := mkQS {
  n : Z;                 (* hsize: the height *)
  m : Z;                 (* hsize: the width *)
  coord : HPoint;        (* origin *)
  oABCD : Orientation
}.

(** The parity correction at the head of [QuasiSquare::Partition]: the four
    half sizes [(n1, n2, m1, m2)] after the swaps. *)
Definition partition_sizes (nn mm : Z) (o : Orientation) : Z * Z * Z * Z :=
  let n1 := nn / 2 in
  let n2 := wrap (nn - n1) in
  let m1 := mm / 2 in
  let m2 := wrap (mm - m1) in
  match o with
  | A | B =>
      let '(n1, n2) := if n1 mod 2 =? 1 then (n2, n1) else (n1, n2) in
      let '(m1, m2) := if m1 mod 2 =? 1 then (m2, m1) else (m1, m2) in
      (n1, n2, m1, m2)
  | C | D =>
      let '(n1, n2) := if n2 mod 2 =? 1 then (n2, n1) else (n1, n2) in
      let '(m1, m2) := if m2 mod 2 =? 1 then (m2, m1) else (m1, m2) in
      (n1, n2, m1, m2)
  end.

(** [QuasiSquare::Partition]: the four children in the order of the
    [push_back]s.  The local [point] of the source is default constructed
    and only its coordinates are set, so the [difference] and [index] of
    every child origin are [0]. *)
Definition Partition (qs : QuasiSquare) : list QuasiSquare :=
  let '(n1, n2, m1, m2) := partition_sizes (n qs) (m qs) (oABCD qs) in
  let c := coord qs in
  let x0 := x c in
  let x1 := wrap (x c + m1) in
  let y0 := y c in
  let y1 := wrap (y c + n1) in
  match oABCD qs with
  | A => [ mkQS n1 m2 (HPoint_xy x1 y0) D;
           mkQS n2 m2 (HPoint_xy x1 y1) A;
           mkQS n2 m1 (HPoint_xy x0 y1) A;
           mkQS n1 m1 (HPoint_xy x0 y0) B ]
  | B => [ mkQS n2 m1 (HPoint_xy x0 y1) C;
           mkQS n2 m2 (HPoint_xy x1 y1) B;
           mkQS n1 m2 (HPoint_xy x1 y0) B;
           mkQS n1 m1 (HPoint_xy x0 y0) A ]
  | C => [ mkQS n2 m1 (HPoint_xy x0 y1) B;
           mkQS n1 m1 (HPoint_xy x0 y0) C;
           mkQS n1 m2 (HPoint_xy x1 y0) C;
           mkQS n2 m2 (HPoint_xy x1 y1) D ]
  | D => [ mkQS n1 m2 (HPoint_xy x1 y0) A;
           mkQS n1 m1 (HPoint_xy x0 y0) D;
           mkQS n2 m1 (HPoint_xy x0 y1) D;
           mkQS n2 m2 (HPoint_xy x1 y1) C ]
  end.

(** The primitive shapes of [QuasiSquare::BuildCurve]: the four [if]s that
    close the function, in source order.  [p] is the default constructed
    local point of [BuildCurve]. *)
Definition write_primitive (qs : QuasiSquare) (coordinates_list : list HPoint)
    (index : Z) : option (list HPoint) :=
  let c := coord qs in
  let o := oABCD qs in
  let p := HPoint_default in
  l ← (if (n qs =? 1) && (m qs =? 1)
       then vec_set coordinates_list index c
       else Some coordinates_list);
  l ← (if (n qs =? 1) && (m qs =? 2)
       then match o with
            | A | B =>
                l ← vec_set l index c;
                let p := set_Y (set_X p (wrap (x c + 1))) (y c) in
                vec_set l (wrap (index + 1)) p
            | C | D =>
                let p := set_Y (set_X p (wrap (x c + 1))) (y c) in
                l ← vec_set l index p;
                vec_set l (wrap (index + 1)) c
            end
       else Some l);
  l ← (if (n qs =? 2) && (m qs =? 1)
       then match o with
            | B | A =>
                l ← vec_set l index c;
                let p := set_Y (set_X p (x c)) (wrap (y c + 1)) in
                vec_set l (wrap (index + 1)) p
            | D | C =>
                let p := set_Y (set_X p (x c)) (wrap (y c + 1)) in
                l ← vec_set l index p;
                vec_set l (wrap (index + 1)) c
            end
       else Some l);
  if (n qs =? 2) && (m qs =? 2)
  then match o with
       | A =>
           l ← vec_set l index c;
           let p := set_Y (set_X p (x c)) (wrap (y c + 1)) in
           l ← vec_set l (wrap (index + 1)) p;
           let p := set_X p (wrap (x c + 1)) in
           l ← vec_set l (wrap (index + 2)) p;
           let p := set_Y p (wrap (y p - 1)) in
           vec_set l (wrap (index + 3)) p
       | B =>
           l ← vec_set l index c;
           let p := set_Y (set_X p (wrap (x c + 1))) (y c) in
           l ← vec_set l (wrap (index + 1)) p;
           let p := set_Y p (wrap (y c + 1)) in
           l ← vec_set l (wrap (index + 2)) p;
           let p := set_X p (wrap (x p - 1)) in
           vec_set l (wrap (index + 3)) p
       | C =>
           let p := set_Y (set_X p (wrap (x c + 1))) (wrap (y c + 1)) in
           l ← vec_set l index p;
           let p := set_Y p (y c) in
           l ← vec_set l (wrap (index + 1)) p;
           l ← vec_set l (wrap (index + 2)) c;
           let p := set_Y (set_X p (x c)) (wrap (y c + 1)) in
           vec_set l (wrap (index + 3)) p
       | D =>
           let p := set_Y (set_X p (wrap (x c + 1))) (wrap (y c + 1)) in
           l ← vec_set l index p;
           let p := set_X p (x c) in
           l ← vec_set l (wrap (index + 1)) p;
           l ← vec_set l (wrap (index + 2)) c;
           let p := set_Y (set_X p (wrap (x c + 1))) (y c) in
           vec_set l (wrap (index + 3)) p
       end
  else Some l.

(** The body of the loop over the four children in [BuildCurve]:
    [qs = qsv.back (); qsv.pop_back ();], the call for [qs] (pushed to the
    pool for the first two children, direct for the others) and
    [index += qs.n * qs.m].  [build] is that call. *)
Definition build_child
    (build : QuasiSquare -> list HPoint -> Z -> option (list HPoint))
    (st : option (list HPoint * Z)) (qs : QuasiSquare)
    : option (list HPoint * Z) :=
  '(l, index) ← st;
  l ← build qs l index;
  Some (l, wrap (index + wrap (n qs * m qs))).

(** [QuasiSquare::BuildCurve].  The recursion of the source ends because the
    children of a region with [n > 2 || m > 2] are smaller; the model
    recurses on [fuel] and [BuildCurveH0] supplies enough of it.

    The source hands the calls for the first two children to the global
    [thread_pool] ([push_task]) and runs the other two itself; a pushed call
    is the same call with the same [index], run later by a worker or by the
    drain loop of [BuildCurveH0].  Every call writes only the slots
    [index .. index + n*m - 1] of the shared vector (lemma
    [BuildCurve_frame] below), so the calls commute and the model runs each
    of them where it is submitted: [BuildCurve] is the vector once the
    pushed calls have run too, which is what [BuildCurveH0] leaves in
    [m_curve].  The vector and the queue at the return of one call are
    [BuildCurve_call] below. *)
Fixpoint BuildCurve (fuel : nat) (qs : QuasiSquare)
    (coordinates_list : list HPoint) (index : Z) : option (list HPoint) :=
  match fuel with
  | O => None
  | S fuel =>
      '(l, index) ←
        (if (2 <? n qs) || (2 <? m qs)
         then foldl (build_child (BuildCurve fuel))
                (Some (coordinates_list, index))
                (rev (Partition qs))
         else Some (coordinates_list, index));
      write_primitive qs l index
  end.

(** Fuel that suffices for a region: its half perimeter shrinks at every
    level of the recursion. *)
Definition BuildCurve_fuel (qs : QuasiSquare) : nat :=
  S (Z.to_nat (n qs + m qs)).

(** The points an [n x m] region contributes, in traversal order: the pure
    reading of [BuildCurve], used to state what [BuildCurve] writes. *)
Definition primitive_points (qs : QuasiSquare) : list HPoint :=
  let c := coord qs in
  let cx := x c in
  let cy := y c in
  match n qs, m qs, oABCD qs with
  | 1, 1, _ => [c]
  | 1, 2, (A | B) => [c; HPoint_xy (wrap (cx + 1)) cy]
  | 1, 2, (C | D) => [HPoint_xy (wrap (cx + 1)) cy; c]
  | 2, 1, (A | B) => [c; HPoint_xy cx (wrap (cy + 1))]
  | 2, 1, (C | D) => [HPoint_xy cx (wrap (cy + 1)); c]
  | 2, 2, A => [c; HPoint_xy cx (wrap (cy + 1));
                HPoint_xy (wrap (cx + 1)) (wrap (cy + 1));
                HPoint_xy (wrap (cx + 1)) (wrap (wrap (cy + 1) - 1))]
  | 2, 2, B => [c; HPoint_xy (wrap (cx + 1)) cy;
                HPoint_xy (wrap (cx + 1)) (wrap (cy + 1));
                HPoint_xy (wrap (wrap (cx + 1) - 1)) (wrap (cy + 1))]
  | 2, 2, C => [HPoint_xy (wrap (cx + 1)) (wrap (cy + 1));
                HPoint_xy (wrap (cx + 1)) cy; c;
                HPoint_xy cx (wrap (cy + 1))]
  | 2, 2, D => [HPoint_xy (wrap (cx + 1)) (wrap (cy + 1));
                HPoint_xy cx (wrap (cy + 1)); c;
                HPoint_xy (wrap (cx + 1)) cy]
  | _, _, _ => []
  end.

Fixpoint region_points (fuel : nat) (qs : QuasiSquare) : list HPoint :=
  match fuel with
  | O => []
  | S fuel =>
      if (2 <? n qs) || (2 <? m qs)
      then concat (map (region_points fuel) (rev (Partition qs)))
      else primitive_points qs
  end.

(** ** HilbertCurve: the type [H0] *)

(** [HilbertCurve::BuildCurveH0]: [m_curve.assign (n * m, 0)], then
    [BuildCurve (m_curve, 0)] and the drain of the pool. *)
Definition BuildCurveH0 (qs : QuasiSquare) : option (list HPoint) :=
  BuildCurve (BuildCurve_fuel qs) qs
    (replicate (Z.to_nat (wrap (n qs * m qs))) (HPoint_n 0)) 0.

(** ** parallel_algorithm.h *)

(** [std::iter_swap] on positions [i] and [j] of a sequence. *)
Definition iter_swap {T} (l : list T) (i j : nat) : list T :=
  match l !! i, l !! j with
  | Some a, Some b => <[j := a]> (<[i := b]> l)
  | _, _ => l
  end.

(** [swap_range_reverse (first_beg, first_end, last_beg, last_end)]:
    [lenght = first_end - first_beg] rounds of
    [std::iter_swap (first_beg++, --last_end)]. *)
Fixpoint swap_range_reverse {T} (l : list T) (first_beg last_end : nat)
    (lenght : nat) : list T :=
  match lenght with
  | O => l
  | S k =>
      swap_range_reverse (iter_swap l first_beg (last_end - 1))
        (S first_beg) (last_end - 1) k
  end.

Definition block_size : nat := Z.to_nat 10000.

(** The loop of [reverse_parallel] that hands out [num_blocks - 1] blocks;
    it returns the sequence with the positions [start] and [end] reached. *)
Fixpoint reverse_blocks {T} (blocks : nat) (l : list T) (start end_ : nat)
    : list T * nat * nat :=
  match blocks with
  | O => (l, start, end_)
  | S b =>
      reverse_blocks b (swap_range_reverse l start end_ block_size)
        (start + block_size) (end_ - block_size)
  end.

(** [reverse_parallel (first, last)].  Below the block size it is
    [std::reverse]; above, the blocks given to the local pool and the last
    block, which the caller runs itself, touch pairwise disjoint positions,
    so they are run in the order of their submission. *)
Definition reverse_parallel {T} (l : list T) : list T :=
  let lenght := length l in
  if (lenght =? 0)%nat then l
  else
    let mid_lenght := (lenght / 2)%nat in
    if (mid_lenght <? block_size)%nat then rev l
    else
      let num_blocks := ((mid_lenght + block_size - 1) / block_size)%nat in
      let '(l, start, end_) := reverse_blocks (num_blocks - 1) l 0 lenght in
      swap_range_reverse l start end_ (mid_lenght - start).

Definition min_per_thread : nat := Z.to_nat 10000.

(** [for_each_parallel (first, last, f)]: [std::for_each] on short ranges,
    otherwise the two halves (the first through [std::async]).  [fuel]
    bounds the depth of the bisection; the length of the range is enough. *)
Fixpoint for_each_parallel_rec {T} (fuel : nat) (f : T -> T) (l : list T)
    : list T :=
  let length := length l in
  if (length =? 0)%nat then l
  else if (length <? 2 * min_per_thread)%nat then map f l
  else
    match fuel with
    | O => l
    | S fuel =>
        let mid_point := (length / 2)%nat in
        for_each_parallel_rec fuel f (take mid_point l)
          ++ for_each_parallel_rec fuel f (drop mid_point l)
    end.

Definition for_each_parallel {T} (f : T -> T) (l : list T) : list T :=
  for_each_parallel_rec (length l) f l.

(** ** HilbertCurve ([src/hilbertcurve.cpp]) *)

Inductive CurveType : Type :=
| H0 | H1 | H2 | H3 | H4 | H5 | H6 | H7 | H8 | H9
| H10 | H11 | H12 | H13 | H14 | H15 | H16 | H17 | H18 | H19
| H20 | H21 | H22 | H23 | H24 | H25 | H26 | H27 | H28 | H29
| H30 | H31 | H32 | H33 | H34 | H35 | H36 | H37 | H38 | H39.

(** [class HilbertCurve : protected QuasiSquare].  The constructor leaves
    [m_mean_difference] uninitialised; no modelled function reads it before
    [BuildDifference] has set it, and the model starts it at [0]. *)
Record HilbertCurve : Type := mkHC {
  qs : QuasiSquare;
  m_type : CurveType;
  m_curve : list HPoint;
  m_mean_difference : hfloat
}.

Definition width (hc : HilbertCurve) : Z := m (qs hc).
Definition height (hc : HilbertCurve) : Z := n (qs hc).
Definition lenght (hc : HilbertCurve) : Z := wrap (Z.of_nat (length (m_curve hc))).
Definition meanDifference (hc : HilbertCurve) : hfloat := m_mean_difference hc.

Definition set_curve (hc : HilbertCurve) (l : list HPoint) : HilbertCurve :=
  mkHC (qs hc) (m_type hc) l (m_mean_difference hc).

(** [HilbertCurve::reflectX]: [p.X (m - 1 - p.X() + 2 * coord.X ())] *)
Definition reflectX (hc : HilbertCurve) : HilbertCurve :=
  set_curve hc
    (for_each_parallel
       (fun p => set_X p (wrap (wrap (wrap (m (qs hc) - 1) - x p)
                                + wrap (2 * x (coord (qs hc))))))
       (m_curve hc)).

(** [HilbertCurve::reflectY]: [p.Y (n - 1 - p.Y() + 2 * coord.Y ())] *)
Definition reflectY (hc : HilbertCurve) : HilbertCurve :=
  set_curve hc
    (for_each_parallel
       (fun p => set_Y p (wrap (wrap (wrap (n (qs hc) - 1) - y p)
                                + wrap (2 * y (coord (qs hc))))))
       (m_curve hc)).

(** [HilbertCurve::reverse] *)
Definition reverse (hc : HilbertCurve) : HilbertCurve :=
  set_curve hc (reverse_parallel (m_curve hc)).

(** [HilbertCurve::reflect]; the [throw] of the source needs an orientation
    outside the enumeration. *)
Definition reflect (hc : HilbertCurve) : HilbertCurve :=
  match oABCD (qs hc) with
  | A | C => reflectX hc
  | B | D => reflectY hc
  end.

(** [HilbertCurve::reflectAndReverse] *)
Definition reflectAndReverse (hc : HilbertCurve) : HilbertCurve :=
  reverse (reflect hc).

(** [HilbertCurve::joinCurve] *)
Definition joinCurve (hc cuadrant1 cuadrant2 cuadrant3 cuadrant4 : HilbertCurve)
    : HilbertCurve :=
  let c1 := m_curve cuadrant1 in
  let c2 := m_curve cuadrant2 in
  let c3 := m_curve cuadrant3 in
  let c4 := m_curve cuadrant4 in
  set_curve hc
    match oABCD (qs hc) with
    | A => [] ++ c1 ++ c2 ++ c3 ++ c4
    | B => [] ++ c1 ++ c4 ++ c3 ++ c2
    | C => [] ++ c3 ++ c4 ++ c1 ++ c2
    | D => [] ++ c3 ++ c2 ++ c1 ++ c4
    end.

(** ** The curve grammar

    Each [BuildCurve<k>H] of the source splits the region in four
    ([w2 = width / 2], [w1 = width - w2], [h2 = height / 2],
    [h1 = height - h2]), picks by a [switch] on the orientation the type and
    the orientation of the curve of every quadrant, builds the four curves,
    transforms some of them in place and joins them.  The choices of the
    [switch]es are recorded below, one definition per function of the
    source; [BuildCurveNH] further down is the part they share. *)

Inductive Transform : Type := t_reverse | t_reflect | t_reflectAndReverse.

(** What one quadrant is built from: the type and the orientation given to
    its constructor, and the calls made on it afterwards, in source order. *)
Record Quadrant : Type := mkQuadrant {
  q_type : CurveType;
  q_orientation : Orientation;
  q_calls : list Transform
}.

Record Production : Type := mkProduction {
  cuadrant1 : Quadrant;    (* lower left *)
  cuadrant2 : Quadrant;    (* upper left *)
  cuadrant3 : Quadrant;    (* upper right *)
  cuadrant4 : Quadrant     (* lower right *)
}.

Notation "'quad' t o c" := (mkQuadrant t o c)
  (at level 10, t at level 9, o at level 9, c at level 9, only parsing).

(** [HilbertCurve::BuildCurve1H] *)
Definition production1 (o : Orientation) : Production :=
  match o with
  | A => mkProduction (quad H0 D [t_reverse]) (quad H0 D [t_reverse])
                     (quad H0 B [t_reverse]) (quad H0 B [t_reverse])
  | B => mkProduction (quad H0 C [t_reverse]) (quad H0 A [t_reverse])
                     (quad H0 A [t_reverse]) (quad H0 C [t_reverse])
  | C => mkProduction (quad H0 D [t_reverse]) (quad H0 D [t_reverse])
                     (quad H0 B [t_reverse]) (quad H0 B [t_reverse])
  | D => mkProduction (quad H0 C [t_reverse]) (quad H0 A [t_reverse])
                     (quad H0 A [t_reverse]) (quad H0 C [t_reverse])
  end.

(** [HilbertCurve::BuildCurve2H] *)
Definition production2 (o : Orientation) : Production :=
  match o with
  | A => mkProduction (quad H0 C []) (quad H0 A [])
                     (quad H0 A []) (quad H0 C [])
  | B => mkProduction (quad H0 D []) (quad H0 D [])
                     (quad H0 B []) (quad H0 B [])
  | C => mkProduction (quad H0 C []) (quad H0 A [])
                     (quad H0 A []) (quad H0 C [])
  | D => mkProduction (quad H0 D []) (quad H0 D [])
                     (quad H0 B []) (quad H0 B [])
  end.

(** [HilbertCurve::BuildCurve3H] *)
Definition production3 (o : Orientation) : Production :=
  match o with
  | A => mkProduction (quad H0 C [t_reverse]) (quad H0 D [t_reverse])
                     (quad H0 B [t_reverse]) (quad H0 C [t_reverse])
  | B => mkProduction (quad H0 D [t_reverse]) (quad H0 D [t_reverse])
                     (quad H0 A [t_reverse]) (quad H0 C [t_reverse])
  | C => mkProduction (quad H0 D [t_reverse]) (quad H0 A [t_reverse])
                     (quad H0 A [t_reverse]) (quad H0 B [t_reverse])
  | D => mkProduction (quad H0 C [t_reverse]) (quad H0 A [t_reverse])
                     (quad H0 B [t_reverse]) (quad H0 B [t_reverse])
  end.

(** [HilbertCurve::BuildCurve4H] *)
Definition production4 (o : Orientation) : Production :=
  match o with
  | A => mkProduction (quad H0 B []) (quad H0 A [])
                     (quad H0 A []) (quad H0 C [])
  | B => mkProduction (quad H0 A []) (quad H0 D [])
                     (quad H0 B []) (quad H0 B [])
  | C => mkProduction (quad H0 C []) (quad H0 A [])
                     (quad H0 D []) (quad H0 C [])
  | D => mkProduction (quad H0 D []) (quad H0 D [])
                     (quad H0 C []) (quad H0 B [])
  end.

(** [HilbertCurve::BuildCurve5H] *)
Definition production5 (o : Orientation) : Production :=
  match o with
  | A => mkProduction (quad H0 C [t_reverse]) (quad H0 D [t_reverse])
                     (quad H0 B [t_reverse]) (quad H0 B [t_reverse])
  | B => mkProduction (quad H0 D [t_reverse]) (quad H0 A [t_reverse])
                     (quad H0 A [t_reverse]) (quad H0 C [t_reverse])
  | C => mkProduction (quad H0 D [t_reverse]) (quad H0 D [t_reverse])
                     (quad H0 A [t_reverse]) (quad H0 B [t_reverse])
  | D => mkProduction (quad H0 C [t_reverse]) (quad H0 A [t_reverse])
                     (quad H0 B [t_reverse]) (quad H0 C [t_reverse])
  end.

(** [HilbertCurve::BuildCurve6H] *)
Definition production6 (o : Orientation) : Production :=
  match o with
  | A => mkProduction (quad H5 C []) (quad H5 A [t_reflectAndReverse])
                     (quad H5 A []) (quad H5 C [t_reflectAndReverse])
  | B => mkProduction (quad H5 D []) (quad H5 D [t_reflectAndReverse])
                     (quad H5 B []) (quad H5 B [t_reflectAndReverse])
  | C => mkProduction (quad H5 C []) (quad H5 A [t_reflectAndReverse])
                     (quad H5 A []) (quad H5 C [t_reflectAndReverse])
  | D => mkProduction (quad H5 D []) (quad H5 D [t_reflectAndReverse])
                     (quad H5 B []) (quad H5 B [t_reflectAndReverse])
  end.

(** [HilbertCurve::BuildCurve7H] *)
Definition production7 (o : Orientation) : Production :=
  match o with
  | A => mkProduction (quad H5 C []) (quad H5 A [t_reflectAndReverse])
                     (quad H5 A []) (quad H5 D [])
  | B => mkProduction (quad H5 A [t_reflectAndReverse]) (quad H5 D [t_reflectAndReverse])
                     (quad H5 B []) (quad H5 B [t_reflectAndReverse])
  | C => mkProduction (quad H5 C []) (quad H5 B [])
                     (quad H5 A []) (quad H5 C [t_reflectAndReverse])
  | D => mkProduction (quad H5 D []) (quad H5 D [t_reflectAndReverse])
                     (quad H5 C [t_reflectAndReverse]) (quad H5 B [t_reflectAndReverse])
  end.

(** [HilbertCurve::BuildCurve8H] *)
Definition production8 (o : Orientation) : Production :=
  match o with
  | A => mkProduction (quad H5 B [t_reflectAndReverse]) (quad H5 A [t_reflectAndReverse])
                     (quad H5 A []) (quad H5 D [])
  | B => mkProduction (quad H5 A [t_reflectAndReverse]) (quad H5 C [])
                     (quad H5 B []) (quad H5 B [t_reflectAndReverse])
  | C => mkProduction (quad H5 C []) (quad H5 B [])
                     (quad H5 D [t_reflectAndReverse]) (quad H5 C [t_reflectAndReverse])
  | D => mkProduction (quad H5 D []) (quad H5 D [t_reflectAndReverse])
                     (quad H5 C [t_reflectAndReverse]) (quad H5 A [])
  end.

(** [HilbertCurve::BuildCurve9H] *)
Definition production9 (o : Orientation) : Production :=
  match o with
  | A => mkProduction (quad H5 D [t_reverse]) (quad H5 D [t_reflect])
                     (quad H5 B [t_reverse]) (quad H5 B [t_reflect])
  | B => mkProduction (quad H5 C [t_reverse]) (quad H5 A [t_reflect])
                     (quad H5 A [t_reverse]) (quad H5 C [t_reflect])
  | C => mkProduction (quad H5 D [t_reverse]) (quad H5 D [t_reflect])
                     (quad H5 B [t_reverse]) (quad H5 B [t_reflect])
  | D => mkProduction (quad H5 C [t_reverse]) (quad H5 A [t_reflect])
                     (quad H5 A [t_reverse]) (quad H5 C [t_reflect])
  end.

(** [HilbertCurve::BuildCurve10H] *)
Definition production10 (o : Orientation) : Production :=
  match o with
  | A => mkProduction (quad H5 C [t_reflect]) (quad H5 D [t_reflect])
                     (quad H5 B [t_reverse]) (quad H5 C [t_reverse])
  | B => mkProduction (quad H5 D [t_reflect]) (quad H5 D [t_reverse])
                     (quad H5 A [t_reverse]) (quad H5 C [t_reflect])
  | C => mkProduction (quad H5 D [t_reverse]) (quad H5 A [t_reverse])
                     (quad H5 A [t_reflect]) (quad H5 B [t_reflect])
  | D => mkProduction (quad H5 C [t_reverse]) (quad H5 A [t_reflect])
                     (quad H5 B [t_reflect]) (quad H5 B [t_reverse])
  end.

(** [HilbertCurve::BuildCurve11H] *)
Definition production11 (o : Orientation) : Production :=
  match o with
  | A => mkProduction (quad H5 C [t_reflect]) (quad H5 D [t_reflect])
                     (quad H5 B [t_reverse]) (quad H5 B [t_reflect])
  | B => mkProduction (quad H5 C [t_reverse]) (quad H5 D [t_reverse])
                     (quad H5 A [t_reverse]) (quad H5 C [t_reflect])
  | C => mkProduction (quad H5 D [t_reverse]) (quad H5 D [t_reflect])
                     (quad H5 A [t_reflect]) (quad H5 B [t_reflect])
  | D => mkProduction (quad H5 C [t_reverse]) (quad H5 A [t_reflect])
                     (quad H5 A [t_reverse]) (quad H5 B [t_reverse])
  end.

(** [HilbertCurve::BuildCurve12H] *)
Definition production12 (o : Orientation) : Production :=
  match o with
  | A => mkProduction (quad H3 B []) (quad H5 A [t_reflectAndReverse])
                     (quad H5 A []) (quad H3 D [])
  | B => mkProduction (quad H3 A []) (quad H3 C [])
                     (quad H5 B []) (quad H5 B [t_reflectAndReverse])
  | C => mkProduction (quad H5 C []) (quad H3 B [])
                     (quad H3 D []) (quad H5 C [t_reflectAndReverse])
  | D => mkProduction (quad H5 D []) (quad H5 D [t_reflectAndReverse])
                     (quad H3 C []) (quad H3 A [])
  end.

(** [HilbertCurve::BuildCurve13H] *)
Definition production13 (o : Orientation) : Production :=
  match o with
  | A => mkProduction (quad H3 D [t_reverse]) (quad H5 D [t_reflect])
                     (quad H5 B [t_reverse]) (quad H3 B [t_reverse])
  | B => mkProduction (quad H3 C [t_reverse]) (quad H3 A [t_reverse])
                     (quad H5 A [t_reverse]) (quad H5 C [t_reflect])
  | C => mkProduction (quad H5 D [t_reverse]) (quad H3 D [t_reverse])
                     (quad H3 B [t_reverse]) (quad H5 B [t_reflect])
  | D => mkProduction (quad H5 C [t_reverse]) (quad H5 A [t_reflect])
                     (quad H3 A [t_reverse]) (quad H3 C [t_reverse])
  end.

(** [HilbertCurve::BuildCurve14H] *)
Definition production14 (o : Orientation) : Production :=
  match o with
  | A => mkProduction (quad H3 B []) (quad H5 A [t_reflectAndReverse])
                     (quad H5 A []) (quad H5 D [])
  | B => mkProduction (quad H5 A [t_reflectAndReverse]) (quad H3 C [])
                     (quad H5 B []) (quad H5 B [t_reflectAndReverse])
  | C => mkProduction (quad H5 C []) (quad H5 B [])
                     (quad H3 D []) (quad H5 C [t_reflectAndReverse])
  | D => mkProduction (quad H5 D []) (quad H5 D [t_reflectAndReverse])
                     (quad H5 C [t_reflectAndReverse]) (quad H3 A [])
  end.

(** [HilbertCurve::BuildCurve15H] *)
Definition production15 (o : Orientation) : Production :=
  match o with
  | A => mkProduction (quad H3 D [t_reverse]) (quad H5 D [t_reflect])
                     (quad H5 B [t_reverse]) (quad H5 C [t_reverse])
  | B => mkProduction (quad H5 D [t_reflect]) (quad H3 A [t_reverse])
                     (quad H5 A [t_reverse]) (quad H5 C [t_reflect])
  | C => mkProduction (quad H5 D [t_reverse]) (quad H5 A [t_reverse])
                     (quad H3 B [t_reverse]) (quad H5 B [t_reflect])
  | D => mkProduction (quad H5 C [t_reverse]) (quad H5 A [t_reflect])
                     (quad H5 B [t_reflect]) (quad H3 C [t_reverse])
  end.

(** [HilbertCurve::BuildCurve16H] *)
Definition production16 (o : Orientation) : Production :=
  match o with
  | A => mkProduction (quad H3 B []) (quad H5 A [t_reflectAndReverse])
                     (quad H5 A []) (quad H5 C [t_reflectAndReverse])
  | B => mkProduction (quad H5 D []) (quad H3 C [])
                     (quad H5 B []) (quad H5 B [t_reflectAndReverse])
  | C => mkProduction (quad H5 C []) (quad H5 A [t_reflectAndReverse])
                     (quad H3 D []) (quad H5 C [t_reflectAndReverse])
  | D => mkProduction (quad H5 D []) (quad H5 D [t_reflectAndReverse])
                     (quad H5 B []) (quad H3 A [])
  end.

(** [HilbertCurve::BuildCurve17H] *)
Definition production17 (o : Orientation) : Production :=
  match o with
  | A => mkProduction (quad H3 D [t_reverse]) (quad H5 D [t_reflect])
                     (quad H5 B [t_reverse]) (quad H5 B [t_reflect])
  | B => mkProduction (quad H5 C [t_reverse]) (quad H3 A [t_reverse])
                     (quad H5 A [t_reverse]) (quad H5 C [t_reflect])
  | C => mkProduction (quad H5 D [t_reverse]) (quad H5 D [t_reflect])
                     (quad H3 B [t_reverse]) (quad H5 B [t_reflect])
  | D => mkProduction (quad H5 C [t_reverse]) (quad H5 A [t_reflect])
                     (quad H5 A [t_reverse]) (quad H3 C [t_reverse])
  end.

(** [HilbertCurve::BuildCurve18H] *)
Definition production18 (o : Orientation) : Production :=
  match o with
  | A => mkProduction (quad H4 B [t_reflectAndReverse]) (quad H0 A [])
                     (quad H0 A []) (quad H4 D [])
  | B => mkProduction (quad H4 A [t_reflectAndReverse]) (quad H4 C [])
                     (quad H0 B []) (quad H0 B [])
  | C => mkProduction (quad H0 C []) (quad H4 B [])
                     (quad H4 D [t_reflectAndReverse]) (quad H0 C [])
  | D => mkProduction (quad H0 D []) (quad H0 D [])
                     (quad H4 C [t_reflectAndReverse]) (quad H4 A [])
  end.

(** [HilbertCurve::BuildCurve19H] *)
Definition production19 (o : Orientation) : Production :=
  match o with
  | A => mkProduction (quad H4 C [t_reflectAndReverse]) (quad H0 A [])
                     (quad H0 A []) (quad H4 C [])
  | B => mkProduction (quad H4 D [t_reflectAndReverse]) (quad H4 D [])
                     (quad H0 B []) (quad H0 B [])
  | C => mkProduction (quad H0 C []) (quad H4 A [])
                     (quad H4 A [t_reflectAndReverse]) (quad H0 C [])
  | D => mkProduction (quad H0 D []) (quad H0 D [])
                     (quad H4 B [t_reflectAndReverse]) (quad H4 B [])
  end.

(** [HilbertCurve::BuildCurve20H] *)
Definition production20 (o : Orientation) : Production :=
  match o with
  | A => mkProduction (quad H4 B [t_reflectAndReverse]) (quad H0 A [])
                     (quad H0 A []) (quad H4 C [])
  | B => mkProduction (quad H4 D [t_reflectAndReverse]) (quad H4 C [])
                     (quad H0 B []) (quad H0 B [])
  | C => mkProduction (quad H0 C []) (quad H4 A [])
                     (quad H4 D [t_reflectAndReverse]) (quad H0 C [])
  | D => mkProduction (quad H0 D []) (quad H0 D [])
                     (quad H4 B [t_reflectAndReverse]) (quad H4 A [])
  end.

(** [HilbertCurve::BuildCurve21H] *)
Definition production21 (o : Orientation) : Production :=
  match o with
  | A => mkProduction (quad H4 C [t_reverse]) (quad H0 D [t_reverse])
                     (quad H0 B [t_reverse]) (quad H4 C [t_reflect])
  | B => mkProduction (quad H4 D [t_reverse]) (quad H4 D [t_reflect])
                     (quad H0 A [t_reverse]) (quad H0 C [t_reverse])
  | C => mkProduction (quad H0 D [t_reverse]) (quad H4 A [t_reflect])
                     (quad H4 A [t_reverse]) (quad H0 B [t_reverse])
  | D => mkProduction (quad H0 C [t_reverse]) (quad H0 A [t_reverse])
                     (quad H4 B [t_reverse]) (quad H4 B [t_reflect])
  end.

(** [HilbertCurve::BuildCurve22H] *)
Definition production22 (o : Orientation) : Production :=
  match o with
  | A => mkProduction (quad H4 D [t_reverse]) (quad H0 D [t_reverse])
                     (quad H0 B [t_reverse]) (quad H4 B [t_reflect])
  | B => mkProduction (quad H4 C [t_reverse]) (quad H4 A [t_reflect])
                     (quad H0 A [t_reverse]) (quad H0 C [t_reverse])
  | C => mkProduction (quad H0 D [t_reverse]) (quad H4 D [t_reflect])
                     (quad H4 B [t_reverse]) (quad H0 B [t_reverse])
  | D => mkProduction (quad H0 C [t_reverse]) (quad H0 A [t_reverse])
                     (quad H4 A [t_reverse]) (quad H4 C [t_reflect])
  end.

(** [HilbertCurve::BuildCurve23H] *)
Definition production23 (o : Orientation) : Production :=
  match o with
  | A => mkProduction (quad H4 D [t_reverse]) (quad H0 D [t_reverse])
                     (quad H0 B [t_reverse]) (quad H4 C [t_reflect])
  | B => mkProduction (quad H4 D [t_reverse]) (quad H4 A [t_reflect])
                     (quad H0 A [t_reverse]) (quad H0 C [t_reverse])
  | C => mkProduction (quad H0 D [t_reverse]) (quad H4 A [t_reflect])
                     (quad H4 B [t_reverse]) (quad H0 B [t_reverse])
  | D => mkProduction (quad H0 C [t_reverse]) (quad H0 A [t_reverse])
                     (quad H4 B [t_reverse]) (quad H4 C [t_reflect])
  end.

(** [HilbertCurve::BuildCurve24H] *)
Definition production24 (o : Orientation) : Production :=
  match o with
  | A => mkProduction (quad H0 C [t_reverse]) (quad H0 D [t_reverse])
                     (quad H0 B [t_reverse]) (quad H4 B [t_reflect])
  | B => mkProduction (quad H4 C [t_reverse]) (quad H0 D [t_reverse])
                     (quad H0 A [t_reverse]) (quad H0 C [t_reverse])
  | C => mkProduction (quad H0 D [t_reverse]) (quad H4 D [t_reflect])
                     (quad H0 A [t_reverse]) (quad H0 B [t_reverse])
  | D => mkProduction (quad H0 C [t_reverse]) (quad H0 A [t_reverse])
                     (quad H4 A [t_reverse]) (quad H0 B [t_reverse])
  end.

(** [HilbertCurve::BuildCurve25H] *)
Definition production25 (o : Orientation) : Production :=
  match o with
  | A => mkProduction (quad H0 D [t_reverse]) (quad H0 D [t_reverse])
                     (quad H0 B [t_reverse]) (quad H4 C [t_reflect])
  | B => mkProduction (quad H4 D [t_reverse]) (quad H0 A [t_reverse])
                     (quad H0 A [t_reverse]) (quad H0 C [t_reverse])
  | C => mkProduction (quad H0 D [t_reverse]) (quad H4 A [t_reflect])
                     (quad H0 B [t_reverse]) (quad H0 B [t_reverse])
  | D => mkProduction (quad H0 C [t_reverse]) (quad H0 A [t_reverse])
                     (quad H4 B [t_reverse]) (quad H0 C [t_reverse])
  end.

(** [HilbertCurve::BuildCurve26H] *)
Definition production26 (o : Orientation) : Production :=
  match o with
  | A => mkProduction (quad H0 D [t_reverse]) (quad H0 D [t_reverse])
                     (quad H0 B [t_reverse]) (quad H4 B [t_reflect])
  | B => mkProduction (quad H4 C [t_reverse]) (quad H0 A [t_reverse])
                     (quad H0 A [t_reverse]) (quad H0 C [t_reverse])
  | C => mkProduction (quad H0 D [t_reverse]) (quad H4 D [t_reflect])
                     (quad H0 B [t_reverse]) (quad H0 B [t_reverse])
  | D => mkProduction (quad H0 C [t_reverse]) (quad H0 A [t_reverse])
                     (quad H4 A [t_reverse]) (quad H0 C [t_reverse])
  end.

(** [HilbertCurve::BuildCurve27H] *)
Definition production27 (o : Orientation) : Production :=
  match o with
  | A => mkProduction (quad H0 C []) (quad H0 A [])
                     (quad H0 A []) (quad H4 C [])
  | B => mkProduction (quad H4 D [t_reflectAndReverse]) (quad H0 D [])
                     (quad H0 B []) (quad H0 B [])
  | C => mkProduction (quad H0 C []) (quad H4 A [])
                     (quad H0 A []) (quad H0 C [])
  | D => mkProduction (quad H0 D []) (quad H0 D [])
                     (quad H4 B [t_reflectAndReverse]) (quad H0 B [])
  end.

(** [HilbertCurve::BuildCurve28H] *)
Definition production28 (o : Orientation) : Production :=
  match o with
  | A => mkProduction (quad H0 C []) (quad H0 A [])
                     (quad H0 A []) (quad H4 D [])
  | B => mkProduction (quad H4 A [t_reflectAndReverse]) (quad H0 D [])
                     (quad H0 B []) (quad H0 B [])
  | C => mkProduction (quad H0 C []) (quad H4 B [])
                     (quad H0 A []) (quad H0 C [])
  | D => mkProduction (quad H0 D []) (quad H0 D [])
                     (quad H4 C [t_reflectAndReverse]) (quad H0 B [])
  end.

(** [HilbertCurve::BuildCurve29H] *)
Definition production29 (o : Orientation) : Production :=
  match o with
  | A => mkProduction (quad H0 B []) (quad H0 A [])
                     (quad H0 A []) (quad H4 C [])
  | B => mkProduction (quad H4 D [t_reflectAndReverse]) (quad H0 D [])
                     (quad H0 B []) (quad H0 B [])
  | C => mkProduction (quad H0 C []) (quad H4 A [])
                     (quad H0 D []) (quad H0 C [])
  | D => mkProduction (quad H0 D []) (quad H0 D [])
                     (quad H4 B [t_reflectAndReverse]) (quad H0 A [])
  end.

(** [HilbertCurve::BuildCurve30H] *)
Definition production30 (o : Orientation) : Production :=
  match o with
  | A => mkProduction (quad H0 B []) (quad H0 A [])
                     (quad H0 A []) (quad H4 D [])
  | B => mkProduction (quad H4 A [t_reflectAndReverse]) (quad H0 C [])
                     (quad H0 B []) (quad H0 B [])
  | C => mkProduction (quad H0 C []) (quad H4 B [])
                     (quad H0 D []) (quad H0 C [])
  | D => mkProduction (quad H0 D []) (quad H0 D [])
                     (quad H4 C [t_reflectAndReverse]) (quad H0 A [])
  end.

(** [HilbertCurve::BuildCurve31H] *)
Definition production31 (o : Orientation) : Production :=
  match o with
  | A => mkProduction (quad H0 C [t_reverse]) (quad H0 D [t_reverse])
                     (quad H0 B [t_reverse]) (quad H4 C [t_reflect])
  | B => mkProduction (quad H4 D [t_reverse]) (quad H0 D [t_reverse])
                     (quad H0 A [t_reverse]) (quad H0 C [t_reverse])
  | C => mkProduction (quad H0 D [t_reverse]) (quad H4 A [t_reflect])
                     (quad H0 A [t_reverse]) (quad H0 B [t_reverse])
  | D => mkProduction (quad H0 C [t_reverse]) (quad H0 A [t_reverse])
                     (quad H4 B [t_reverse]) (quad H0 B [t_reverse])
  end.

(** [HilbertCurve::BuildCurve32H] *)
Definition production32 (o : Orientation) : Production :=
  match o with
  | A => mkProduction (quad H1 C []) (quad H5 A [t_reflectAndReverse])
                     (quad H5 A []) (quad H1 C [])
  | B => mkProduction (quad H1 D []) (quad H1 D [])
                     (quad H5 B []) (quad H5 B [t_reflectAndReverse])
  | C => mkProduction (quad H5 C []) (quad H1 A [])
                     (quad H1 A []) (quad H5 C [t_reflectAndReverse])
  | D => mkProduction (quad H5 D []) (quad H5 D [t_reflectAndReverse])
                     (quad H1 B []) (quad H1 B [])
  end.

(** [HilbertCurve::BuildCurve33H] *)
Definition production33 (o : Orientation) : Production :=
  match o with
  | A => mkProduction (quad H1 C [t_reverse]) (quad H5 D [t_reflect])
                     (quad H5 B [t_reverse]) (quad H1 C [t_reverse])
  | B => mkProduction (quad H1 D [t_reverse]) (quad H1 D [t_reverse])
                     (quad H5 A [t_reverse]) (quad H5 C [t_reflect])
  | C => mkProduction (quad H5 D [t_reverse]) (quad H1 A [t_reverse])
                     (quad H1 A [t_reverse]) (quad H5 B [t_reflect])
  | D => mkProduction (quad H5 C [t_reverse]) (quad H5 A [t_reflect])
                     (quad H1 B [t_reverse]) (quad H1 B [t_reverse])
  end.

(** [HilbertCurve::BuildCurve34H] *)
Definition production34 (o : Orientation) : Production :=
  match o with
  | A => mkProduction (quad H5 C []) (quad H5 A [t_reflectAndReverse])
                     (quad H5 A []) (quad H1 C [])
  | B => mkProduction (quad H1 D []) (quad H5 D [t_reflectAndReverse])
                     (quad H5 B []) (quad H5 B [t_reflectAndReverse])
  | C => mkProduction (quad H5 C []) (quad H1 A [])
                     (quad H5 A []) (quad H5 C [t_reflectAndReverse])
  | D => mkProduction (quad H5 D []) (quad H5 D [t_reflectAndReverse])
                     (quad H1 B []) (quad H5 B [t_reflectAndReverse])
  end.

(** [HilbertCurve::BuildCurve35H] *)
Definition production35 (o : Orientation) : Production :=
  match o with
  | A => mkProduction (quad H5 D [t_reverse]) (quad H5 D [t_reflect])
                     (quad H5 B [t_reverse]) (quad H1 C [t_reverse])
  | B => mkProduction (quad H1 D [t_reverse]) (quad H5 A [t_reflect])
                     (quad H5 A [t_reverse]) (quad H5 C [t_reflect])
  | C => mkProduction (quad H5 D [t_reverse]) (quad H1 A [t_reverse])
                     (quad H5 B [t_reverse]) (quad H5 B [t_reflect])
  | D => mkProduction (quad H5 C [t_reverse]) (quad H5 A [t_reflect])
                     (quad H1 B [t_reverse]) (quad H5 C [t_reflect])
  end.

(** [HilbertCurve::BuildCurve36H] *)
Definition production36 (o : Orientation) : Production :=
  match o with
  | A => mkProduction (quad H5 B [t_reflectAndReverse]) (quad H5 A [t_reflectAndReverse])
                     (quad H5 A []) (quad H1 C [])
  | B => mkProduction (quad H1 D []) (quad H5 C [])
                     (quad H5 B []) (quad H5 B [t_reflectAndReverse])
  | C => mkProduction (quad H5 C []) (quad H1 A [])
                     (quad H5 D [t_reflectAndReverse]) (quad H5 C [t_reflectAndReverse])
  | D => mkProduction (quad H5 D []) (quad H5 D [t_reflectAndReverse])
                     (quad H1 B []) (quad H5 A [])
  end.

(** [HilbertCurve::BuildCurve37H] *)
Definition production37 (o : Orientation) : Production :=
  match o with
  | A => mkProduction (quad H5 C [t_reflect]) (quad H5 D [t_reflect])
                     (quad H5 B [t_reverse]) (quad H1 C [t_reverse])
  | B => mkProduction (quad H1 D [t_reverse]) (quad H5 D [t_reverse])
                     (quad H5 A [t_reverse]) (quad H5 C [t_reflect])
  | C => mkProduction (quad H5 D [t_reverse]) (quad H1 A [t_reverse])
                     (quad H5 A [t_reflect]) (quad H5 B [t_reflect])
  | D => mkProduction (quad H5 C [t_reverse]) (quad H5 A [t_reflect])
                     (quad H1 B [t_reverse]) (quad H5 B [t_reverse])
  end.

(** [HilbertCurve::BuildCurve38H] *)
Definition production38 (o : Orientation) : Production :=
  match o with
  | A => mkProduction (quad H3 B []) (quad H5 A [t_reflectAndReverse])
                     (quad H5 A []) (quad H1 C [])
  | B => mkProduction (quad H1 D []) (quad H3 C [])
                     (quad H5 B []) (quad H5 B [t_reflectAndReverse])
  | C => mkProduction (quad H5 C []) (quad H1 A [])
                     (quad H3 D []) (quad H5 C [t_reflectAndReverse])
  | D => mkProduction (quad H5 D []) (quad H5 D [t_reflectAndReverse])
                     (quad H1 B []) (quad H3 A [])
  end.

(** [HilbertCurve::BuildCurve39H] *)
Definition production39 (o : Orientation) : Production :=
  match o with
  | A => mkProduction (quad H3 D [t_reverse]) (quad H5 D [t_reflect])
                     (quad H5 B [t_reverse]) (quad H1 C [t_reverse])
  | B => mkProduction (quad H1 D [t_reverse]) (quad H3 A [t_reverse])
                     (quad H5 A [t_reverse]) (quad H5 C [t_reflect])
  | C => mkProduction (quad H5 D [t_reverse]) (quad H1 A [t_reverse])
                     (quad H3 B [t_reverse]) (quad H5 B [t_reflect])
  | D => mkProduction (quad H5 C [t_reverse]) (quad H5 A [t_reflect])
                     (quad H1 B [t_reverse]) (quad H3 C [t_reverse])
  end.

(** The [switch] of [HilbertCurve::Build]; [H0] has no production, it is
    built by [BuildCurveH0]. *)
Definition production (t : CurveType) : option (Orientation -> Production) :=
  match t with
  | H0 => None
  | H1 => Some production1
  | H2 => Some production2
  | H3 => Some production3
  | H4 => Some production4
  | H5 => Some production5
  | H6 => Some production6
  | H7 => Some production7
  | H8 => Some production8
  | H9 => Some production9
  | H10 => Some production10
  | H11 => Some production11
  | H12 => Some production12
  | H13 => Some production13
  | H14 => Some production14
  | H15 => Some production15
  | H16 => Some production16
  | H17 => Some production17
  | H18 => Some production18
  | H19 => Some production19
  | H20 => Some production20
  | H21 => Some production21
  | H22 => Some production22
  | H23 => Some production23
  | H24 => Some production24
  | H25 => Some production25
  | H26 => Some production26
  | H27 => Some production27
  | H28 => Some production28
  | H29 => Some production29
  | H30 => Some production30
  | H31 => Some production31
  | H32 => Some production32
  | H33 => Some production33
  | H34 => Some production34
  | H35 => Some production35
  | H36 => Some production36
  | H37 => Some production37
  | H38 => Some production38
  | H39 => Some production39
  end.
Definition apply_call (hc : HilbertCurve) (t : Transform) : HilbertCurve :=
  match t with
  | t_reverse => reverse hc
  | t_reflect => reflect hc
  | t_reflectAndReverse => reflectAndReverse hc
  end.

(** The body shared by [BuildCurve1H] ... [BuildCurve39H].  [construct] is
    the constructor [HilbertCurve (width, height, type, coord, orientation)]
    used for the quadrants (its [differenceCurve] defaults to [false]). *)
Definition BuildCurveNH
    (construct : Z -> Z -> CurveType -> HPoint -> Orientation
                 -> option HilbertCurve)
    (prod : Orientation -> Production) (hc : HilbertCurve)
    : option HilbertCurve :=
  let w2 := width hc / 2 in
  let w1 := wrap (width hc - w2) in
  let h2 := height hc / 2 in
  let h1 := wrap (height hc - h2) in
  let c := coord (qs hc) in
  let pr := prod (oABCD (qs hc)) in
  let build (q : Quadrant) (w h : Z) (origin : HPoint) :=
    construct w h (q_type q) (HPoint_add c origin) (q_orientation q) in
  (* Principal 4 quasisquares *)
  c1 ← build (cuadrant1 pr) w1 h1 (HPoint_xy 0 0);
  c2 ← build (cuadrant2 pr) w1 h2 (HPoint_xy 0 h1);
  c3 ← build (cuadrant3 pr) w2 h2 (HPoint_xy w1 h1);
  c4 ← build (cuadrant4 pr) w2 h1 (HPoint_xy w1 0);
  let c1 := foldl apply_call c1 (q_calls (cuadrant1 pr)) in
  let c2 := foldl apply_call c2 (q_calls (cuadrant2 pr)) in
  let c3 := foldl apply_call c3 (q_calls (cuadrant3 pr)) in
  let c4 := foldl apply_call c4 (q_calls (cuadrant4 pr)) in
  Some (joinCurve hc c1 c2 c3 c4).

(** *** The difference map *)

(** [std::sort (first, last, comp)].  The standard fixes the result only up
    to the order of equivalent elements; the model is an insertion sort.
    [BuildDifference] sorts sequences whose keys are pairwise distinct, on
    which every sorting algorithm gives the same result.  ([operator<] of
    [HPoint] answers [true] on equal points, so it is an order only on
    sequences of distinct points.) *)
Fixpoint sort_insert {T} (comp : T -> T -> bool) (a : T) (l : list T) : list T :=
  match l with
  | [] => [a]
  | b :: l' => if comp b a then b :: sort_insert comp a l' else a :: l
  end.

Definition std_sort {T} (comp : T -> T -> bool) (l : list T) : list T :=
  foldr (sort_insert comp) [] l.

(** [uint ind = 0; for (auto &v : m_curve) v.index = ind++;] *)
Fixpoint assign_index (ind : Z) (l : list HPoint) : list HPoint :=
  match l with
  | [] => []
  | v :: l' => set_index v ind :: assign_index (wrap (ind + 1)) l'
  end.

(** [m_curve[pos].index] *)
Definition index_at (curve : list HPoint) (pos : Z) : option Z :=
  index <$> vec_get curve pos.

(** One of the eight guarded neighbour reads of [BuildDifference]:
    [if (cond) { dif += std::fabs (p - m_curve[pos].index); ++count; }] *)
Definition add_neighbour (curve : list HPoint) (p : hfloat) (cond : bool)
    (pos : Z) (acc : hfloat * Z) : option (hfloat * Z) :=
  if cond
  then q ← index_at curve pos;
       Some (hf_add (fst acc) (hf_fabs (hf_sub p (hf_of_Z q))), snd acc + 1)
  else Some acc.

(** The score [dif / count] of the raster cell [(i, j)].  [i], [j] and the
    positions computed from them are [size_type]; with [i < width] and
    [j < height] below [2^32] none of the 64-bit results wraps. *)
Definition cell_difference (curve : list HPoint) (width height i j : Z)
    : option hfloat :=
  c ← index_at curve (j * width + i);
  let p := hf_of_Z c in
  let w1 := wrap (width - 1) in
  let h1 := wrap (height - 1) in
  (* Right *)
  acc ← add_neighbour curve p (i <? w1) (j * width + i + 1) (hf_zero, 0);
  (* Left *)
  acc ← add_neighbour curve p (0 <? i) (j * width + i - 1) acc;
  (* Up *)
  acc ← add_neighbour curve p (j <? h1) ((j + 1) * width + i) acc;
  (* Down *)
  acc ← add_neighbour curve p (0 <? j) ((j - 1) * width + i) acc;
  (* Right Up *)
  acc ← add_neighbour curve p ((i <? w1) && (j <? h1))
          ((j + 1) * width + i + 1) acc;
  (* Left Up *)
  acc ← add_neighbour curve p ((0 <? i) && (j <? h1))
          ((j + 1) * width + i - 1) acc;
  (* Right Down *)
  acc ← add_neighbour curve p ((i <? w1) && (0 <? j))
          ((j - 1) * width + i + 1) acc;
  (* Left Down *)
  acc ← add_neighbour curve p ((0 <? i) && (0 <? j))
          ((j - 1) * width + i - 1) acc;
  Some (hf_div (fst acc) (hf_of_Z (snd acc))).

(** [delta = val - mean; mean = mean + delta / ++k;] *)
Definition running_mean (st : hfloat * Z) (val : hfloat) : hfloat * Z :=
  let '(mean, k) := st in
  let delta := hf_sub val mean in
  let k := k + 1 in
  (hf_add mean (hf_div delta (hf_of_Z k)), k).

(** The state of the two nested loops: the vector, the running [mean] and
    the counter [k]. *)
Definition diff_state : Type := list HPoint * (hfloat * Z).

(** The body of the inner loop for the cell [(i, j)]. *)
Definition difference_step (width height j : Z) (st : option diff_state)
    (i : Z) : option diff_state :=
  '(curve, (mean, k)) ← st;
  val ← cell_difference curve width height i j;
  c ← vec_get curve (j * width + i);
  curve ← vec_set curve (j * width + i) (set_difference c val);
  Some (curve, running_mean (mean, k) val).

Definition difference_row (width height : Z) (st : option diff_state)
    (j : Z) : option diff_state :=
  foldl (difference_step width height j) st (seqZ 0 width).

(** [HilbertCurve::BuildDifference] *)
Definition BuildDifference (hc : HilbertCurve) : option HilbertCurve :=
  let curve := assign_index 0 (m_curve hc) in
  let curve := std_sort HPoint_lt curve in
  '(curve, (mean, _)) ←
    foldl (difference_row (width hc) (height hc))
      (Some (curve, (hf_zero, 0))) (seqZ 0 (height hc));
  Some (mkHC (qs hc) (m_type hc) (std_sort indexCmp curve) mean).

(** *** The constructor *)

(** [HilbertCurve::HilbertCurve (width, height, type, coord, orientation,
    differenceCurve)] with [HilbertCurve::Build] inlined.  A curve of a type
    other than [H0] constructs the curves of its quadrants; the types of the
    quadrants lead to [H0] in at most two steps, and [fuel] counts the
    nested constructors. *)
Fixpoint HilbertCurve_new (fuel : nat) (width height : Z) (type : CurveType)
    (coord : HPoint) (orientation : Orientation) (differenceCurve : bool)
    : option HilbertCurve :=
  match fuel with
  | O => None
  | S fuel =>
      let this := mkHC (mkQS height width coord orientation) type [] hf_zero in
      this ←
        match production type with
        | None => set_curve this <$> BuildCurveH0 (qs this)
        | Some prod =>
            BuildCurveNH
              (fun w h t c o => HilbertCurve_new fuel w h t c o false)
              prod this
        end;
      if differenceCurve
      then reflectY <$> BuildDifference this
      else Some this
  end.

Definition HilbertCurve_fuel : nat := 3.

Definition new_HilbertCurve (width height : Z) (type : CurveType)
    (coord : HPoint) (orientation : Orientation) (differenceCurve : bool)
    : option HilbertCurve :=
  HilbertCurve_new HilbertCurve_fuel width height type coord orientation
    differenceCurve.

(** [HilbertCurve::createCurve] *)
Definition createCurve := new_HilbertCurve.

(** ** DataSequence ([src/datasequence.cpp]) *)

(** [*std::max_element (begin (), end ())]; dereferencing [end ()] of an
    empty sequence is undefined. *)
Definition DataSequence_max (data : list hfloat) : option hfloat :=
  match data with
  | [] => None
  | v :: rest =>
      Some (foldl (fun largest it => if hf_ltb largest it then it else largest)
                  v rest)
  end.

(** [*std::min_element (begin (), end ())] *)
Definition DataSequence_min (data : list hfloat) : option hfloat :=
  match data with
  | [] => None
  | v :: rest =>
      Some (foldl (fun smallest it => if hf_ltb it smallest then it else smallest)
                  v rest)
  end.

(** ** HilbertPlot ([src/hilbertplot.cpp]) *)

(** The outcome of a member function: a value, one of the exceptions of
    [hilbertdefines.h], or undefined behaviour. *)
Inductive HilbertException : Type :=
| HilbertBadAlloc | HilbertBadOrientation | HilbertBadOperation
| HilbertIndexOutOfRange | HilbertZeroDivision | HilbertBadSize.

Inductive outcome (T : Type) : Type :=
| Return (v : T)
| Throw (e : HilbertException)
| Undefined.
Arguments Return {T} v.
Arguments Throw {T} e.
Arguments Undefined {T}.

Definition bind_outcome {T U} (a : outcome T) (k : T -> outcome U) : outcome U :=
  match a with
  | Return v => k v
  | Throw e => Throw e
  | Undefined => Undefined
  end.

Definition of_option {T} (o : option T) : outcome T :=
  match o with Some v => Return v | None => Undefined end.

Notation "'do' v <- a ; k" := (bind_outcome a (fun v => k))
  (at level 10, v name, a at level 100, k at level 200).

(** [HilbertPlot::bestDimensions].  [std::sqrt] is applied to an integer
    below [2^32]; the conversion [hsize (sq)] and [std::floor (sq)] of the
    rounded root are the integer square root, and [std::ceil (sq)] is one
    more unless the argument is a perfect square, where the function has
    returned already.  The three differences are [unsigned] results
    converted by [int (...)]. *)
Definition bestDimensions (lenght : Z) : Z * Z :=
  let sq := Z.sqrt lenght in
  if wrap (sq * sq) =? lenght                     (* a perfect square *)
  then (sq, sq)
  else
    let f := sq in
    let c := sq + 1 in
    let min1 := Z.abs (to_int (wrap (lenght - wrap (f * f)))) in
    let min2 := Z.abs (to_int (wrap (lenght - wrap (c * c)))) in
    let min3 := Z.abs (to_int (wrap (lenght - wrap (f * c)))) in
    if min1 <? min2
    then (if min1 <? min3 then (f, f) else (c, f))
    else (if min2 <? min3 then (c, c) else (c, f)).

Record HilbertPlot : Type := mkPlot {
  curve : HilbertCurve;
  m_data : list hfloat;
  m_min : hfloat;
  m_max : hfloat;
  m_plotToCurve : list (list Z)
}.

(** [HilbertPlot::constructCurve]; it returns the curve with the width and
    the height it has settled (they are reference parameters). *)
Definition constructCurve (lenght width height : Z) (type : CurveType)
    : option (HilbertCurve * Z * Z) :=
  let '(width, height) :=
    if (width =? 0) || (height =? 0) then bestDimensions lenght
    else (width, height) in
  hc ← new_HilbertCurve width height type (HPoint_n 0) A true;
  Some (hc, width, height).

(** The two [while] loops of the constructor: [push_back (0)] up to
    [width * height], then [pop_back ()] down to it. *)
Definition resize_data (data : list hfloat) (size : Z) : list hfloat :=
  take (Z.to_nat size) data
  ++ replicate (Z.to_nat size - length data) hf_zero.

(** [m_plotToCurve[point->X ()][point->Y ()] = point->index] *)
Definition plot_set (table : list (list Z)) (p : HPoint) : option (list (list Z)) :=
  column ← vec_get table (x p);
  column ← vec_set column (y p) (index p);
  vec_set table (x p) column.

(** [HilbertPlot::HilbertPlot (data, width, height, type)] *)
Definition new_HilbertPlot (data : list hfloat) (width height : Z)
    (type : CurveType) : option HilbertPlot :=
  '(hc, width, height) ←
    constructCurve (wrap (Z.of_nat (length data))) width height type;
  let m_data := resize_data data (wrap (width * height)) in
  let table := replicate (Z.to_nat width) (replicate (Z.to_nat height) 0) in
  table ← foldl (fun t point => t ← t; plot_set t point) (Some table)
            (m_curve hc);
  '(m_min, m_max) ←
    (if (0 <? length m_data)%nat
     then mn ← DataSequence_min m_data;
          mx ← DataSequence_max m_data;
          Some (mn, mx)
     else Some (hf_zero, hf_zero));
  Some (mkPlot hc m_data m_min m_max table).

(** [m_plotToCurve[x][y]] *)
Definition plotToCurve (pl : HilbertPlot) (x y : Z) : outcome Z :=
  of_option (column ← vec_get (m_plotToCurve pl) x; vec_get column y).

(** [m_data.at (index)]: the checked access of [std::vector]; its
    [std::out_of_range] is never reached behind the tests that precede it. *)
Definition data_at (pl : HilbertPlot) (index : Z) : outcome hfloat :=
  of_option (vec_get (m_data pl) index).

Definition data_size (pl : HilbertPlot) : Z := Z.of_nat (length (m_data pl)).

(** [HilbertPlot::valueAt (index)] *)
Definition valueAt (pl : HilbertPlot) (index : Z) : outcome hfloat :=
  if data_size pl <=? index then Throw HilbertIndexOutOfRange
  else data_at pl index.

(** [HilbertPlot::valueAt (x, y)] *)
Definition valueAt_xy (pl : HilbertPlot) (x y : Z) : outcome hfloat :=
  if (width (curve pl) <=? x) || (height (curve pl) <=? y)
  then Throw HilbertIndexOutOfRange
  else
    do index <- plotToCurve pl x y;
    if data_size pl <=? index then Throw HilbertIndexOutOfRange
    else data_at pl index.

(** [HilbertPlot::valueNormalizedAt (index)] *)
Definition valueNormalizedAt (pl : HilbertPlot) (index : Z) : outcome hfloat :=
  if data_size pl <=? index then Throw HilbertIndexOutOfRange
  else
    do v <- data_at pl index;
    Return (hf_mul (hf_sub v (m_min pl))
              (if hf_eqb (m_min pl) (m_max pl) then hf_zero
               else hf_div hf_one (hf_sub (m_max pl) (m_min pl)))).

(** [HilbertPlot::valueNormalizedAt (x, y)] *)
Definition valueNormalizedAt_xy (pl : HilbertPlot) (x y : Z) : outcome hfloat :=
  if (width (curve pl) <=? x) || (height (curve pl) <=? y)
  then Throw HilbertIndexOutOfRange
  else
    do index <- plotToCurve pl x y;
    valueNormalizedAt pl index.

(** [HilbertPlot::indexOf] *)
Definition indexOf (pl : HilbertPlot) (x y : Z) : outcome Z :=
  if (width (curve pl) <=? x) || (height (curve pl) <=? y)
  then Throw HilbertIndexOutOfRange
  else plotToCurve pl x y.

(** [image[point->X ()][point->Y ()] = value] *)
Definition image_set (image : list (list hfloat)) (p : HPoint) (value : hfloat)
    : outcome (list (list hfloat)) :=
  of_option (column ← vec_get image (x p);
             column ← vec_set column (y p) value;
             vec_set image (x p) column).

(** [HilbertPlot::generateImage] *)
Definition generateImage (pl : HilbertPlot) (threshold : hfloat)
    : outcome (list (list hfloat)) :=
  let hc := curve pl in
  let image :=
    replicate (Z.to_nat (width hc)) (replicate (Z.to_nat (height hc)) hf_zero) in
  let minmax :=
    if hf_eqb (m_max pl) (m_min pl) then hf_zero
    else hf_div hf_one (hf_sub (m_max pl) (m_min pl)) in
  if hf_gtb threshold hf_zero
  then
    foldl (fun image point =>
             do image <- image;
             do v <- valueAt_xy pl (x point) (y point);
             let value := hf_mul (hf_sub v (m_min pl)) minmax in
             let value :=
               if hf_gtb (hf_div (difference point) (meanDifference hc)) threshold
               then Fin 2%Qc else value in
             image_set image point value)
          (Return image) (m_curve hc)
  else
    foldl (fun image point =>
             do image <- image;
             do v <- valueAt_xy pl (x point) (y point);
             let value := hf_mul v minmax in
             image_set image point value)
          (Return image) (m_curve hc).

(** *** The arithmetic of [double]

    The values of a [double] are rationals, the two infinities and NaN, and
    the comparisons of [hfloat] are exact on them.  What the model above
    leaves out is the rounding (and the overflow) of [+], [-], [*] and [/].
    Where a property depends on it the four operations are a parameter: an
    [arithmetic] gives the result of each of them.  [exact] is the
    arithmetic without rounding that the rest of the model uses, [binary64]
    the IEEE 754 double precision arithmetic of the machine. *)
Record arithmetic : Type := mkArithmetic {
  ar_add : hfloat -> hfloat -> hfloat;
  ar_sub : hfloat -> hfloat -> hfloat;
  ar_mul : hfloat -> hfloat -> hfloat;
  ar_div : hfloat -> hfloat -> hfloat
}.

Definition exact : arithmetic := mkArithmetic hf_add hf_sub hf_mul hf_div.

(** The value of a binary64 number, read off its sign, mantissa and
    exponent ([Prim2SF] of the Standard Library): [m * 2^e].  The sign of a
    zero is not kept. *)
Definition of_binary64 (f : PrimFloat.float) : hfloat :=
  match FloatOps.Prim2SF f with
  | SpecFloat.S754_zero _ => hf_zero
  | SpecFloat.S754_infinity s => Inf s
  | SpecFloat.S754_nan => NaN
  | SpecFloat.S754_finite s m e =>
      let z := if s then Z.neg m else Z.pos m in
      Fin (if 0 <=? e then Q2Qc (inject_Z (z * 2 ^ e))
           else Q2Qc (Qmake z (Z.to_pos (2 ^ (- e)))))
  end.

(** The same value: as [hf_eqb], but NaN is the same as NaN. *)
Definition hf_same (a b : hfloat) : bool :=
  match a, b with
  | Fin p, Fin q => Qc_eqb p q
  | Inf s, Inf t => Bool.eqb s t
  | NaN, NaN => true
  | _, _ => false
  end.

(** The binary64 number with the value [v], if there is one: for
    [v = a * 2^j / 2^k] with [a] odd the candidate is built from the
    mantissa [a] and the exponent [j - k], and it is returned only if its
    value is [v]. *)
Definition to_binary64 (v : hfloat) : option PrimFloat.float :=
  match v with
  | NaN => Some PrimFloat.nan
  | Inf s => Some (if s then PrimFloat.neg_infinity else PrimFloat.infinity)
  | Fin q =>
      let num := Qnum (this q) in
      let k := Z.log2 (Z.pos (Qden (this q))) in
      let a := Z.abs num in
      let j := Z.log2 (Z.land a (- a)) in
      let f :=
        if num =? 0 then PrimFloat.zero
        else FloatOps.SF2Prim
               (SpecFloat.S754_finite (num <? 0) (Z.to_pos (a / 2 ^ j))
                  (j - k)) in
      if hf_same (of_binary64 f) v then Some f else None
  end.

(** An operation of binary64 on the values of [hfloat]; operands that are
    no binary64 numbers do not occur in a [double] computation. *)
Definition binary64_op
    (op : PrimFloat.float -> PrimFloat.float -> PrimFloat.float)
    (a b : hfloat) : hfloat :=
  match to_binary64 a, to_binary64 b with
  | Some x, Some y => of_binary64 (op x y)
  | _, _ => NaN
  end.

Definition binary64 : arithmetic :=
  mkArithmetic (binary64_op PrimFloat.add) (binary64_op PrimFloat.sub)
    (binary64_op PrimFloat.mul) (binary64_op PrimFloat.div).

(** The update of the mean in [BuildDifference],
    [delta = val - mean; mean = mean + delta / ++k;], in an arithmetic;
    [running_mean] above is the same with [exact]. *)
Definition running_mean_in (ar : arithmetic) (st : hfloat * Z) (val : hfloat)
    : hfloat * Z :=
  let '(mean, k) := st in
  let delta := ar_sub ar val mean in
  let k := k + 1 in
  (ar_add ar mean (ar_div ar delta (hf_of_Z k)), k).

(** [HilbertPlot::replaceData], in the arithmetic [ar]:
    [minmax = 1.0 / (max - min)] and one [(val - min) * minmax] for each
    value of the data. *)
Definition replaceData (ar : arithmetic) (pl : HilbertPlot)
    (data : list hfloat) : outcome HilbertPlot :=
  if negb (length (m_data pl) =? length data)%nat
  then Throw HilbertBadSize
  else
    do max <- of_option (DataSequence_max data);
    do min <- of_option (DataSequence_min data);
    let minmax := ar_div ar hf_one (ar_sub ar max min) in
    let m_data := [] in                              (* m_data.clear () *)
    let m_data :=
      foldl (fun acc val => acc ++ [ar_mul ar (ar_sub ar val min) minmax])
            m_data data in
    Return (mkPlot (curve pl) m_data (m_min pl) (m_max pl) (m_plotToCurve pl)).

(** [HilbertPlot::replaceValueAt (index, value)] *)
Definition replaceValueAt (pl : HilbertPlot) (index : Z) (value : hfloat)
    : outcome HilbertPlot :=
  if data_size pl <=? index then Throw HilbertIndexOutOfRange
  else
    do data <- of_option (vec_set (m_data pl) index value);
    do mx <- of_option (DataSequence_max data);
    do mn <- of_option (DataSequence_min data);
    Return (mkPlot (curve pl) data mn mx (m_plotToCurve pl)).

(** *** The spectral transform *)

(** [std::numeric_limits<double>::min ()] is the smallest positive normal
    number [2^-1022]; [std::numeric_limits<double>::max ()] is
    [(2^53 - 1) * 2^971]. *)
Definition DBL_MIN : hfloat := Fin (Q2Qc (Qmake 1 (2 ^ 1022))).
Definition DBL_MAX : hfloat := Fin (Q2Qc (inject_Z ((2 ^ 53 - 1) * 2 ^ 971))).

(** The squared magnitude [c[0] * c[0] + c[1] * c[1]] of a bin. *)
Definition magnitude2 (c : hfloat * hfloat) : hfloat :=
  hf_add (hf_mul (fst c) (fst c)) (hf_mul (snd c) (snd c)).

(** The body of the loop that scans the half spectrum; the state is
    [(max, min, max2)]. *)
Definition scan_bin (st : hfloat * hfloat * hfloat) (v : hfloat)
    : hfloat * hfloat * hfloat :=
  let '(max, min, max2) := st in
  let max := if hf_ltb max v then v else max in
  let min := if hf_gtb min v then v else min in
  let max2 := if hf_ltb max2 v && hf_ltb v max then v else max2 in
  (max, min, max2).

Definition scan_bins (bins : list hfloat) : hfloat * hfloat * hfloat :=
  foldl scan_bin (DBL_MIN, DBL_MAX, DBL_MIN) bins.

(** The value written for a bin of squared magnitude [wdf] inside the loop
    over [x]. *)
Definition bin_value (log : hfloat -> hfloat) (logflag : bool)
    (max min max2 maxmin wdf : hfloat) : hfloat :=
  if negb logflag
  then
    let wdf := if hf_geb wdf max then max2 else wdf in
    hf_div (hf_sub wdf min) maxmin
  else
    let wdf := if hf_gtb wdf max2 then max2 else wdf in
    hf_div (log (hf_add (hf_sub wdf min) hf_one)) maxmin.

Section Fourier.

  (** The collaborators of [hpFourierTransform]: the transform of FFTW
      ([fftw_plan_dft_r2c_2d (height, width, ...)] and [fftw_execute]), from
      the [height * width] input to the half spectrum of
      [height * (width / 2 + 1)] complex bins, and [log]. *)
Variable fftw_dft_r2c_2d : Z -> Z -> list hfloat -> list (hfloat * hfloat).
Variable log : hfloat -> hfloat.

  (** The two loops that fill [datainput] in raster order. *)
Definition fourier_input (pl : HilbertPlot) (width height : Z)
      : outcome (list hfloat) :=
    foldl (fun acc y =>
             foldl (fun acc x =>
                      do input <- acc;
                      do val <- valueAt_xy pl x y;
                      Return (input ++ [val]))
                   acc (seqZ 0 width))
          (Return []) (seqZ 0 height).

  (** The body of the loop over [x] that arranges the output. *)
Definition arrange_bin (pl : HilbertPlot) (dataoutput : list (hfloat * hfloat))
      (logflag : bool) (max min max2 maxmin : hfloat) (w2 y : Z)
      (acc : outcome (list hfloat)) (x : Z) : outcome (list hfloat) :=
    do output <- acc;
    do index1 <- indexOf pl x y;
    do index2 <- indexOf pl (wrap (wrap (width (curve pl) - x) - 1)) y;
    do c <- of_option (vec_get dataoutput (wrap (wrap (y * wrap (w2 + 1)) + x)));
    let value := bin_value log logflag max min max2 maxmin (magnitude2 c) in
    do output <- of_option (vec_set output index2 value);
    of_option (vec_set output index1 value).

  (** The body of the loop over [y]: the loop over [x <= w2], then the
      statement that writes the first bin of the row at [indexOf (w2, y)]. *)
Definition arrange_row (pl : HilbertPlot) (dataoutput : list (hfloat * hfloat))
      (logflag : bool) (max min max2 maxmin : hfloat) (w2 : Z)
      (acc : outcome (list hfloat)) (y : Z) : outcome (list hfloat) :=
    do output <-
      foldl (arrange_bin pl dataoutput logflag max min max2 maxmin w2 y)
            acc (seqZ 0 (w2 + 1));
    do c <- of_option (vec_get dataoutput (wrap (y * wrap (w2 + 1))));
    let wdf := magnitude2 c in
    if negb logflag
    then
      let wdf := if hf_geb wdf max then max2 else wdf in
      do index <- indexOf pl w2 y;
      of_option (vec_set output index (hf_div (hf_sub wdf min) maxmin))
    else
      let wdf := if hf_gtb wdf max2 then max2 else wdf in
      if hf_gtb (hf_sub wdf min) hf_zero
      then
        do index <- indexOf pl w2 y;
        of_option (vec_set output index (hf_div (log (hf_sub wdf min)) maxmin))
      else Return output.

  (** [HilbertPlot::hpFourierTransform] *)
Definition hpFourierTransform (pl : HilbertPlot) (logflag : bool)
      : outcome (list hfloat) :=
    if (length (m_data pl) =? 0)%nat then Throw HilbertBadOperation
    else
      let width := width (curve pl) in
      let height := height (curve pl) in
      let data_size := wrap (width * height) in
      let w2 := width / 2 in
      let data_size2 := wrap (height * wrap (w2 + 1)) in
      do datainput <- fourier_input pl width height;
      let dataoutput := fftw_dft_r2c_2d height width datainput in
      let output := replicate (Z.to_nat data_size) hf_zero in
      do bins <-
        foldl (fun acc i =>
                 do bins <- acc;
                 do c <- of_option (vec_get dataoutput i);
                 Return (bins ++ [magnitude2 c]))
              (Return []) (seqZ 0 data_size2);
      let '(max, min, max2) := scan_bins bins in
      let maxmin := hf_sub max2 min in
      let maxmin := if logflag then log maxmin else maxmin in
      foldl (arrange_row pl dataoutput logflag max min max2 maxmin w2)
            (Return output) (seqZ 0 height).

End Fourier.

(** * The vocabulary of the properties *)

(** The half spectrum of a real input of two rows and two columns, as
    [fftw_plan_dft_r2c_2d (2, 2, ...)] lays it out: the bins of frequency
    [(0,0)], [(0,1)], [(1,0)] and [(1,1)], all of them real. *)
Definition dft_r2c_2x2 (height width : Z) (input : list hfloat)
    : list (hfloat * hfloat) :=
  match input with
  | [a; b; c; d] =>
      [ (hf_add (hf_add a b) (hf_add c d), hf_zero);
        (hf_add (hf_sub a b) (hf_sub c d), hf_zero);
        (hf_sub (hf_add a b) (hf_add c d), hf_zero);
        (hf_sub (hf_sub a b) (hf_sub c d), hf_zero) ]
  | _ => []
  end.

(** The padding waste of the dimensions [dim] for a sequence of length
    [lenght]. *)
Definition waste (lenght : Z) (dim : Z * Z) : Z :=
  Z.abs (lenght - fst dim * snd dim).

(** The cells of a region: [m] columns from [coord.x], [n] rows from
    [coord.y]. *)
Definition in_region (q : QuasiSquare) (px py : Z) : Prop :=
  x (coord q) <= px < x (coord q) + m q /\ y (coord q) <= py < y (coord q) + n q.

#[global] Instance in_region_dec q px py : Decision (in_region q px py).
Proof. unfold in_region. apply _. Defined.

Definition area (q : QuasiSquare) : Z := n q * m q.

(** The cells of a region in raster order (row after row). *)
Definition cells (q : QuasiSquare) : list (Z * Z) :=
  b ← seqZ (y (coord q)) (n q); a ← seqZ (x (coord q)) (m q); [(a, b)].

(** A region whose cells have coordinates that fit [hint]. *)
Definition qs_ok (q : QuasiSquare) : Prop :=
  0 <= n q /\ 0 <= m q /\ 0 <= x (coord q) /\ 0 <= y (coord q) /\
  x (coord q) + m q < UINT_RANGE /\ y (coord q) + n q < UINT_RANGE.

(** [l] with the slots [i .. i + length pts - 1] overwritten by [pts]. *)
Definition splice {T} (l : list T) (i : Z) (pts : list T) : list T :=
  take (Z.to_nat i) l ++ pts ++ drop (Z.to_nat i + length pts) l.

(** The number of constructors nested under the constructor of a curve. *)
Definition rank (t : CurveType) : nat :=
  match t with
  | H0 => 0
  | H1 | H2 | H3 | H4 | H5 => 1
  | _ => 2
  end.

Definition manhattan (p q : Z * Z) : Z :=
  Z.abs (fst p - fst q) + Z.abs (snd p - snd q).

(** Consecutive points of a sequence are one step apart. *)
Definition unit_steps (l : list HPoint) : Prop :=
  forall (i : nat) (p q : HPoint),
    l !! i = Some p -> l !! S i = Some q -> manhattan (coords p) (coords q) = 1.

(** The executable form of [unit_steps]. *)
Fixpoint unit_stepsb (l : list HPoint) : bool :=
  match l with
  | p :: rest =>
      match rest with
      | q :: _ => (manhattan (coords p) (coords q) =? 1) && unit_stepsb rest
      | [] => true
      end
  | [] => true
  end.

(** The coordinates of a sequence of points are a bijection onto the grid
    [{0..w-1} x {0..h-1}]: as many points as cells, no coordinate pair
    twice, and exactly the pairs of the grid. *)
Definition grid_bijection (l : list HPoint) (w h : Z) : Prop :=
  Z.of_nat (length l) = w * h /\
  NoDup (map coords l) /\
  forall a b : Z, (a, b) ∈ map coords l <-> 0 <= a < w /\ 0 <= b < h.

Definition all_types : list CurveType :=
  [H0; H1; H2; H3; H4; H5; H6; H7; H8; H9;
   H10; H11; H12; H13; H14; H15; H16; H17; H18; H19;
   H20; H21; H22; H23; H24; H25; H26; H27; H28; H29;
   H30; H31; H32; H33; H34; H35; H36; H37; H38; H39].

Definition all_orientations : list Orientation := [A; B; C; D].

(** The parity correction in the words of the specification: the halves
    [k1 = k / 2] and [k2 = k - k1]; for the orientations [A] and [B] they are
    swapped when [k1] is odd, for [C] and [D] when [k2] is odd. *)
Definition corrected_halves (o : Orientation) (k : Z) : Z * Z :=
  let k1 := k / 2 in
  let k2 := k - k1 in
  match o with
  | A | B => if Z.odd k1 then (k2, k1) else (k1, k2)
  | C | D => if Z.odd k2 then (k2, k1) else (k1, k2)
  end.

(** The points of a curve visit every cell of its region exactly once. *)
Definition curve_fills (hc : HilbertCurve) : Prop :=
  map coords (m_curve hc) ≡ₚ cells (qs hc).

(** *** The difference map, in the words of the specification *)

(** The traversal index of the cell [c]: the position in the sequence of the
    point that lies on [c]. *)
Fixpoint traversal_index_from (k : Z) (l : list HPoint) (c : Z * Z) : Z :=
  match l with
  | [] => k
  | p :: l' =>
      if decide (coords p = c) then k else traversal_index_from (k + 1) l' c
  end.

Definition traversal_index (l : list HPoint) (c : Z * Z) : Z :=
  traversal_index_from 0 l c.

(** The neighbours of a cell that exist in the region, out of the eight
    around it: right, left, up, down and the four diagonals. *)
Definition neighbours (q : QuasiSquare) (c : Z * Z) : list (Z * Z) :=
  let '(a, b) := c in
  filter (fun c' => in_region q (fst c') (snd c'))
    [(a + 1, b); (a - 1, b); (a, b + 1); (a, b - 1);
     (a + 1, b + 1); (a - 1, b + 1); (a + 1, b - 1); (a - 1, b - 1)].

Definition sum_Z (l : list Z) : Z := foldr Z.add 0 l.

(** The discontinuity score of the cell [c]: the sum of the absolute
    differences between its traversal index and the traversal index of each
    neighbour that exists, divided by the number of those neighbours. *)
Definition discontinuity_score (q : QuasiSquare) (l : list HPoint)
    (c : Z * Z) : hfloat :=
  let k := traversal_index l c in
  let nb := neighbours q c in
  hf_div
    (hf_of_Z (sum_Z (map (fun c' => Z.abs (k - traversal_index l c')) nb)))
    (hf_of_Z (Z.of_nat (length nb))).

Definition hf_sum (l : list hfloat) : hfloat := foldr hf_add hf_zero l.

(** The arithmetic mean of a sequence of values. *)
Definition arithmetic_mean (l : list hfloat) : hfloat :=
  hf_div (hf_sum l) (hf_of_Z (Z.of_nat (length l))).

(** The order that a key induces on the elements of a sequence. *)
Definition key_le {T} (key : T -> Z) (a b : T) : Prop := key a <= key b.

(** The vector of [BuildDifference] once the loops have passed the first
    [k] raster cells: the scores [sc] are stored in these cells. *)
Definition scored (sc : nat -> hfloat) (k : nat) (l : list HPoint) : list HPoint :=
  imap (fun pos p => if (pos <? k)%nat then set_difference p (sc pos) else p) l.

(** The key by which [operator<] of [HPoint] sorts: rows first. *)
Definition raster_key (c : Z * Z) : Z := snd c * UINT_RANGE + fst c.

Definition is_hpoint (p : HPoint) : Prop := is_hint (x p) /\ is_hint (y p).

(** A value that is a number or NaN. *)
Definition not_infinite (v : hfloat) : Prop :=
  match v with Inf _ => False | _ => True end.

(** The score of the raster cell number [pos] of a region. *)
Definition raster_score (q : QuasiSquare) (l : list HPoint) (pos : nat) : hfloat :=
  match cells q !! pos with
  | Some c => discontinuity_score q l c
  | None => hf_zero
  end.

(** The state of the loops of [BuildDifference] after [k] raster cells,
    given the sorted vector [sorted] the loops start from. *)
Definition difference_state_at (q : QuasiSquare) (l sorted : list HPoint)
    (k : Z) : diff_state :=
  (scored (raster_score q l) (Z.to_nat k) sorted,
   foldl running_mean (hf_zero, 0)
     (map (raster_score q l) (seq 0 (Z.to_nat k)))).

(** A point of the original curve once [BuildDifference] is through with
    it: its position as index, the score of its cell as difference. *)
Definition with_difference (q : QuasiSquare) (l : list HPoint) (k : nat)
    (p : HPoint) : HPoint :=
  mkHPoint (x p) (y p) (discontinuity_score q l (coords p)) (Z.of_nat k).

(** *** Two small objects

    The curve of type [H0] on the square of side 2, as [BuildCurve] lays it
    out in the orientation [A], and a plot of four values over it. *)
Definition curve_2x2 : HilbertCurve :=
  mkHC (mkQS 2 2 (HPoint_n 0) A) H0
    [HPoint_xy 0 0; HPoint_xy 0 1; HPoint_xy 1 1; HPoint_xy 1 0] hf_zero.

Definition plot_2x2 : HilbertPlot :=
  mkPlot curve_2x2 (map hf_of_Z [3; 1; 4; 1]) (hf_of_Z 1) (hf_of_Z 4)
    [[0; 1]; [3; 2]].

(** The curve of type [H6] on the grid of width 7 and height 1, as the
    constructor lays it out in the orientation [A]. *)
Definition curve_7x1 : HilbertCurve :=
  mkHC (mkQS 1 7 (HPoint_n 0) A) H6
    [HPoint_xy 3 0; HPoint_xy 2 0; HPoint_xy 0 0; HPoint_xy 1 0;
     HPoint_xy 5 0; HPoint_xy 6 0; HPoint_xy 4 0] hf_zero.

(** *** The ends of a curve on a square of side [2^r * u]

    On a square whose side is [2^r] times the side [u] of the squares that
    the curves of type [H0] fill at the bottom of the grammar, a curve
    starts and ends on cells whose offsets from the origin of the square
    are of the form [a * u - b].  The offsets are computed from the
    productions, and so is the test that the curves of the quadrants meet:
    the exit of one and the entry of the next are one step apart for every
    [u] when their multiples of [u] agree and their constants differ by a
    step. *)

(** The offset [a * u - b] on each axis. *)
Record Place : Type := mkPlace {
  x_units : Z; x_back : Z;
  y_units : Z; y_back : Z
}.

Definition place_cell (c : HPoint) (u : Z) (p : Place) : Z * Z :=
  (x c + (x_units p * u - x_back p), y c + (y_units p * u - y_back p)).

(** The corner of a square of side [2^r * u]: [right] and [top] choose it. *)
Definition corner (r : nat) (right top : bool) : Place :=
  mkPlace (if right then 2 ^ Z.of_nat r else 0) (if right then 1 else 0)
          (if top then 2 ^ Z.of_nat r else 0) (if top then 1 else 0).

(** Where [BuildCurve] starts and where it ends on a square. *)
Definition H0_ends (r : nat) (o : Orientation) : Place * Place :=
  match o with
  | A => (corner r false false, corner r true false)
  | B => (corner r false false, corner r false true)
  | C => (corner r true true, corner r false true)
  | D => (corner r true true, corner r true false)
  end.

Definition mirror_x (r : nat) (p : Place) : Place :=
  mkPlace (2 ^ Z.of_nat r - x_units p) (1 - x_back p) (y_units p) (y_back p).

Definition mirror_y (r : nat) (p : Place) : Place :=
  mkPlace (x_units p) (x_back p) (2 ^ Z.of_nat r - y_units p) (1 - y_back p).

(** The ends after one of the calls made on the curve of a quadrant, whose
    orientation is [o]. *)
Definition transform_ends (r : nat) (o : Orientation) (e : Place * Place)
    (t : Transform) : Place * Place :=
  let mirror := match o with A | C => mirror_x r | B | D => mirror_y r end in
  match t with
  | t_reverse => (snd e, fst e)
  | t_reflect => (mirror (fst e), mirror (snd e))
  | t_reflectAndReverse => (mirror (snd e), mirror (fst e))
  end.

(** The ends of the curve of a quadrant seen from the parent: the quadrant
    lies [qx] squares to the right and [qy] squares up. *)
Definition shift_place (r : nat) (qx qy : Z) (p : Place) : Place :=
  mkPlace (qx * 2 ^ Z.of_nat r + x_units p) (x_back p)
          (qy * 2 ^ Z.of_nat r + y_units p) (y_back p).

Definition shift_ends (r : nat) (qx qy : Z) (e : Place * Place) : Place * Place :=
  (shift_place r qx qy (fst e), shift_place r qx qy (snd e)).

(** Two places are one step apart, whatever [u] is. *)
Definition junction (p q : Place) : bool :=
  (x_units p =? x_units q) && (y_units p =? y_units q) &&
  (Z.abs (x_back p - x_back q) + Z.abs (y_back p - y_back q) =? 1).

(** The ends of four curves joined in this order, if they meet. *)
Definition join_ends (e1 e2 e3 e4 : Place * Place) : option (Place * Place) :=
  if junction (snd e1) (fst e2) && junction (snd e2) (fst e3)
     && junction (snd e3) (fst e4)
  then Some (fst e1, snd e4) else None.

(** The ends of the curve of type [t] and orientation [o] on a square of
    side [2^r * u], if the curves it is made of meet at every level. *)
Fixpoint curve_ends (r : nat) (t : CurveType) (o : Orientation)
    : option (Place * Place) :=
  match production t with
  | None => Some (H0_ends r o)
  | Some prod =>
      match r with
      | O => None
      | S r' =>
          let ends_of (q : Quadrant) (qx qy : Z) :=
            e ← curve_ends r' (q_type q) (q_orientation q);
            Some (shift_ends r' qx qy
                    (foldl (transform_ends r' (q_orientation q)) e (q_calls q))) in
          e1 ← ends_of (cuadrant1 (prod o)) 0 0;
          e2 ← ends_of (cuadrant2 (prod o)) 0 1;
          e3 ← ends_of (cuadrant3 (prod o)) 1 1;
          e4 ← ends_of (cuadrant4 (prod o)) 1 0;
          match o with
          | A => join_ends e1 e2 e3 e4
          | B => join_ends e1 e4 e3 e2
          | C => join_ends e3 e4 e1 e2
          | D => join_ends e3 e2 e1 e4
          end
      end
  end.

(** A sequence of points starts and ends on the cells that [e] names. *)
Definition ends_at (l : list HPoint) (c : HPoint) (u : Z) (e : Place * Place)
    : Prop :=
  (exists p, head l = Some p /\ coords p = place_cell c u (fst e)) /\
  (exists p, last l = Some p /\ coords p = place_cell c u (snd e)).

(** * The rest of the interface *)

(** ** HPoint: the other operators ([src/hpoint.cpp]) *)

(** [HPoint::operator-=] followed by the copy of [HPoint::operator-] *)
Definition HPoint_sub (p q : HPoint) : HPoint :=
  mkHPoint (wrap (x p - x q)) (wrap (y p - y q)) (difference p) (index p).

(** [operator==(p1, p2)] *)
Definition HPoint_eq (p1 p2 : HPoint) : bool :=
  (x p1 =? x p2) && (y p1 =? y p2).

(** [operator>=(p1, p2)]: [!(p2 > p1)] *)
Definition HPoint_ge (p1 p2 : HPoint) : bool := negb (HPoint_gt p2 p1).

(** [operator<=(p1, p2)]: [!(p2 < p1)] *)
Definition HPoint_le (p1 p2 : HPoint) : bool := negb (HPoint_lt p2 p1).

(** ** DataSequence: the operators and the statistics
    ([src/datasequence.cpp]) *)

(** A [bool] pushed into a sequence of [hfloat]. *)
Definition hf_of_bool (b : bool) : hfloat := if b then hf_one else hf_zero.

(** The loop shared by the operators on two sequences:
    [for (i = 0; i < size (); ++i)] with one [push_back] per round, of the
    element alone ([missing]) where [d] has ended ([i >= d.size ()]) and of
    [op (this->at (i), d[i])] otherwise. *)
Definition DataSequence_zip (op : hfloat -> hfloat -> hfloat)
    (missing : hfloat -> hfloat) (this d : list hfloat) : list hfloat :=
  imap (fun i v => match d !! i with
                   | Some w => op v w
                   | None => missing v
                   end) this.

(** [DataSequence::operator* (const DataSequence &)] *)
Definition DataSequence_mul : list hfloat -> list hfloat -> list hfloat :=
  DataSequence_zip hf_mul id.

(** [DataSequence::operator/ (const DataSequence &)]: the loop leaves with
    [HilbertZeroDivision] at the first [d[i] == 0]; what it pushes is
    [this->at (i) * d[i]]. *)
Definition DataSequence_div (this d : list hfloat) : outcome (list hfloat) :=
  foldl (fun acc iv =>
           do newData <- acc;
           match d !! fst iv with
           | None => Return (newData ++ [snd iv])
           | Some w =>
               if hf_eqb w hf_zero then Throw HilbertZeroDivision
               else Return (newData ++ [hf_mul (snd iv) w])
           end)
        (Return []) (imap pair this).

(** [DataSequence::operator== (const DataSequence &)] *)
Definition DataSequence_eq : list hfloat -> list hfloat -> list hfloat :=
  DataSequence_zip (fun v w => hf_of_bool (hf_eqb v w)) (fun _ => hf_zero).

(** [DataSequence::hammingDistance]: [val = 0], and [val = 1] where
    [i < d.size ()] and [this->at (i) == d[i]]. *)
Definition hammingDistance (this d : list hfloat) : list hfloat :=
  imap (fun i v =>
          let val := hf_zero in
          match d !! i with
          | Some w => if hf_eqb v w then hf_one else val
          | None => val
          end) this.

(** The conversion of a [double] to [int]: the fraction is dropped; a value
    that [int] cannot hold, an infinity or NaN is undefined behaviour. *)
Definition hf_to_int (v : hfloat) : option Z :=
  match v with
  | Fin q =>
      let z := Z.quot (Qnum (this q)) (Zpos (Qden (this q))) in
      if (- 2 ^ 31 <=? z) && (z <? 2 ^ 31) then Some z else None
  | _ => None
  end.

(** [std::accumulate (begin (), end (), 0)]: the initial value [0] is an
    [int], so the accumulator is an [int] and every [init = init + *it]
    converts the sum back to [int]. *)
Definition accumulate_int (data : list hfloat) : option Z :=
  foldl (fun acc v => init ← acc; hf_to_int (hf_add (hf_of_Z init) v))
        (Some 0) data.

(** [DataSequence::mean] *)
Definition DataSequence_mean (data : list hfloat) : option hfloat :=
  if (length data =? 0)%nat then Some hf_zero
  else sum ← accumulate_int data;
       Some (hf_div (hf_of_Z sum) (hf_of_Z (Z.of_nat (length data)))).

(** The first loop of [DataSequence::granularity]: while [n] elements are
    left ([it < end () - (n - 1)]) their mean is pushed [n] times; the
    elements that are left then are pushed as they are.  Each round moves
    [it] by [n >= 1], and [fuel] counts the rounds. *)
Fixpoint granularity_loop (fuel n : nat) (it result : list hfloat)
    : option (list hfloat) :=
  match fuel with
  | O => None
  | S fuel =>
      if (n <=? length it)%nat
      then
        let sum := foldl hf_add hf_zero (take n it) in
        let sum := hf_div sum (hf_of_Z (Z.of_nat n)) in
        granularity_loop fuel n (drop n it) (result ++ replicate n sum)
      else Some (result ++ it)
  end.

(** [DataSequence::granularity (uint n)] *)
Definition granularity (this : list hfloat) (n : Z) : option (list hfloat) :=
  if (length this =? 0)%nat then Some this
  else if (Z.of_nat (length this) / 2 <? n) || (n =? 0) then Some this
  else granularity_loop (S (length this)) (Z.to_nat n) this [].

(** ** HilbertPlot: the other accessors ([src/hilbertplot.cpp]) *)

(** [HilbertPlot::replaceValueAt (x, y, value)] *)
Definition replaceValueAt_xy (pl : HilbertPlot) (x y : Z) (value : hfloat)
    : outcome HilbertPlot :=
  if (width (curve pl) <=? x) || (height (curve pl) <=? y)
  then Throw HilbertIndexOutOfRange
  else
    do index <- plotToCurve pl x y;
    replaceValueAt pl index value.

(** What an access to a point of the curve gives: the point, an exception
    of the library, the [std::out_of_range] of [std::vector::at], or
    undefined behaviour. *)
Inductive access (T : Type) : Type :=
| Found (v : T)
| Raised (e : HilbertException)
| StdOutOfRange
| AccessUndefined.
Arguments Found {T} v.
Arguments Raised {T} e.
Arguments StdOutOfRange {T}.
Arguments AccessUndefined {T}.

(** [HilbertCurve::operator[] (index)]: [m_curve.at (index)] *)
Definition HilbertCurve_at (hc : HilbertCurve) (index : Z) : access HPoint :=
  if (0 <=? index) && (index <? Z.of_nat (length (m_curve hc)))
  then match m_curve hc !! Z.to_nat index with
       | Some p => Found p
       | None => StdOutOfRange
       end
  else StdOutOfRange.

(** [HilbertPlot::operator[] (index)] and [HilbertPlot::at (index)] *)
Definition HilbertPlot_at (pl : HilbertPlot) (index : Z) : access HPoint :=
  if lenght (curve pl) <=? index then Raised HilbertIndexOutOfRange
  else HilbertCurve_at (curve pl) index.

(** [HilbertPlot::at (x, y)]: the entry of the table goes through an [int]
    ([int index = m_plotToCurve[x][y]]) before it is converted to the
    [size_type] that [operator[]] takes. *)
Definition HilbertPlot_at_xy (pl : HilbertPlot) (x y : Z) : access HPoint :=
  if (width (curve pl) <=? x) || (height (curve pl) <=? y)
  then Raised HilbertIndexOutOfRange
  else
    match plotToCurve pl x y with
    | Return entry =>
        let index := to_int entry in
        let index := if index <? 0 then 2 ^ 64 + index else index in
        HilbertCurve_at (curve pl) index
    | Throw e => Raised e
    | Undefined => AccessUndefined
    end.

(** ** The calls of [BuildCurve] and the thread pool
    ([src/hilbertcurve.cpp], [threads_utility.h]) *)

(** A task of the pool: the bound call
    [std::bind (&QuasiSquare::BuildCurve, qs, std::ref (coordinates_list),
    index)]. *)
Abbreviation task := (QuasiSquare * Z)%type.

(** The body of the loop over the four children in [BuildCurve], for the
    child number [i]: the call for the child is pushed to the queue of the
    pool ([push_task], at the back) when [i < 2] and run otherwise; then
    [index += qs.n * qs.m].  [call] is the call that is run. *)
Definition push_or_run
    (call : QuasiSquare -> list HPoint -> Z -> list task
            -> option (list HPoint * list task))
    (st : option (list HPoint * Z * list task)) (child : nat * QuasiSquare)
    : option (list HPoint * Z * list task) :=
  '(l, index, queue) ← st;
  let '(i, qs) := child in
  '(l, queue) ←
    (if (i <? 2)%nat then Some (l, queue ++ [(qs, index)])
     else call qs l index queue);
  Some (l, wrap (index + wrap (n qs * m qs)), queue).

(** [QuasiSquare::BuildCurve] as one call runs it: the vector and the queue
    of the pool at the return of the call.  The calls for the first two
    children are in the queue then and have not run. *)
Fixpoint BuildCurve_call (fuel : nat) (qs : QuasiSquare)
    (coordinates_list : list HPoint) (index : Z) (queue : list task)
    : option (list HPoint * list task) :=
  match fuel with
  | O => None
  | S fuel =>
      '(l, index, queue) ←
        (if (2 <? n qs) || (2 <? m qs)
         then foldl (push_or_run (BuildCurve_call fuel))
                (Some (coordinates_list, index, queue))
                (imap pair (rev (Partition qs)))
         else Some (coordinates_list, index, queue));
      l ← write_primitive qs l index;
      Some (l, queue)
  end.

(** [thread_pool::run_task] with work in the queue: a task is taken out of
    the queue and run.  The threads of the pool and the drain loop all take
    the front of the queue, each when it is free; which of the queued tasks
    is the next to run therefore depends on the threads, and [pick] decides
    it here.  The tasks are run one after another: two tasks that run at the
    same time write different slots of the vector. *)
Definition run_task (pick : nat) (st : list HPoint * list task)
    : option (list HPoint * list task) :=
  let '(l, queue) := st in
  let k := (pick mod length queue)%nat in
  match queue !! k with
  | Some (qs, index) =>
      BuildCurve_call (BuildCurve_fuel qs) qs l index (delete k queue)
  | None => Some st
  end.

(** [while (thread_pool::instance ().isWorking ()) run_task ();]: the drain
    of [BuildCurveH0], for the choices [schedule] of the tasks; [None] when
    the schedule ends before the queue is empty. *)
Fixpoint drain (schedule : list nat) (st : list HPoint * list task)
    : option (list HPoint) :=
  match snd st with
  | [] => Some (fst st)
  | _ :: _ =>
      match schedule with
      | [] => None
      | pick :: schedule => st ← run_task pick st; drain schedule st
      end
  end.

(** The slots of a task: [index .. index + n * m - 1]. *)
Definition in_task (t : task) (k : nat) : Prop :=
  snd t <= Z.of_nat k < snd t + area (fst t).

(** A slot that a queued task has still to write. *)
Definition covered (queue : list task) (k : nat) : Prop :=
  exists t, t ∈ queue /\ in_task t k.

(** A number of rounds of [run_task] that drains the pool after the call
    for a region, whatever the schedule. *)
Definition pool_rounds (qs : QuasiSquare) : nat :=
  4 ^ Z.to_nat (n qs + m qs).

(** ** [generateImage] in the arithmetic of the machine ([hilbertplot.cpp]) *)

(** [HilbertPlot::generateImage] with the arithmetic of [hfloat] as a
    parameter: the quotient [point->DifferenceValue () / meanDifference ()]
    that is compared with the threshold, and the scaled value, are those of
    [ar].  [generateImage] is [generateImage_in exact]. *)
Definition generateImage_in (ar : arithmetic) (pl : HilbertPlot)
    (threshold : hfloat) : outcome (list (list hfloat)) :=
  let hc := curve pl in
  let image :=
    replicate (Z.to_nat (width hc)) (replicate (Z.to_nat (height hc)) hf_zero) in
  let minmax :=
    if hf_eqb (m_max pl) (m_min pl) then hf_zero
    else ar_div ar hf_one (ar_sub ar (m_max pl) (m_min pl)) in
  if hf_gtb threshold hf_zero
  then
    foldl (fun image point =>
             do image <- image;
             do v <- valueAt_xy pl (x point) (y point);
             let value := ar_mul ar (ar_sub ar v (m_min pl)) minmax in
             let value :=
               if hf_gtb (ar_div ar (difference point) (meanDifference hc))
                         threshold
               then Fin 2%Qc else value in
             image_set image point value)
          (Return image) (m_curve hc)
  else
    foldl (fun image point =>
             do image <- image;
             do v <- valueAt_xy pl (x point) (y point);
             let value := ar_mul ar v minmax in
             image_set image point value)
          (Return image) (m_curve hc).

(** What the members of a plot have in common after the constructor: the
    points of the curve lie on the cells of the grid, one on each; there is
    a value for each point; and [m_plotToCurve] holds for the cell of a
    point its position on the curve.  The difference values of the points
    and the mean difference of the curve are not constrained. *)
Definition plot_invariant (pl : HilbertPlot) : Prop :=
  0 <= width (curve pl) /\ 0 <= height (curve pl) /\
  grid_bijection (m_curve (curve pl)) (width (curve pl)) (height (curve pl)) /\
  data_size pl = width (curve pl) * height (curve pl) /\
  forall (i : nat) p,
    m_curve (curve pl) !! i = Some p ->
    plotToCurve pl (x p) (y p) = Return (Z.of_nat i).

(** * Properties *)

(** ** Machine integers *)

Lemma UINT_RANGE_eq : UINT_RANGE = 4294967296.
Proof. reflexivity. Qed.

Lemma wrap_small z : 0 <= z < UINT_RANGE -> wrap z = z.
Proof. intros. unfold wrap. apply Z.mod_small. lia. Qed.

Lemma wrap_range z : 0 <= wrap z < UINT_RANGE.
Proof. unfold wrap. apply Z.mod_pos_bound. rewrite UINT_RANGE_eq. lia. Qed.

Lemma wrap_wrap z : wrap (wrap z) = wrap z.
Proof. unfold wrap. apply Z.mod_mod. rewrite UINT_RANGE_eq. lia. Qed.

Lemma wrap_add_l a b : wrap (wrap a + b) = wrap (a + b).
Proof. unfold wrap. apply Zplus_mod_idemp_l. Qed.

Lemma wrap_add_r a b : wrap (a + wrap b) = wrap (a + b).
Proof. unfold wrap. apply Zplus_mod_idemp_r. Qed.

Lemma wrap_sub_l a b : wrap (wrap a - b) = wrap (a - b).
Proof. unfold wrap. apply Zminus_mod_idemp_l. Qed.

Lemma wrap_sub_r a b : wrap (a - wrap b) = wrap (a - b).
Proof. unfold wrap. apply Zminus_mod_idemp_r. Qed.

Global Opaque UINT_RANGE.

Lemma map_fmap {T U} (f : T -> U) (l : list T) : map f l = f <$> l.
Proof. induction l; simpl; by f_equal. Qed.

(** ** Vectors *)

Section vectors.
Context {T : Type}.
  Implicit Types (l pts : list T) (i : Z).

Lemma length_splice l i pts :
    0 <= i -> i + Z.of_nat (length pts) <= Z.of_nat (length l) ->
    length (splice l i pts) = length l.
  Proof.
    intros. unfold splice. rewrite !length_app, length_take, length_drop. lia.
  Qed.

Lemma splice_nil l i : splice l i [] = l.
  Proof.
    unfold splice. simpl. rewrite Nat.add_0_r. apply take_drop.
  Qed.

Lemma vec_set_splice l i p :
    0 <= i < Z.of_nat (length l) ->
    vec_set l i p = Some (splice l i [p]).
  Proof.
    intros Hi. unfold vec_set, splice. rewrite decide_True by done.
    f_equal. simpl.
    rewrite insert_take_drop by lia.
    by replace (Z.to_nat i + 1)%nat with (S (Z.to_nat i)) by lia.
  Qed.

  (** Writing [q] right behind [pts] extends the overwritten block. *)
Lemma splice_splice l i pts qts :
    0 <= i ->
    i + Z.of_nat (length pts) + Z.of_nat (length qts) <= Z.of_nat (length l) ->
    splice (splice l i pts) (i + Z.of_nat (length pts)) qts
    = splice l i (pts ++ qts).
  Proof.
    intros Hi Hlen. unfold splice.
    rewrite Z2Nat.inj_add, Nat2Z.id by lia.
    assert (Z.to_nat i + length pts + length qts <= length l)%nat by lia.
    rewrite (app_assoc (take (Z.to_nat i) l) pts).
    rewrite take_app_length' by (rewrite length_app, length_take; lia).
    rewrite drop_app_add' by (rewrite !length_app, length_take; lia).
    rewrite drop_drop. rewrite length_app.
    rewrite <- !app_assoc. do 4 f_equal. lia.
  Qed.

Lemma elem_of_rev (a : T) l : a ∈ rev l <-> a ∈ l.
  Proof. rewrite !list_elem_of_In. symmetry. apply in_rev. Qed.

Lemma splice_all l pts :
    length pts = length l -> splice l 0 pts = pts.
  Proof.
    intros H. unfold splice. simpl. rewrite H, drop_all. apply app_nil_r.
  Qed.

Lemma lookup_splice_in l i pts (k : nat) :
    0 <= i -> i + Z.of_nat (length pts) <= Z.of_nat (length l) ->
    (k < length pts)%nat ->
    splice l i pts !! (Z.to_nat i + k)%nat = pts !! k.
  Proof.
    intros. unfold splice.
    rewrite lookup_app_r by (rewrite length_take; lia).
    rewrite length_take.
    replace (Z.to_nat i + k - Z.to_nat i `min` length l)%nat with k by lia.
    by rewrite lookup_app_l.
  Qed.
End vectors.

(** ** Region partitioning *)

Lemma corrected_halves_sum o k n1 n2 :
  0 <= k -> corrected_halves o k = (n1, n2) ->
  n1 + n2 = k /\ 0 <= n1 /\ 0 <= n2 /\ 2 * n1 <= k + 1 /\ 2 * n2 <= k + 1.
Proof.
  intros Hk. unfold corrected_halves.
  pose proof (Z.div_mod k 2 ltac:(lia)).
  pose proof (Z.mod_pos_bound k 2 ltac:(lia)).
  destruct o; case_match; intros [= <- <-]; lia.
Qed.

Lemma mod2_odd z : (z mod 2 =? 1) = Z.odd z.
Proof.
  rewrite Zmod_odd. by destruct (Z.odd z).
Qed.

Lemma partition_sizes_correct nn mm o :
  0 <= nn < UINT_RANGE -> 0 <= mm < UINT_RANGE ->
  partition_sizes nn mm o
  = (fst (corrected_halves o nn), snd (corrected_halves o nn),
     fst (corrected_halves o mm), snd (corrected_halves o mm)).
Proof.
  intros Hn Hm. unfold partition_sizes, corrected_halves.
  pose proof (Z.div_mod nn 2 ltac:(lia)).
  pose proof (Z.mod_pos_bound nn 2 ltac:(lia)).
  pose proof (Z.div_mod mm 2 ltac:(lia)).
  pose proof (Z.mod_pos_bound mm 2 ltac:(lia)).
  rewrite !(wrap_small (_ - _ / 2)) by lia.
  rewrite !mod2_odd.
  destruct o; repeat case_match; simplify_eq/=; done.
Qed.

(** The children of a region, with the arithmetic of [hint] resolved. *)
Lemma Partition_correct q :
  qs_ok q ->
  let n1 := fst (corrected_halves (oABCD q) (n q)) in
  let n2 := snd (corrected_halves (oABCD q) (n q)) in
  let m1 := fst (corrected_halves (oABCD q) (m q)) in
  let m2 := snd (corrected_halves (oABCD q) (m q)) in
  let x0 := x (coord q) in
  let x1 := x (coord q) + m1 in
  let y0 := y (coord q) in
  let y1 := y (coord q) + n1 in
  Partition q =
  match oABCD q with
  | A => [ mkQS n1 m2 (HPoint_xy x1 y0) D; mkQS n2 m2 (HPoint_xy x1 y1) A;
           mkQS n2 m1 (HPoint_xy x0 y1) A; mkQS n1 m1 (HPoint_xy x0 y0) B ]
  | B => [ mkQS n2 m1 (HPoint_xy x0 y1) C; mkQS n2 m2 (HPoint_xy x1 y1) B;
           mkQS n1 m2 (HPoint_xy x1 y0) B; mkQS n1 m1 (HPoint_xy x0 y0) A ]
  | C => [ mkQS n2 m1 (HPoint_xy x0 y1) B; mkQS n1 m1 (HPoint_xy x0 y0) C;
           mkQS n1 m2 (HPoint_xy x1 y0) C; mkQS n2 m2 (HPoint_xy x1 y1) D ]
  | D => [ mkQS n1 m2 (HPoint_xy x1 y0) A; mkQS n1 m1 (HPoint_xy x0 y0) D;
           mkQS n2 m1 (HPoint_xy x0 y1) D; mkQS n2 m2 (HPoint_xy x1 y1) C ]
  end.
Proof.
  intros (Hn & Hm & Hx & Hy & Hxm & Hyn). simpl.
  unfold Partition. rewrite partition_sizes_correct by lia.
  destruct (corrected_halves (oABCD q) (n q)) as [n1 n2] eqn:En.
  destruct (corrected_halves (oABCD q) (m q)) as [m1 m2] eqn:Em.
  apply corrected_halves_sum in En as (? & ? & ? & ? & ?); [|done].
  apply corrected_halves_sum in Em as (? & ? & ? & ? & ?); [|done].
  simpl. rewrite !wrap_small by lia. done.
Qed.

Lemma elem_of_list4 {T} (a b c d e : T) :
  e ∈ [a; b; c; d] <-> e = a \/ e = b \/ e = c \/ e = d.
Proof. rewrite !elem_of_cons, elem_of_nil. tauto. Qed.

Lemma lookup_list4 {T} (a b c d e : T) (i : nat) :
  [a; b; c; d] !! i = Some e ->
  (i = 0%nat /\ e = a) \/ (i = 1%nat /\ e = b) \/
  (i = 2%nat /\ e = c) \/ (i = 3%nat /\ e = d).
Proof.
  destruct i as [|[|[|[|i]]]]; simpl; intros [= ->]; auto.
Qed.

Ltac pick_child :=
  first [ eexists; split; [left; reflexivity | simpl; lia]
        | eexists; split; [right; left; reflexivity | simpl; lia]
        | eexists; split; [right; right; left; reflexivity | simpl; lia]
        | eexists; split; [right; right; right; reflexivity | simpl; lia] ].

(** C3: [Partition] emits four children with the parity-corrected halves
    [(n1, n2)] of the height and [(m1, m2)] of the width: the child at the
    origin of the parent has [n1] rows and [m1] columns, the one to its
    right [n1] rows and [m2] columns, the one above it [n2] rows and [m1]
    columns and the fourth [n2] rows and [m2] columns, in the order and
    with the orientations that the orientation of the parent fixes.  Their
    cells are pairwise disjoint, together they are the cells of the parent,
    and their areas add up to [n * m]. *)
Theorem Partition_tiles (q : QuasiSquare) :
  qs_ok q -> 1 <= n q -> 1 <= m q ->
  let '(n1, n2) := corrected_halves (oABCD q) (n q) in
  let '(m1, m2) := corrected_halves (oABCD q) (m q) in
  let x0 := x (coord q) in
  let y0 := y (coord q) in
  let x1 := x0 + m1 in
  let y1 := y0 + n1 in
  Partition q =
  match oABCD q with
  | A => [ mkQS n1 m2 (HPoint_xy x1 y0) D; mkQS n2 m2 (HPoint_xy x1 y1) A;
           mkQS n2 m1 (HPoint_xy x0 y1) A; mkQS n1 m1 (HPoint_xy x0 y0) B ]
  | B => [ mkQS n2 m1 (HPoint_xy x0 y1) C; mkQS n2 m2 (HPoint_xy x1 y1) B;
           mkQS n1 m2 (HPoint_xy x1 y0) B; mkQS n1 m1 (HPoint_xy x0 y0) A ]
  | C => [ mkQS n2 m1 (HPoint_xy x0 y1) B; mkQS n1 m1 (HPoint_xy x0 y0) C;
           mkQS n1 m2 (HPoint_xy x1 y0) C; mkQS n2 m2 (HPoint_xy x1 y1) D ]
  | D => [ mkQS n1 m2 (HPoint_xy x1 y0) A; mkQS n1 m1 (HPoint_xy x0 y0) D;
           mkQS n2 m1 (HPoint_xy x0 y1) D; mkQS n2 m2 (HPoint_xy x1 y1) C ]
  end /\
  length (Partition q) = 4%nat /\
  map (fun c => (n c, m c)) (Partition q)
    ≡ₚ [(n1, m1); (n1, m2); (n2, m1); (n2, m2)] /\
  (forall px py,
     in_region q px py <-> exists c, c ∈ Partition q /\ in_region c px py) /\
  (forall (i j : nat) ci cj px py,
     i <> j -> Partition q !! i = Some ci -> Partition q !! j = Some cj ->
     in_region ci px py -> in_region cj px py -> False) /\
  foldr Z.add 0 (map area (Partition q)) = n q * m q.
Proof.
  intros Hok Hn Hm.
  pose proof (Partition_correct q Hok) as HP. simpl in HP.
  destruct Hok as (_ & _ & Hx & Hy & Hxm & Hyn).
  destruct (corrected_halves (oABCD q) (n q)) as [n1 n2] eqn:En.
  destruct (corrected_halves (oABCD q) (m q)) as [m1 m2] eqn:Em.
  apply corrected_halves_sum in En as (? & ? & ? & ? & ?); [|lia].
  apply corrected_halves_sum in Em as (? & ? & ? & ? & ?); [|lia].
  simpl in HP. cbv zeta. split; [exact HP|].
  rewrite HP. clear HP.
  split; [by destruct (oABCD q)|].
  split; [destruct (oABCD q); simpl; solve_Permutation|].
  split.
  { intros px py. unfold in_region.
    destruct (oABCD q); setoid_rewrite elem_of_list4; simpl; split.
    all: try (intros (c & [-> | [-> | [-> | ->]]] & Hc); simpl in Hc; lia).
    all: intros Hin;
      destruct (decide (px < x (coord q) + m1));
      destruct (decide (py < y (coord q) + n1));
      pick_child. }
  split.
  { intros i j ci cj px py Hij Hi Hj. unfold in_region.
    destruct (oABCD q);
      apply lookup_list4 in Hi as [(-> & ->) | [(-> & ->) | [(-> & ->) | (-> & ->)]]];
      apply lookup_list4 in Hj as [(-> & ->) | [(-> & ->) | [(-> & ->) | (-> & ->)]]];
      simpl; (done || lia). }
  destruct (oABCD q); unfold area; simpl; nia.
Qed.

(** ** What [BuildCurve] writes *)

Lemma vec_set_splice_at {T} (l pts : list T) (i j : Z) (p : T) :
  0 <= i -> j = i + Z.of_nat (length pts) -> j < Z.of_nat (length l) ->
  vec_set (splice l i pts) j p = Some (splice l i (pts ++ [p])).
Proof.
  intros Hi -> Hj.
  rewrite vec_set_splice by (rewrite length_splice; lia).
  by rewrite splice_splice by (simpl; lia).
Qed.

Lemma sum_area_children q :
  qs_ok q -> foldr Z.add 0 (map area (rev (Partition q))) = n q * m q.
Proof.
  intros Hok. pose proof (Partition_correct q Hok) as HP. simpl in HP.
  rewrite HP. clear HP. destruct Hok as (? & ? & _).
  destruct (corrected_halves (oABCD q) (n q)) as [n1 n2] eqn:En.
  destruct (corrected_halves (oABCD q) (m q)) as [m1 m2] eqn:Em.
  apply corrected_halves_sum in En as (? & ? & ? & ? & ?); [|lia].
  apply corrected_halves_sum in Em as (? & ? & ? & ? & ?); [|lia].
  destruct (oABCD q); unfold area; simpl; nia.
Qed.

Lemma children_ok q c :
  qs_ok q -> c ∈ Partition q ->
  qs_ok c /\ n c <= n q /\ m c <= m q /\
  (2 < n q \/ 2 < m q -> n c + m c < n q + m q).
Proof.
  intros Hok. pose proof (Partition_correct q Hok) as HP. simpl in HP.
  rewrite HP. clear HP. destruct Hok as (? & ? & ? & ? & ? & ?).
  destruct (corrected_halves (oABCD q) (n q)) as [n1 n2] eqn:En.
  destruct (corrected_halves (oABCD q) (m q)) as [m1 m2] eqn:Em.
  apply corrected_halves_sum in En as (? & ? & ? & ? & ?); [|lia].
  apply corrected_halves_sum in Em as (? & ? & ? & ? & ?); [|lia].
  unfold qs_ok.
  destruct (oABCD q); rewrite elem_of_list4;
    intros [-> | [-> | [-> | ->]]]; simpl; lia.
Qed.

Lemma write_primitive_large q l index :
  2 < n q \/ 2 < m q -> write_primitive q l index = Some l.
Proof.
  intros Hbig. unfold write_primitive.
  replace ((n q =? 1) && (m q =? 1)) with false by lia.
  replace ((n q =? 1) && (m q =? 2)) with false by lia.
  replace ((n q =? 2) && (m q =? 1)) with false by lia.
  replace ((n q =? 2) && (m q =? 2)) with false by lia.
  done.
Qed.

Lemma length_primitive_points q :
  0 <= n q <= 2 -> 0 <= m q <= 2 ->
  Z.of_nat (length (primitive_points q)) = n q * m q.
Proof.
  intros Hn Hm. destruct q as [nn mm c o]. simpl in *.
  assert (nn = 0 \/ nn = 1 \/ nn = 2) as [-> | [-> | ->]] by lia;
  assert (mm = 0 \/ mm = 1 \/ mm = 2) as [-> | [-> | ->]] by lia;
  destruct o; reflexivity.
Qed.

Lemma write_primitive_small q l index :
  0 <= n q <= 2 -> 0 <= m q <= 2 ->
  0 <= index -> index + n q * m q <= Z.of_nat (length l) ->
  Z.of_nat (length l) < UINT_RANGE ->
  write_primitive q l index = Some (splice l index (primitive_points q)).
Proof.
  intros Hn Hm Hi Hlen Hl. destruct q as [nn mm c o]. simpl in *.
  assert (nn = 0 \/ nn = 1 \/ nn = 2) as [-> | [-> | ->]] by lia;
  assert (mm = 0 \/ mm = 1 \/ mm = 2) as [-> | [-> | ->]] by lia;
  unfold write_primitive, primitive_points; simpl;
    try (by rewrite splice_nil).
  all: destruct o; simpl.
  all: rewrite ?(wrap_small (index + _)) by lia.
  all: rewrite vec_set_splice by lia; simpl.
  all: repeat (rewrite vec_set_splice_at by (simpl; lia); simpl).
  all: reflexivity.
Qed.


Section BuildCurve_frame.
Variable fuel : nat.
Hypothesis IH : forall q l index,
    qs_ok q -> n q + m q < Z.of_nat fuel ->
    0 <= index -> index + n q * m q <= Z.of_nat (length l) ->
    Z.of_nat (length l) < UINT_RANGE ->
    BuildCurve fuel q l index = Some (splice l index (region_points fuel q))
    /\ Z.of_nat (length (region_points fuel q)) = n q * m q.

Lemma build_children cs : forall l index,
    Forall qs_ok cs ->
    Forall (fun c => n c + m c < Z.of_nat fuel) cs ->
    0 <= index ->
    index + foldr Z.add 0 (map area cs) <= Z.of_nat (length l) ->
    Z.of_nat (length l) < UINT_RANGE ->
    foldl (build_child (BuildCurve fuel)) (Some (l, index)) cs
    = Some (splice l index (concat (map (region_points fuel) cs)),
            index + foldr Z.add 0 (map area cs))
    /\ Z.of_nat (length (concat (map (region_points fuel) cs)))
       = foldr Z.add 0 (map area cs).
  Proof.
    induction cs as [|c cs IHcs]; intros l index Hok Hfuel Hi Hlen Hl.
    - simpl. rewrite splice_nil, Z.add_0_r. done.
    - apply Forall_cons_1 in Hok as [Hc Hok].
      apply Forall_cons_1 in Hfuel as [Hcf Hfuel].
      simpl in Hlen. unfold area at 1 in Hlen.
      assert (0 <= n c * m c) by (destruct Hc as (? & ? & _); nia).
      assert (0 <= foldr Z.add 0 (map area cs)).
      { clear -Hok. induction Hok as [|? ? (? & ? & _)]; simpl; [done|].
        unfold area at 1. nia. }
      destruct (IH c l index) as [Hb Hlc]; [done|done|done|lia|done|].
      simpl. rewrite Hb. simpl.
      rewrite (wrap_small (n c * m c)) by lia.
      rewrite wrap_small by lia.
      destruct (IHcs (splice l index (region_points fuel c)) (index + n c * m c))
        as [Hcs Hlcs]; [done|done|lia|rewrite length_splice; lia
                        |rewrite length_splice; lia|].
      rewrite Hcs. split.
      + f_equal. f_equal.
        * rewrite <- Hlc. apply splice_splice; lia.
        * unfold area at 2. lia.
      + rewrite length_app, Nat2Z.inj_add, Hlc, Hlcs. done.
  Qed.
End BuildCurve_frame.

(** Every call of [BuildCurve] overwrites the slots
    [index .. index + n*m - 1] with the points of its region and leaves the
    rest of the vector alone. *)
Lemma BuildCurve_frame fuel : forall q l index,
  qs_ok q -> n q + m q < Z.of_nat fuel ->
  0 <= index -> index + n q * m q <= Z.of_nat (length l) ->
  Z.of_nat (length l) < UINT_RANGE ->
  BuildCurve fuel q l index = Some (splice l index (region_points fuel q))
  /\ Z.of_nat (length (region_points fuel q)) = n q * m q.
Proof.
  induction fuel as [|fuel IH]; intros q l index Hok Hfuel Hi Hlen Hl.
  { destruct Hok as (? & ? & _). lia. }
  simpl. destruct ((2 <? n q) || (2 <? m q)) eqn:Hbig.
  - assert (2 < n q \/ 2 < m q) as Hbig' by lia.
    destruct (build_children fuel IH (rev (Partition q)) l index) as [Hcs Hlcs].
    + apply Forall_forall. intros c Hc. apply (proj1 (elem_of_rev _ _)) in Hc.
      by apply (children_ok q c) in Hc as (? & _).
    + apply Forall_forall. intros c Hc. apply (proj1 (elem_of_rev _ _)) in Hc.
      apply (children_ok q c) in Hc as (_ & _ & _ & Hlt); [|done].
      specialize (Hlt Hbig'). lia.
    + done.
    + rewrite sum_area_children by done. done.
    + done.
    + rewrite Hcs. simpl. rewrite write_primitive_large by done.
      rewrite sum_area_children in Hlcs by done. done.
  - assert (0 <= n q <= 2 /\ 0 <= m q <= 2) as [Hn Hm].
    { destruct Hok as (? & ? & _). lia. }
    simpl. rewrite write_primitive_small by done.
    split; [done|]. by apply length_primitive_points.
Qed.

(** ** The cells of a region *)

Lemma elem_of_cells q a b : (a, b) ∈ cells q <-> in_region q a b.
Proof.
  unfold cells, in_region. rewrite list_elem_of_bind. split.
  - intros (b' & Hin & Hb). apply list_elem_of_bind in Hin as (a' & Hin & Ha).
    apply list_elem_of_singleton in Hin as [= -> ->].
    apply elem_of_seqZ in Ha, Hb. lia.
  - intros [Ha Hb]. exists b. split; [|apply elem_of_seqZ; lia].
    apply list_elem_of_bind. exists a. split; [by apply list_elem_of_singleton|].
    apply elem_of_seqZ. lia.
Qed.

Lemma NoDup_cells q : NoDup (cells q).
Proof.
  unfold cells. apply NoDup_bind.
  - intros b1 b2 [a b] _ _ H1 H2.
    apply list_elem_of_bind in H1 as (? & H1 & _).
    apply list_elem_of_bind in H2 as (? & H2 & _).
    apply list_elem_of_singleton in H1, H2. congruence.
  - intros b _. apply NoDup_bind.
    + intros a1 a2 [a b'] _ _ H1 H2.
      apply list_elem_of_singleton in H1, H2. congruence.
    + intros. apply NoDup_singleton.
    + apply NoDup_seqZ.
  - apply NoDup_seqZ.
Qed.

Lemma length_cells q : 0 <= n q -> 0 <= m q -> Z.of_nat (length (cells q)) = n q * m q.
Proof.
  intros Hn Hm. unfold cells.
  generalize (seqZ (x (coord q)) (m q)) (length_seqZ (x (coord q)) (m q)).
  generalize (seqZ (y (coord q)) (n q)) (length_seqZ (y (coord q)) (n q)).
  intros rows Hrows cols Hcols.
  assert (forall rs : list Z,
    length (b ← rs; a ← cols; [(a, b)]) = (length rs * length cols)%nat) as Hlen.
  { induction rs as [|r rs IH]; csimpl; [done|].
    rewrite length_app, IH. f_equal.
    clear. induction cols; csimpl; auto. }
  rewrite Hlen, Hrows, Hcols. lia.
Qed.

Ltac solve_cells :=
  unfold in_region; simpl; lia.

(** The cells of the four children are the cells of the parent. *)
Lemma cells_children q :
  qs_ok q -> concat (map cells (rev (Partition q))) ≡ₚ cells q.
Proof.
  intros Hok. pose proof (Partition_correct q Hok) as HP. simpl in HP.
  rewrite HP. clear HP. destruct Hok as (? & ? & ? & ? & ? & ?).
  destruct (corrected_halves (oABCD q) (n q)) as [n1 n2] eqn:En.
  destruct (corrected_halves (oABCD q) (m q)) as [m1 m2] eqn:Em.
  apply corrected_halves_sum in En as (? & ? & ? & ? & ?); [|lia].
  apply corrected_halves_sum in Em as (? & ? & ? & ? & ?); [|lia].
  apply NoDup_Permutation; [|apply NoDup_cells|].
  - destruct (oABCD q); simpl; rewrite app_nil_r;
      repeat (apply NoDup_app; split; [apply NoDup_cells|split]);
      try apply NoDup_cells;
      intros [a b]; rewrite ?elem_of_app, !elem_of_cells; solve_cells.
  - intros [a b].
    destruct (oABCD q); simpl; rewrite app_nil_r;
      rewrite !elem_of_app, !elem_of_cells; solve_cells.
Qed.

Lemma primitive_points_cells q :
  qs_ok q -> n q <= 2 -> m q <= 2 ->
  map coords (primitive_points q) ≡ₚ cells q.
Proof.
  intros (Hn & Hm & ? & ? & ? & ?) Hn2 Hm2.
  destruct q as [nn mm c o]. simpl in *.
  apply NoDup_Permutation; [| apply NoDup_cells |].
  - assert (nn = 0 \/ nn = 1 \/ nn = 2) as [-> | [-> | ->]] by lia;
    assert (mm = 0 \/ mm = 1 \/ mm = 2) as [-> | [-> | ->]] by lia;
    destruct o; unfold primitive_points, coords; simpl;
    rewrite ?(wrap_small (_ + 1)) by lia;
    rewrite ?(wrap_small (_ + 1 - 1)) by lia;
    rewrite ?NoDup_cons, ?elem_of_cons, ?elem_of_nil;
    intuition (try apply NoDup_nil_2; try congruence; try (simplify_eq; lia)).
  - intros [a b]. rewrite elem_of_cells. unfold in_region. simpl.
    assert (nn = 0 \/ nn = 1 \/ nn = 2) as [-> | [-> | ->]] by lia;
    assert (mm = 0 \/ mm = 1 \/ mm = 2) as [-> | [-> | ->]] by lia;
    destruct o; unfold primitive_points, coords; simpl;
    rewrite ?(wrap_small (_ + 1)) by lia;
    rewrite ?(wrap_small (_ + 1 - 1)) by lia;
    rewrite ?elem_of_cons, ?elem_of_nil;
    (split; [intros Hor; decompose [or] Hor; simplify_eq; lia|]);
    intros [? ?];
    try lia;
    assert (a = x c \/ a = x c + 1) as [-> | ->] by lia;
    assert (b = y c \/ b = y c + 1) as [-> | ->] by lia;
    try lia;
    rewrite ?Z.add_simpl_r; tauto.
Qed.

(** The points of a region visit each of its cells once. *)
Lemma region_points_cells fuel : forall q,
  qs_ok q -> n q + m q < Z.of_nat fuel ->
  map coords (region_points fuel q) ≡ₚ cells q.
Proof.
  induction fuel as [|fuel IH]; intros q Hok Hfuel.
  { destruct Hok as (? & ? & _). lia. }
  simpl. destruct ((2 <? n q) || (2 <? m q)) eqn:Hbig.
  - assert (2 < n q \/ 2 < m q) as Hbig' by lia.
    rewrite <- cells_children by done.
    assert (Forall (fun c => qs_ok c /\ n c + m c < Z.of_nat fuel)
                   (rev (Partition q))) as Hcs.
    { apply Forall_forall. intros c Hc. apply (proj1 (elem_of_rev _ _)) in Hc.
      apply (children_ok q c) in Hc as (? & _ & _ & Hlt); [|done].
      specialize (Hlt Hbig'). split; [done|lia]. }
    induction Hcs as [|c cs [Hc1 Hc2] _ IHcs]; simpl; [done|].
    rewrite map_app. apply Permutation_app; [by apply IH|done].
  - apply primitive_points_cells; [done|lia|lia].
Qed.

(** ** parallel_algorithm.h *)

Section parallel.
Context {T : Type}.
  Implicit Types (l p u v w s : list T).

Lemma iter_swap_same l i : iter_swap l i i = l.
  Proof.
    unfold iter_swap. destruct (l !! i) as [a|] eqn:Hi; [|done].
    rewrite list_insert_insert_eq. by apply list_insert_id.
  Qed.

Lemma iter_swap_app p a v b s :
    iter_swap (p ++ a :: v ++ b :: s) (length p) (length p + S (length v))
    = p ++ b :: v ++ a :: s.
  Proof.
    unfold iter_swap.
    rewrite (list_lookup_middle p (v ++ b :: s) a (length p)) by done.
    replace (p ++ a :: v ++ b :: s) with ((p ++ a :: v) ++ b :: s) at 1
      by (by rewrite <- app_assoc).
    rewrite (list_lookup_middle (p ++ a :: v) s b) by (rewrite length_app; simpl; lia).
    rewrite insert_app_r_alt by lia. rewrite Nat.sub_diag. simpl.
    replace (p ++ b :: v ++ b :: s) with ((p ++ b :: v) ++ b :: s)
      by (by rewrite <- app_assoc).
    rewrite insert_app_r_alt by (rewrite length_app; simpl; lia).
    replace (length p + S (length v) - length (p ++ b :: v))%nat with 0%nat
      by (rewrite length_app; simpl; lia).
    simpl. by rewrite <- app_assoc.
  Qed.

  (** [k] rounds exchange the first [k] and the last [k] elements of the
      range, each block reversed. *)
Lemma swap_range_reverse_app (k : nat) : forall p u v w s,
    length u = k -> length w = k ->
    swap_range_reverse (p ++ u ++ v ++ w ++ s) (length p)
      (length p + length u + length v + length w) k
    = p ++ rev w ++ v ++ rev u ++ s.
  Proof.
    induction k as [|k IH]; intros p u v w s Hu Hw.
    - destruct u, w; try done.
    - destruct u as [|a u]; [done|].
      destruct w as [|b w _] using rev_ind; [done|].
      rewrite length_app in Hw. simpl in Hu, Hw.
      cbn [swap_range_reverse].
      replace (length p + length (a :: u) + length v + length (w ++ [b]) - 1)%nat
        with (length p + S (length (u ++ v ++ w)))%nat
        by (rewrite !length_app; simpl; lia).
      replace (p ++ (a :: u) ++ v ++ (w ++ [b]) ++ s)
        with (p ++ a :: (u ++ v ++ w) ++ b :: s)
        by (simpl; rewrite <- !app_assoc; done).
      rewrite iter_swap_app.
      replace (p ++ b :: (u ++ v ++ w) ++ a :: s)
        with ((p ++ [b]) ++ u ++ v ++ w ++ (a :: s))
        by (rewrite <- !app_assoc; done).
      replace (S (length p)) with (length (p ++ [b]))
        by (rewrite length_app; simpl; lia).
      replace (length p + S (length (u ++ v ++ w)))%nat
        with (length (p ++ [b]) + length u + length v + length w)%nat
        by (rewrite !length_app; simpl; lia).
      rewrite IH by lia.
      rewrite rev_app_distr. simpl. rewrite <- !app_assoc. done.
  Qed.

Lemma swap_range_reverse_add (k1 : nat) : forall k2 l a e,
    swap_range_reverse l a e (k1 + k2)
    = swap_range_reverse (swap_range_reverse l a e k1) (a + k1) (e - k1) k2.
  Proof.
    induction k1 as [|k1 IH]; intros k2 l a e; simpl.
    - by rewrite Nat.add_0_r, Nat.sub_0_r.
    - rewrite IH. f_equal; lia.
  Qed.

Lemma swap_range_reverse_half l :
    swap_range_reverse l 0 (length l) (length l / 2) = rev l.
  Proof.
    set (k := (length l / 2)%nat).
    assert (2 * k <= length l)%nat as Hk.
    { pose proof (Nat.div_mod_eq (length l) 2). unfold k. lia. }
    assert (length l - 2 * k <= 1)%nat as Hv.
    { pose proof (Nat.div_mod_eq (length l) 2).
      pose proof (Nat.mod_upper_bound (length l) 2). unfold k. lia. }
    rewrite <- (take_drop k l) at 1 2 3.
    rewrite <- (take_drop (length l - 2 * k) (drop k l)) at 1 2 3.
    set (u := take k l). set (v := take (length l - 2 * k) (drop k l)).
    set (w := drop (length l - 2 * k) (drop k l)).
    assert (length u = k) by (unfold u; rewrite length_take; lia).
    assert (length v = (length l - 2 * k)%nat)
      by (unfold v; rewrite length_take, length_drop; lia).
    assert (length w = k) by (unfold w; rewrite !length_drop; lia).
    pose proof (swap_range_reverse_app k [] u v w [] ltac:(done) ltac:(done)) as Hsw.
    simpl in Hsw. rewrite !app_nil_r in Hsw.
    rewrite !length_app.
    replace (length u + (length v + length w))%nat
      with (length u + length v + length w)%nat by lia.
    rewrite Hsw. rewrite !rev_app_distr, <- app_assoc.
    f_equal. f_equal. destruct v as [|? [|? ?]]; simpl in *; [done|done|lia].
  Qed.

Lemma reverse_blocks_correct (b : nat) : forall l start end_,
    reverse_blocks b l start end_
    = (swap_range_reverse l start end_ (b * block_size),
       (start + b * block_size)%nat, (end_ - b * block_size)%nat).
  Proof.
    induction b as [|b IH]; intros l start end_.
    - simpl. by rewrite Nat.add_0_r, Nat.sub_0_r.
    - cbn [reverse_blocks]. rewrite IH.
      replace (S b * block_size)%nat with (block_size + b * block_size)%nat by lia.
      rewrite swap_range_reverse_add. f_equal; [f_equal|]; lia.
  Qed.

  (** [reverse_parallel] reverses, on both of its paths. *)
Lemma reverse_parallel_rev l : reverse_parallel l = rev l.
  Proof.
    unfold reverse_parallel.
    destruct (length l =? 0)%nat eqn:Hl.
    { apply Nat.eqb_eq in Hl. by destruct l. }
    destruct (length l / 2 <? block_size)%nat eqn:Hmid; [done|].
    apply Nat.ltb_ge in Hmid.
    set (mid := (length l / 2)%nat) in *.
    set (nb := ((mid + block_size - 1) / block_size)%nat).
    assert (0 < block_size)%nat as Hbs by (unfold block_size; lia).
    assert ((nb - 1) * block_size <= mid)%nat as Hnb.
    { pose proof (Nat.div_mod_eq (mid + block_size - 1) block_size) as Hd.
      fold nb in Hd. nia. }
    rewrite reverse_blocks_correct. simpl.
    rewrite <- swap_range_reverse_add.
    replace ((nb - 1) * block_size + (mid - (nb - 1) * block_size))%nat
      with mid by lia.
    apply swap_range_reverse_half.
  Qed.

Lemma for_each_parallel_rec_map (f : T -> T) (fuel : nat) : forall l,
    (length l <= fuel)%nat -> for_each_parallel_rec fuel f l = map f l.
  Proof.
    induction fuel as [|fuel IH]; intros l Hl.
    - destruct l; [done|simpl in Hl; lia].
    - cbn [for_each_parallel_rec].
      destruct (length l =? 0)%nat eqn:H0.
      { apply Nat.eqb_eq in H0. by destruct l. }
      destruct (length l <? 2 * min_per_thread)%nat eqn:Hshort; [done|].
      apply Nat.eqb_neq in H0.
      assert (2 <= length l)%nat.
      { apply Nat.ltb_ge in Hshort. unfold min_per_thread in Hshort. lia. }
      assert (1 <= length l / 2 < length l)%nat.
      { pose proof (Nat.div_mod_eq (length l) 2).
        pose proof (Nat.mod_upper_bound (length l) 2). lia. }
      rewrite !IH by (rewrite ?length_take, ?length_drop; lia).
      by rewrite <- map_app, take_drop.
  Qed.

Lemma for_each_parallel_map (f : T -> T) l : for_each_parallel f l = map f l.
  Proof. by apply for_each_parallel_rec_map. Qed.
End parallel.

(** ** The type [H0] *)

Lemma BuildCurveH0_correct q :
  qs_ok q -> n q * m q < UINT_RANGE ->
  BuildCurveH0 q = Some (region_points (BuildCurve_fuel q) q).
Proof.
  intros Hok Hsize. unfold BuildCurveH0.
  assert (0 <= n q * m q) by (destruct Hok as (? & ? & _); nia).
  rewrite wrap_small by lia.
  destruct (BuildCurve_frame (BuildCurve_fuel q) q
              (replicate (Z.to_nat (n q * m q)) (HPoint_n 0)) 0)
    as [Hb Hl]; try done.
  - unfold BuildCurve_fuel. destruct Hok as (? & ? & _). lia.
  - rewrite length_replicate. lia.
  - rewrite length_replicate. lia.
  - rewrite Hb. f_equal. apply splice_all.
    rewrite length_replicate. lia.
Qed.

(** ** Reverse and mirror *)

Lemma reverse_curve hc : m_curve (reverse hc) = rev (m_curve hc).
Proof. unfold reverse. simpl. apply reverse_parallel_rev. Qed.

Lemma reflectX_curve hc :
  m_curve (reflectX hc)
  = map (fun p => set_X p (wrap (m (qs hc) - 1 - x p + 2 * x (coord (qs hc)))))
        (m_curve hc).
Proof.
  unfold reflectX. simpl. rewrite for_each_parallel_map.
  apply map_ext. intros p. f_equal.
  rewrite wrap_add_l, wrap_add_r.
  replace (wrap (m (qs hc) - 1) - x p + 2 * x (coord (qs hc)))
    with (wrap (m (qs hc) - 1) + (2 * x (coord (qs hc)) - x p)) by lia.
  rewrite wrap_add_l. f_equal. lia.
Qed.

Lemma reflectY_curve hc :
  m_curve (reflectY hc)
  = map (fun p => set_Y p (wrap (n (qs hc) - 1 - y p + 2 * y (coord (qs hc)))))
        (m_curve hc).
Proof.
  unfold reflectY. simpl. rewrite for_each_parallel_map.
  apply map_ext. intros p. f_equal.
  rewrite wrap_add_l, wrap_add_r.
  replace (wrap (n (qs hc) - 1) - y p + 2 * y (coord (qs hc)))
    with (wrap (n (qs hc) - 1) + (2 * y (coord (qs hc)) - y p)) by lia.
  rewrite wrap_add_l. f_equal. lia.
Qed.

(** The mirror images of the cells of a region are its cells. *)
Lemma mirror_cells_x q :
  map (fun c : Z * Z => (m q - 1 - fst c + 2 * x (coord q), snd c)) (cells q)
  ≡ₚ cells q.
Proof.
  apply NoDup_Permutation; [|apply NoDup_cells|].
  - rewrite map_fmap. apply NoDup_fmap_2_strong; [|apply NoDup_cells].
    intros [a b] [a' b'] _ _ [= ? ?]. f_equal; lia.
  - intros [a b]. rewrite map_fmap, list_elem_of_fmap.
    rewrite (elem_of_cells q a b). split.
    + intros ([a' b'] & Heq & Hin). simpl in Heq. simplify_eq.
      apply elem_of_cells in Hin.
      unfold in_region in *. simpl. lia.
    + intros Hin. exists (m q - 1 - a + 2 * x (coord q), b). split.
      * simpl. f_equal. lia.
      * apply elem_of_cells. unfold in_region in *. lia.
Qed.

Lemma mirror_cells_y q :
  map (fun c : Z * Z => (fst c, n q - 1 - snd c + 2 * y (coord q))) (cells q)
  ≡ₚ cells q.
Proof.
  apply NoDup_Permutation; [|apply NoDup_cells|].
  - rewrite map_fmap. apply NoDup_fmap_2_strong; [|apply NoDup_cells].
    intros [a b] [a' b'] _ _ [= ? ?]. f_equal; lia.
  - intros [a b]. rewrite map_fmap, list_elem_of_fmap.
    rewrite (elem_of_cells q a b). split.
    + intros ([a' b'] & Heq & Hin). simpl in Heq. simplify_eq.
      apply elem_of_cells in Hin.
      unfold in_region in *. simpl. lia.
    + intros Hin. exists (a, n q - 1 - b + 2 * y (coord q)). split.
      * simpl. f_equal. lia.
      * apply elem_of_cells. unfold in_region in *. lia.
Qed.

Lemma curve_fills_in_region hc p :
  curve_fills hc -> p ∈ m_curve hc -> in_region (qs hc) (x p) (y p).
Proof.
  intros Hf Hp. unfold curve_fills in Hf. apply elem_of_cells. rewrite <- Hf.
  rewrite map_fmap. apply list_elem_of_fmap. by exists p.
Qed.

Lemma reverse_fills hc : curve_fills hc -> curve_fills (reverse hc).
Proof.
  unfold curve_fills. rewrite reverse_curve. intros <-.
  rewrite map_rev. symmetry. apply Permutation_rev.
Qed.

Lemma reflectX_fills hc : qs_ok (qs hc) -> curve_fills hc -> curve_fills (reflectX hc).
Proof.
  intros Hok Hf. pose proof Hf as Hf'. unfold curve_fills in *. rewrite reflectX_curve.
  change (qs (reflectX hc)) with (qs hc).
  rewrite <- (mirror_cells_x (qs hc)). rewrite <- Hf.
  rewrite !map_map. apply Permutation_refl'.
  apply map_ext_in. intros p Hp%list_elem_of_In.
  apply (curve_fills_in_region hc p Hf') in Hp.
  unfold coords, in_region in *. simpl.
  destruct Hok as (? & ? & ? & ? & ? & ?).
  rewrite wrap_small by lia. done.
Qed.

Lemma reflectY_fills hc : qs_ok (qs hc) -> curve_fills hc -> curve_fills (reflectY hc).
Proof.
  intros Hok Hf. pose proof Hf as Hf'. unfold curve_fills in *. rewrite reflectY_curve.
  change (qs (reflectY hc)) with (qs hc).
  rewrite <- (mirror_cells_y (qs hc)). rewrite <- Hf.
  rewrite !map_map. apply Permutation_refl'.
  apply map_ext_in. intros p Hp%list_elem_of_In.
  apply (curve_fills_in_region hc p Hf') in Hp.
  unfold coords, in_region in *. simpl.
  destruct Hok as (? & ? & ? & ? & ? & ?).
  rewrite wrap_small by lia. done.
Qed.

Lemma apply_call_qs hc t : qs (apply_call hc t) = qs hc.
Proof. by destruct t; simpl; unfold reflect; try destruct (oABCD (qs hc)). Qed.

Lemma apply_call_fills hc t :
  qs_ok (qs hc) -> curve_fills hc -> curve_fills (apply_call hc t).
Proof.
  intros Hok Hf. destruct t; simpl.
  - by apply reverse_fills.
  - unfold reflect. destruct (oABCD (qs hc));
      auto using reflectX_fills, reflectY_fills.
  - unfold reflectAndReverse, reflect. apply reverse_fills.
    destruct (oABCD (qs hc)); auto using reflectX_fills, reflectY_fills.
Qed.

Lemma apply_calls_fills ts : forall hc,
  qs_ok (qs hc) -> curve_fills hc ->
  qs (foldl apply_call hc ts) = qs hc /\ curve_fills (foldl apply_call hc ts).
Proof.
  induction ts as [|t ts IH]; intros hc Hok Hf; simpl; [done|].
  destruct (IH (apply_call hc t)) as [Hq Hc].
  - by rewrite apply_call_qs.
  - by apply apply_call_fills.
  - rewrite Hq, apply_call_qs. done.
Qed.

(** ** The curve grammar *)

(** The four quadrants of [BuildCurveNH] tile the region. *)
Lemma cells_quadrants hh ww c o o1 o2 o3 o4 :
  qs_ok (mkQS hh ww c o) ->
  let w2 := ww / 2 in
  let w1 := ww - w2 in
  let h2 := hh / 2 in
  let h1 := hh - h2 in
  cells (mkQS h1 w1 (HPoint_add c (HPoint_xy 0 0)) o1)
  ++ cells (mkQS h2 w1 (HPoint_add c (HPoint_xy 0 h1)) o2)
  ++ cells (mkQS h2 w2 (HPoint_add c (HPoint_xy w1 h1)) o3)
  ++ cells (mkQS h1 w2 (HPoint_add c (HPoint_xy w1 0)) o4)
  ≡ₚ cells (mkQS hh ww c o).
Proof.
  intros (Hn & Hm & Hx & Hy & Hxm & Hyn). simpl in * |-. intros w2 w1 h2 h1.
  pose proof (Z.div_mod ww 2 ltac:(lia)).
  pose proof (Z.mod_pos_bound ww 2 ltac:(lia)).
  pose proof (Z.div_mod hh 2 ltac:(lia)).
  pose proof (Z.mod_pos_bound hh 2 ltac:(lia)).
  assert (0 <= w2 /\ 0 <= w1 /\ 0 <= h2 /\ 0 <= h1) as (? & ? & ? & ?)
    by (unfold w1, w2, h1, h2; lia).
  assert (w1 + w2 = ww /\ h1 + h2 = hh) as [? ?] by (unfold w1, h1; lia).
  clearbody w2 w1 h2 h1.
  unfold HPoint_add. simpl. rewrite !Z.add_0_r.
  rewrite !wrap_small by lia.
  apply NoDup_Permutation; [|apply NoDup_cells|].
  - repeat (apply NoDup_app; split; [apply NoDup_cells|split]);
      try apply NoDup_cells;
      intros [a b]; rewrite ?elem_of_app, !elem_of_cells; solve_cells.
  - intros [a b]. rewrite !elem_of_app, !elem_of_cells. solve_cells.
Qed.

Section BuildCurveNH.
Variable construct :
    Z -> Z -> CurveType -> HPoint -> Orientation -> option HilbertCurve.
Variable ok_type : CurveType -> Prop.

Hypothesis construct_fills : forall w h t c o,
    ok_type t -> qs_ok (mkQS h w c o) -> w * h < UINT_RANGE ->
    exists hc, construct w h t c o = Some hc /\
               qs hc = mkQS h w c o /\ curve_fills hc.

Lemma BuildCurveNH_fills prod hc :
    ok_type (q_type (cuadrant1 (prod (oABCD (qs hc))))) ->
    ok_type (q_type (cuadrant2 (prod (oABCD (qs hc))))) ->
    ok_type (q_type (cuadrant3 (prod (oABCD (qs hc))))) ->
    ok_type (q_type (cuadrant4 (prod (oABCD (qs hc))))) ->
    qs_ok (qs hc) -> width hc * height hc < UINT_RANGE ->
    exists hc', BuildCurveNH construct prod hc = Some hc' /\
                qs hc' = qs hc /\ m_type hc' = m_type hc /\ curve_fills hc'.
  Proof.
    intros Ht1 Ht2 Ht3 Ht4 Hok Hsize.
    destruct hc as [[hh ww c o] t l md]. unfold width, height in *. simpl in *.
    pose proof Hok as (Hn & Hm & Hx & Hy & Hxm & Hyn). simpl in * |-.
    pose proof (cells_quadrants hh ww c o) as Hcells.
    unfold BuildCurveNH, width, height. simpl.
    set (pr := prod o) in *.
    pose proof (Z.div_mod ww 2 ltac:(lia)).
    pose proof (Z.mod_pos_bound ww 2 ltac:(lia)).
    pose proof (Z.div_mod hh 2 ltac:(lia)).
    pose proof (Z.mod_pos_bound hh 2 ltac:(lia)).
    rewrite !(wrap_small (_ - _ / 2)) by lia.
    specialize (Hcells (q_orientation (cuadrant1 pr)) (q_orientation (cuadrant2 pr))
                  (q_orientation (cuadrant3 pr)) (q_orientation (cuadrant4 pr)) Hok).
    simpl in Hcells.
    set (w2 := ww / 2) in *. set (w1 := ww - w2) in *.
    set (h2 := hh / 2) in *. set (h1 := hh - h2) in *.
    assert (0 <= w2 /\ 0 <= w1 /\ 0 <= h2 /\ 0 <= h1) as (? & ? & ? & ?)
      by (unfold w1, w2, h1, h2; lia).
    assert (w1 + w2 = ww /\ h1 + h2 = hh) as [? ?] by (unfold w1, h1; lia).
    clearbody w2 w1 h2 h1.
    assert (forall dx dy w h, 0 <= dx -> 0 <= dy -> 0 <= w -> 0 <= h ->
              dx + w <= ww -> dy + h <= hh -> forall oo,
              qs_ok (mkQS h w (HPoint_add c (HPoint_xy dx dy)) oo)) as Hq.
    { intros dx dy w h ? ? ? ? ? ? oo. unfold qs_ok, HPoint_add. simpl.
      rewrite !wrap_small by lia. lia. }
    assert (forall w h, 0 <= w <= ww -> 0 <= h <= hh -> w * h < UINT_RANGE) as Hs.
    { intros w h ? ?.
      assert (w * h <= ww * hh) by (apply Z.mul_le_mono_nonneg; lia). lia. }
    destruct (construct_fills w1 h1 _ (HPoint_add c (HPoint_xy 0 0))
                (q_orientation (cuadrant1 pr)) Ht1) as (c1 & -> & Hq1 & Hf1);
      [apply Hq; lia | apply Hs; lia |].
    destruct (construct_fills w1 h2 _ (HPoint_add c (HPoint_xy 0 h1))
                (q_orientation (cuadrant2 pr)) Ht2) as (c2 & -> & Hq2 & Hf2);
      [apply Hq; lia | apply Hs; lia |].
    destruct (construct_fills w2 h2 _ (HPoint_add c (HPoint_xy w1 h1))
                (q_orientation (cuadrant3 pr)) Ht3) as (c3 & -> & Hq3 & Hf3);
      [apply Hq; lia | apply Hs; lia |].
    destruct (construct_fills w2 h1 _ (HPoint_add c (HPoint_xy w1 0))
                (q_orientation (cuadrant4 pr)) Ht4) as (c4 & -> & Hq4 & Hf4);
      [apply Hq; lia | apply Hs; lia |].
    simpl.
    destruct (apply_calls_fills (q_calls (cuadrant1 pr)) c1) as [Hq1' Hf1'];
      [rewrite Hq1; apply Hq; lia | done |].
    destruct (apply_calls_fills (q_calls (cuadrant2 pr)) c2) as [Hq2' Hf2'];
      [rewrite Hq2; apply Hq; lia | done |].
    destruct (apply_calls_fills (q_calls (cuadrant3 pr)) c3) as [Hq3' Hf3'];
      [rewrite Hq3; apply Hq; lia | done |].
    destruct (apply_calls_fills (q_calls (cuadrant4 pr)) c4) as [Hq4' Hf4'];
      [rewrite Hq4; apply Hq; lia | done |].
    eexists. split; [done|]. split; [done|]. split; [done|].
    unfold curve_fills in *. simpl.
    rewrite Hq1', Hq1 in Hf1'. rewrite Hq2', Hq2 in Hf2'.
    rewrite Hq3', Hq3 in Hf3'. rewrite Hq4', Hq4 in Hf4'.
    rewrite <- Hcells, <- Hf1', <- Hf2', <- Hf3', <- Hf4'.
    rewrite <- !map_app. apply Permutation_map.
    destruct o; simpl; solve_Permutation.
  Qed.
End BuildCurveNH.

Lemma production_rank t prod o :
  production t = Some prod ->
  (rank (q_type (cuadrant1 (prod o))) < rank t)%nat /\
  (rank (q_type (cuadrant2 (prod o))) < rank t)%nat /\
  (rank (q_type (cuadrant3 (prod o))) < rank t)%nat /\
  (rank (q_type (cuadrant4 (prod o))) < rank t)%nat.
Proof.
  destruct t; simpl; intros [= <-]; destruct o; simpl; lia.
Qed.

(** Every curve type fills its region: the constructor returns a curve, of
    the requested shape, whose points visit each cell once. *)
Lemma HilbertCurve_new_fills (fuel : nat) : forall w h t c o,
  (rank t < fuel)%nat -> qs_ok (mkQS h w c o) -> w * h < UINT_RANGE ->
  exists hc, HilbertCurve_new fuel w h t c o false = Some hc /\
             qs hc = mkQS h w c o /\ m_type hc = t /\ curve_fills hc.
Proof.
  induction fuel as [|fuel IH]; intros w h t c o Hrank Hok Hsize; [lia|].
  cbn [HilbertCurve_new].
  destruct (production t) as [prod|] eqn:Hprod.
  - pose proof (production_rank t prod o Hprod) as (? & ? & ? & ?).
    destruct (BuildCurveNH_fills
                (fun w h t c o => HilbertCurve_new fuel w h t c o false)
                (fun t' => (rank t' < fuel)%nat)) with
      (prod := prod) (hc := mkHC (mkQS h w c o) t [] hf_zero)
      as (hc' & -> & ? & ? & ?); simpl; try lia; try done.
    + intros w' h' t' c' o' ? ? ?.
      destruct (IH w' h' t' c' o') as (hc' & ? & ? & ? & ?); eauto.
    + eauto.
  - assert (t = H0) as -> by (by destruct t).
    rewrite BuildCurveH0_correct by (simpl; (done || lia)).
    cbn -[region_points BuildCurve_fuel].
    eexists. split; [done|]. split; [done|]. split; [done|].
    unfold curve_fills. cbn -[region_points BuildCurve_fuel].
    apply region_points_cells; [done|].
    unfold BuildCurve_fuel. destruct Hok as (? & ? & _). simpl in *. lia.
Qed.

(** ** std::sort *)

Section sort.
Context {T : Type}.
Variable key : T -> Z.
Variable comp : T -> T -> bool.
  (** The elements on which [comp] orders by [key]. *)
Variable valid : T -> Prop.
Hypothesis comp_true : forall a b,
    valid a -> valid b -> comp a b = true -> key a <= key b.
Hypothesis comp_false : forall a b,
    valid a -> valid b -> comp a b = false -> key b <= key a.

Local Abbreviation key_le := (key_le key).

Lemma sort_insert_perm a l : sort_insert comp a l ≡ₚ a :: l.
  Proof.
    induction l as [|b l IH]; simpl; [done|].
    destruct (comp b a); [|done].
    rewrite IH. apply perm_swap.
  Qed.

Lemma std_sort_perm l : std_sort comp l ≡ₚ l.
  Proof.
    induction l as [|a l IH]; simpl; [done|].
    fold (std_sort comp l). rewrite sort_insert_perm. by rewrite IH.
  Qed.

Lemma sort_insert_sorted a l :
    valid a -> Forall valid l ->
    StronglySorted key_le l -> StronglySorted key_le (sort_insert comp a l).
  Proof.
    intros Ha. induction l as [|b l IH]; intros Hl Hs; simpl.
    - repeat constructor.
    - apply Forall_cons_1 in Hl as [Hb Hl].
      apply StronglySorted_cons in Hs as [Hbl Hs].
      destruct (comp b a) eqn:Hc.
      + apply StronglySorted_cons. split; [|by apply IH].
        rewrite sort_insert_perm. constructor; [|done].
        by apply comp_true.
      + apply StronglySorted_cons. split.
        * assert (key_le a b) as Hab by (by apply comp_false).
          constructor; [done|].
          eapply Forall_impl; [exact Hbl|]. unfold key_le in *. intros; lia.
        * by apply StronglySorted_cons.
  Qed.

Lemma std_sort_sorted l :
    Forall valid l -> StronglySorted key_le (std_sort comp l).
  Proof.
    induction l as [|a l IH]; intros Hl; simpl; [constructor|].
    apply Forall_cons_1 in Hl as [Ha Hl].
    fold (std_sort comp l). apply sort_insert_sorted; [done| |by apply IH].
    by rewrite std_sort_perm.
  Qed.

  (** A sequence sorted by pairwise distinct keys is the only sorted
      arrangement of its elements. *)
Lemma sorted_unique l1 l2 :
    StronglySorted key_le l1 -> StronglySorted key_le l2 -> l1 ≡ₚ l2 ->
    NoDup (key <$> l1) -> l1 = l2.
  Proof.
    intros Hs1 Hs2 Hp Hnd. apply (StronglySorted_unique_strong key_le); try done.
    intros a b Ha Hb Hab Hba. rewrite <- Hp in Hb.
    assert (key a = key b) as Hk by (unfold key_le in *; lia).
    apply list_elem_of_lookup in Ha as [i Hi].
    apply list_elem_of_lookup in Hb as [j Hj].
    assert (i = j) as ->.
    { eapply NoDup_lookup; [exact Hnd| |].
      - rewrite list_lookup_fmap, Hi. done.
      - rewrite list_lookup_fmap, Hj. simpl. by rewrite Hk. }
    congruence.
  Qed.

Lemma std_sort_unique l l' :
    Forall valid l -> l ≡ₚ l' -> StronglySorted key_le l' ->
    NoDup (key <$> l') -> std_sort comp l = l'.
  Proof.
    intros Hl Hp Hs Hnd. symmetry. apply sorted_unique; try done.
    - by apply std_sort_sorted.
    - by rewrite std_sort_perm.
  Qed.
End sort.

(** A sequence whose keys increase strictly with the position is sorted. *)
Lemma sorted_by_lookup {T} (key : T -> Z) (l : list T) :
  (forall (i j : nat) a b, (i < j)%nat -> l !! i = Some a -> l !! j = Some b ->
     key a < key b) ->
  StronglySorted (key_le key) l /\ NoDup (key <$> l).
Proof.
  induction l as [|a l IH]; intros Hinc.
  - split; constructor.
  - destruct IH as [IHs IHn].
    { intros i j b c Hij Hi Hj. apply (Hinc (S i) (S j)); [lia|done|done]. }
    split.
    + constructor; [done|]. apply Forall_forall. intros b Hb.
      apply list_elem_of_lookup in Hb as [j Hj].
      specialize (Hinc 0%nat (S j) a b ltac:(lia) eq_refl Hj).
      unfold key_le. lia.
    + rewrite fmap_cons. constructor; [|done].
      intros (b & Hk & Hb)%list_elem_of_fmap.
      apply list_elem_of_lookup in Hb as [j Hj].
      specialize (Hinc 0%nat (S j) a b ltac:(lia) eq_refl Hj). lia.
Qed.

(** ** hfloat *)

Lemma Qc_of_Z_add a b :
  (Q2Qc (inject_Z a) + Q2Qc (inject_Z b))%Qc = Q2Qc (inject_Z (a + b)).
Proof.
  unfold Qcplus. apply Q2Qc_eq_iff. cbn [this Q2Qc].
  rewrite !Qred_correct, inject_Z_plus. reflexivity.
Qed.

Lemma Qc_of_Z_opp a : (- Q2Qc (inject_Z a))%Qc = Q2Qc (inject_Z (- a)).
Proof.
  unfold Qcopp. apply Q2Qc_eq_iff. cbn [this Q2Qc].
  rewrite !Qred_correct, inject_Z_opp. reflexivity.
Qed.

Lemma Qc_of_Z_compare a b :
  (Q2Qc (inject_Z a) ?= Q2Qc (inject_Z b))%Qc = (a ?= b).
Proof.
  unfold Qccompare. cbn [this Q2Qc]. rewrite !Qred_correct.
  unfold Qcompare. simpl. by rewrite !Z.mul_1_r.
Qed.

Lemma Qc_of_Z_inj a b : Q2Qc (inject_Z a) = Q2Qc (inject_Z b) -> a = b.
Proof.
  intros H. apply Z.compare_eq. rewrite <- Qc_of_Z_compare, H.
  apply Qceq_alt. done.
Qed.

Lemma Qc_ltb_of_Z a b : Qc_ltb (Q2Qc (inject_Z a)) (Q2Qc (inject_Z b)) = (a <? b).
Proof. unfold Qc_ltb, Z.ltb. by rewrite Qc_of_Z_compare. Qed.

Lemma Qc_eqb_of_Z a b : Qc_eqb (Q2Qc (inject_Z a)) (Q2Qc (inject_Z b)) = (a =? b).
Proof.
  unfold Qc_eqb. rewrite Qc_of_Z_compare.
  destruct (Z.compare_spec a b); symmetry;
    [apply Z.eqb_eq | apply Z.eqb_neq | apply Z.eqb_neq]; lia.
Qed.

Lemma Qc_eqb_eq p q : Qc_eqb p q = true <-> p = q.
Proof.
  unfold Qc_eqb. rewrite Qceq_alt. destruct (p ?= q)%Qc; split; intros; by try discriminate.
Qed.

Lemma hf_of_Z_add a b : hf_add (hf_of_Z a) (hf_of_Z b) = hf_of_Z (a + b).
Proof. unfold hf_of_Z. simpl. by rewrite Qc_of_Z_add. Qed.

Lemma hf_of_Z_fabs_sub a b :
  hf_fabs (hf_sub (hf_of_Z a) (hf_of_Z b)) = hf_of_Z (Z.abs (a - b)).
Proof.
  unfold hf_of_Z, hf_sub. simpl.
  rewrite Qc_of_Z_opp, Qc_of_Z_add.
  change 0%Qc with (Q2Qc (inject_Z 0)). rewrite Qc_ltb_of_Z.
  destruct (Z.ltb_spec (a + - b) 0).
  - rewrite Qc_of_Z_opp. do 3 f_equal. lia.
  - do 3 f_equal. lia.
Qed.

Lemma hf_add_comm a b : hf_add a b = hf_add b a.
Proof.
  destruct a as [p|[]|], b as [q|[]|]; simpl; try done.
  f_equal. ring.
Qed.

Lemma hf_add_assoc a b c : hf_add a (hf_add b c) = hf_add (hf_add a b) c.
Proof.
  destruct a as [p|[]|], b as [q|[]|], c as [r|[]|]; simpl; try done.
  f_equal. ring.
Qed.

Lemma hf_add_zero_r a : hf_add a hf_zero = a.
Proof. destruct a as [p|[]|]; simpl; try done. f_equal. ring. Qed.

Lemma hf_sum_app l1 l2 : hf_sum (l1 ++ l2) = hf_add (hf_sum l1) (hf_sum l2).
Proof.
  induction l1 as [|a l1 IH]; unfold hf_sum in *; cbn -[hf_add].
  - rewrite hf_add_comm. symmetry. apply hf_add_zero_r.
  - rewrite IH. apply hf_add_assoc.
Qed.

Lemma hf_sum_perm l1 l2 : l1 ≡ₚ l2 -> hf_sum l1 = hf_sum l2.
Proof.
  induction 1 as [|a l1 l2 _ IH|a b l|? ? ? _ IH1 _ IH2];
    unfold hf_sum in *; cbn -[hf_add].
  - done.
  - by rewrite IH.
  - rewrite !hf_add_assoc. f_equal. apply hf_add_comm.
  - congruence.
Qed.

(** *** The running mean *)

Lemma hf_sum_not_infinite l : Forall not_infinite l -> not_infinite (hf_sum l).
Proof.
  induction 1 as [|v l Hv _ IH]; [done|].
  unfold hf_sum in *. cbn -[hf_add].
  destruct v, (foldr hf_add hf_zero l); done.
Qed.

Lemma Qc_of_Z_nonzero k : k <> 0 -> Qc_eqb (Q2Qc (inject_Z k)) 0 = false.
Proof.
  intros Hk. change 0%Qc with (Q2Qc (inject_Z 0)).
  rewrite Qc_eqb_of_Z. by apply Z.eqb_neq.
Qed.

Lemma hf_div_not_infinite s k :
  not_infinite s -> k <> 0 -> not_infinite (hf_div s (hf_of_Z k)).
Proof.
  intros Hs Hk. destruct s; try done.
  unfold hf_of_Z. simpl. by rewrite Qc_of_Z_nonzero.
Qed.

Lemma hf_div_one a : hf_div a hf_one = a.
Proof.
  destruct a as [q|[]|]; try reflexivity.
  unfold hf_one. cbn [hf_div]. change (Qc_eqb 1 0) with false.
  cbn iota. f_equal. field.
  intros H. apply (f_equal this) in H. vm_compute in H. discriminate.
Qed.

Lemma hf_sub_zero a : hf_sub a hf_zero = a.
Proof.
  destruct a as [q|[]|]; try done.
  unfold hf_sub, hf_zero. cbn [hf_neg hf_add]. f_equal. ring.
Qed.

Lemma hf_add_zero_l a : hf_add hf_zero a = a.
Proof. rewrite hf_add_comm. apply hf_add_zero_r. Qed.

(** The incremental update computes the arithmetic mean. *)
Lemma running_mean_correct vals :
  Forall not_infinite vals -> vals <> [] ->
  foldl running_mean (hf_zero, 0) vals
  = (arithmetic_mean vals, Z.of_nat (length vals)).
Proof.
  induction vals as [|v pre IH] using rev_ind; intros Hall Hne; [done|].
  apply Forall_app in Hall as [Hpre Hv]. apply Forall_singleton in Hv.
  rewrite foldl_app. simpl.
  unfold arithmetic_mean. rewrite hf_sum_app, length_app. simpl.
  change (hf_sum [v]) with (hf_add v hf_zero). rewrite hf_add_zero_r.
  rewrite Nat2Z.inj_add. simpl Z.of_nat.
  destruct pre as [|v0 pre'].
  { cbn [foldl running_mean length Z.of_nat Z.add].
    change (hf_sum []) with hf_zero. change (hf_of_Z 1) with hf_one.
    by rewrite hf_sub_zero, !hf_div_one, !hf_add_zero_l. }
  rewrite IH by done. clear IH. unfold running_mean.
  set (pre := v0 :: pre') in *.
  pose proof (hf_sum_not_infinite pre Hpre) as HS.
  assert (Z.of_nat (length pre) <> 0) as Hk by (unfold pre; simpl; lia).
  assert (Z.of_nat (length pre) + 1 <> 0) as Hk1 by lia.
  f_equal. unfold arithmetic_mean.
  change (Z.of_nat 1) with 1.
  rewrite <- !(hf_of_Z_add (Z.of_nat (length pre)) 1).
  pose proof (Qc_of_Z_nonzero _ Hk) as HK.
  pose proof (Qc_of_Z_nonzero _ Hk1) as HK1.
  rewrite <- Qc_of_Z_add in HK1.
  unfold hf_of_Z in *.
  generalize dependent (Q2Qc (inject_Z (Z.of_nat (length pre)))). intros K HK HK1.
  change (Q2Qc (inject_Z 1)) with 1%Qc in *.
  destruct (hf_sum pre) as [s| |]; try done;
    destruct v as [q| |]; try done; simpl; rewrite ?HK, ?HK1; simpl;
    rewrite ?HK1; try done.
  f_equal.
  assert (K <> 0%Qc) by (intros ->; by rewrite (proj2 (Qc_eqb_eq 0 0) eq_refl) in HK).
  assert ((K + 1)%Qc <> 0%Qc).
  { intros He. rewrite He in HK1. by rewrite (proj2 (Qc_eqb_eq 0 0) eq_refl) in HK1. }
  field. done.
Qed.

(** ** The raster order *)

Lemma lookup_bind_blocks {T U} (f : T -> list U) (w : nat) (l : list T) :
  (forall a, length (f a) = w) ->
  forall (j i : nat), (i < w)%nat ->
    (l ≫= f) !! (j * w + i)%nat = l !! j ≫= (fun a => f a !! i).
Proof.
  intros Hw. induction l as [|a l IH]; intros j i Hi; [done|].
  rewrite bind_cons. destruct j as [|j].
  - simpl. rewrite lookup_app_l by (rewrite Hw; lia). done.
  - rewrite lookup_app_r by (rewrite Hw; lia). rewrite Hw.
    replace (S j * w + i - w)%nat with (j * w + i)%nat by lia.
    by rewrite IH.
Qed.

Lemma lookup_bind_singleton {T U} (g : T -> U) (l : list T) (i : nat) :
  (l ≫= fun a => [g a]) !! i = g <$> l !! i.
Proof.
  revert i. induction l as [|a l IH]; intros i; [done|].
  rewrite bind_cons. destruct i; simpl; [done|]. apply IH.
Qed.

Lemma length_bind_singleton {T U} (g : T -> U) (l : list T) :
  length (l ≫= fun a => [g a]) = length l.
Proof. induction l; [done|]. rewrite bind_cons. simpl. by f_equal. Qed.

Lemma lookup_cells q i j :
  0 <= i < m q -> 0 <= j < n q ->
  cells q !! Z.to_nat (j * m q + i) = Some (x (coord q) + i, y (coord q) + j).
Proof.
  intros Hi Hj. unfold cells.
  replace (Z.to_nat (j * m q + i))
    with (Z.to_nat j * Z.to_nat (m q) + Z.to_nat i)%nat by nia.
  rewrite (lookup_bind_blocks _ (Z.to_nat (m q)));
    [| intros; by rewrite length_bind_singleton, length_seqZ | lia].
  rewrite lookup_seqZ_lt by lia. simpl.
  rewrite lookup_bind_singleton, lookup_seqZ_lt by lia. simpl.
  do 2 f_equal; lia.
Qed.

Lemma lookup_cells_inv q (k : nat) c :
  0 <= n q -> 0 <= m q ->
  cells q !! k = Some c ->
  exists i j, 0 <= i < m q /\ 0 <= j < n q /\ Z.of_nat k = j * m q + i /\
              c = (x (coord q) + i, y (coord q) + j).
Proof.
  intros Hn Hm Hk. pose proof (lookup_lt_Some _ _ _ Hk) as Hlt.
  assert (Z.of_nat k < n q * m q) as Hlt' by (rewrite <- length_cells; lia).
  assert (0 < m q) by nia.
  exists (Z.of_nat k mod m q), (Z.of_nat k / m q).
  pose proof (Z.div_mod (Z.of_nat k) (m q) ltac:(lia)).
  pose proof (Z.mod_pos_bound (Z.of_nat k) (m q) ltac:(lia)).
  assert (0 <= Z.of_nat k / m q < n q).
  { split; [apply Z.div_pos; lia|]. apply Z.div_lt_upper_bound; lia. }
  split; [done|]. split; [done|]. split; [lia|].
  pose proof (lookup_cells q (Z.of_nat k mod m q) (Z.of_nat k / m q)
                ltac:(done) ltac:(done)) as Hc.
  replace (Z.to_nat (Z.of_nat k / m q * m q + Z.of_nat k mod m q)) with k in Hc by lia.
  congruence.
Qed.

Lemma raster_key_lt q i1 j1 i2 j2 :
  qs_ok q -> 0 <= i1 < m q -> 0 <= i2 < m q -> 0 <= j1 -> 0 <= j2 ->
  j1 * m q + i1 < j2 * m q + i2 ->
  raster_key (x (coord q) + i1, y (coord q) + j1)
  < raster_key (x (coord q) + i2, y (coord q) + j2).
Proof.
  intros (? & ? & ? & ? & ? & ?) Hi1 Hi2 Hj1 Hj2 Hlt.
  unfold raster_key. simpl. rewrite UINT_RANGE_eq in *.
  assert (j1 < j2 \/ (j1 = j2 /\ i1 < i2)) as [Hj | [-> Hi]] by nia; lia.
Qed.

(** The raster order of the cells is the order of [raster_key]. *)
Lemma cells_sorted q :
  qs_ok q ->
  StronglySorted (key_le raster_key) (cells q) /\ NoDup (raster_key <$> cells q).
Proof.
  intros Hok. apply sorted_by_lookup. intros k1 k2 a b Hk Ha Hb.
  pose proof Hok as (? & ? & _).
  apply lookup_cells_inv in Ha as (i1 & j1 & ? & ? & ? & ->); [|done..].
  apply lookup_cells_inv in Hb as (i2 & j2 & ? & ? & ? & ->); [|done..].
  apply raster_key_lt; try done; lia.
Qed.

Lemma HPoint_lt_true a b :
  is_hint (x a) -> is_hint (x b) ->
  HPoint_lt a b = true -> raster_key (coords a) <= raster_key (coords b).
Proof.
  unfold is_hint, HPoint_lt, HPoint_gt, raster_key, coords. simpl.
  rewrite UINT_RANGE_eq. intros ? ?.
  destruct (Z.ltb_spec (y b) (y a)); [done|].
  destruct (Z.eqb_spec (y b) (y a)); destruct (Z.ltb_spec (x b) (x a));
    simpl; intros; try done; lia.
Qed.

Lemma HPoint_lt_false a b :
  is_hint (x a) -> is_hint (x b) ->
  HPoint_lt a b = false -> raster_key (coords b) <= raster_key (coords a).
Proof.
  unfold is_hint, HPoint_lt, HPoint_gt, raster_key, coords. simpl.
  rewrite UINT_RANGE_eq. intros ? ?.
  destruct (Z.ltb_spec (y b) (y a)); [intros; lia|].
  destruct (Z.eqb_spec (y b) (y a)); destruct (Z.ltb_spec (x b) (x a));
    simpl; intros; try done; lia.
Qed.

(** Sorting the points of a curve by [operator<] puts them in raster
    order. *)
Lemma sort_raster q (l : list HPoint) :
  qs_ok q -> map coords l ≡ₚ cells q ->
  map coords (std_sort HPoint_lt l) = cells q.
Proof.
  intros Hok Hl. pose proof (cells_sorted q Hok) as [Hs Hn].
  rewrite map_fmap. symmetry.
  apply (sorted_unique raster_key); try done.
  - apply (StronglySorted_fmap _ (key_le (fun p => raster_key (coords p)))); [done|].
    apply (std_sort_sorted _ _ (fun p => is_hint (x p))).
    + intros a b. apply HPoint_lt_true.
    + intros a b. apply HPoint_lt_false.
    + apply Forall_forall. intros p Hp.
      assert (in_region q (x p) (y p)) as [? _].
      { apply elem_of_cells. rewrite <- Hl, map_fmap.
        apply list_elem_of_fmap. by exists p. }
      destruct Hok as (? & ? & ? & ? & ? & ?). unfold is_hint. lia.
  - rewrite <- Hl, !map_fmap. apply fmap_Permutation. symmetry. apply std_sort_perm.
Qed.

(** ** The difference map *)

Lemma assign_index_imap l : forall ind,
  0 <= ind -> ind + Z.of_nat (length l) <= UINT_RANGE ->
  assign_index ind l = imap (fun k p => set_index p (ind + Z.of_nat k)) l.
Proof.
  induction l as [|p l IH]; intros ind Hind Hlen; [done|].
  cbn [length] in Hlen. rewrite Nat2Z.inj_succ in Hlen.
  cbn [assign_index imap]. change (Z.of_nat 0) with 0. rewrite Z.add_0_r. f_equal.
  destruct l as [|p1 l]; [done|].
  cbn [length] in Hlen. rewrite Nat2Z.inj_succ in Hlen.
  rewrite wrap_small by lia. rewrite IH by (cbn [length]; lia).
  apply imap_ext. intros k p' _. unfold compose. f_equal. lia.
Qed.

Lemma traversal_index_from_lookup l : forall base (k : nat) p,
  NoDup (coords <$> l) -> l !! k = Some p ->
  traversal_index_from base l (coords p) = base + Z.of_nat k.
Proof.
  induction l as [|p0 l IH]; intros base k p Hnd Hk; [done|].
  rewrite fmap_cons in Hnd. apply NoDup_cons in Hnd as [Hnot Hnd].
  simpl. destruct k as [|k]; simpl in Hk.
  - injection Hk as ->. rewrite decide_True by done. lia.
  - rewrite decide_False.
    + rewrite (IH _ k) by done. lia.
    + intros Heq. apply Hnot. rewrite Heq.
      apply list_elem_of_fmap. exists p. split; [done|].
      by apply list_elem_of_lookup_2 with k.
Qed.

Lemma traversal_index_lookup l (k : nat) p :
  NoDup (coords <$> l) -> l !! k = Some p ->
  traversal_index l (coords p) = Z.of_nat k.
Proof. intros. unfold traversal_index. by rewrite (traversal_index_from_lookup l 0 k). Qed.

Lemma scored_0 sc l : scored sc 0 l = l.
Proof.
  unfold scored. apply list_eq. intros i. rewrite list_lookup_imap.
  by destruct (l !! i).
Qed.

Lemma index_at_scored sc k l pos : index_at (scored sc k l) pos = index_at l pos.
Proof.
  unfold index_at, vec_get. case_decide; [|done].
  unfold scored. rewrite list_lookup_imap.
  destruct (l !! Z.to_nat pos); [|done]. simpl. by case_match.
Qed.

Lemma foldl_seqZ_inv {S} (P : Z -> S -> Prop) (f : S -> Z -> S) (len : Z) :
  forall a st, 0 <= len -> P a st ->
  (forall i st, a <= i < a + len -> P i st -> P (i + 1) (f st i)) ->
  P (a + len) (foldl f st (seqZ a len)).
Proof.
  intros a st Hlen. revert a st.
  apply (natlike_ind (fun len => forall a st, P a st ->
    (forall i st0, a <= i < a + len -> P i st0 -> P (i + 1) (f st0 i)) ->
    P (a + len) (foldl f st (seqZ a len)))); [| |done].
  - intros a st HP _. rewrite seqZ_nil by lia. simpl. by rewrite Z.add_0_r.
  - intros len' Hlen' IH a st HP Hstep.
    rewrite seqZ_cons by lia. simpl.
    replace (Z.pred (Z.succ len')) with len' by lia.
    replace (a + Z.succ len') with (Z.succ a + len') by lia.
    apply IH.
    + replace (Z.succ a) with (a + 1) by lia. apply Hstep; [lia|done].
    + intros i st0 Hi. apply Hstep. lia.
Qed.

Ltac decide_region :=
  repeat match goal with
  | |- context [filter ?P (?c :: ?l)] =>
      first [ rewrite (filter_cons_True P c l) by solve_cells
            | rewrite (filter_cons_False P c l) by solve_cells ]
  | |- context [filter ?P []] => rewrite (filter_nil P)
  end.

(** What the eight guarded reads compute for the raster cell [(i, j)], on
    any vector that holds at the raster position of each cell the traversal
    index of that cell. *)
Lemma cell_difference_score q (curve l : list HPoint) i j :
  qs_ok q ->
  (forall i' j', 0 <= i' < m q -> 0 <= j' < n q ->
     index_at curve (j' * m q + i')
     = Some (traversal_index l (x (coord q) + i', y (coord q) + j'))) ->
  0 <= i < m q -> 0 <= j < n q ->
  cell_difference curve (m q) (n q) i j
  = Some (discontinuity_score q l (x (coord q) + i, y (coord q) + j)).
Proof.
  intros Hok Hidx Hi Hj. pose proof Hok as (? & ? & ? & ? & ? & ?).
  assert (forall pos i' j', pos = j' * m q + i' -> 0 <= i' < m q -> 0 <= j' < n q ->
            index_at curve pos
            = Some (traversal_index l (x (coord q) + i', y (coord q) + j')))
    as Hat by (intros ? ? ? ->; apply Hidx).
  unfold cell_difference, add_neighbour.
  rewrite (Hat (j * m q + i) i j) by lia. cbn [mbind option_bind].
  rewrite !wrap_small by lia.
  unfold discontinuity_score, neighbours.
  set (T := traversal_index l) in *.
  destruct (Z.ltb_spec i (m q - 1)); destruct (Z.ltb_spec 0 i);
    destruct (Z.ltb_spec j (n q - 1)); destruct (Z.ltb_spec 0 j);
    cbn [andb];
    rewrite ?(Hat (j * m q + i + 1) (i + 1) j),
      ?(Hat (j * m q + i - 1) (i - 1) j),
      ?(Hat ((j + 1) * m q + i) i (j + 1)),
      ?(Hat ((j - 1) * m q + i) i (j - 1)),
      ?(Hat ((j + 1) * m q + i + 1) (i + 1) (j + 1)),
      ?(Hat ((j + 1) * m q + i - 1) (i - 1) (j + 1)),
      ?(Hat ((j - 1) * m q + i + 1) (i + 1) (j - 1)),
      ?(Hat ((j - 1) * m q + i - 1) (i - 1) (j - 1)) by lia;
    cbn [mbind option_bind fst snd];
    decide_region;
    cbn [map sum_Z foldr length fst snd];
    rewrite ?hf_of_Z_fabs_sub; change hf_zero with (hf_of_Z 0);
    rewrite ?hf_of_Z_add;
    f_equal; f_equal; f_equal;
    rewrite ?Nat2Z.inj_succ; simpl Z.of_nat;
    rewrite <- ?Z.add_sub_assoc, <- ?Z.add_assoc;
    repeat match goal with
    | |- context [T (?a, ?b)] =>
        let v := fresh "t" in
        generalize (T (a, b)); intros v
    end; lia.
Qed.

Lemma discontinuity_score_not_infinite q l c :
  not_infinite (discontinuity_score q l c).
Proof.
  unfold discontinuity_score.
  destruct (neighbours q c) as [|c' nb]; [done|].
  apply hf_div_not_infinite; [done|]. cbn [length]. lia.
Qed.

Section BuildDifference.
Variable hc : HilbertCurve.
Hypothesis Hok : qs_ok (qs hc).
Hypothesis Hsize : n (qs hc) * m (qs hc) < UINT_RANGE.
Hypothesis Hfill : curve_fills hc.

Local Abbreviation q := (qs hc).
Local Abbreviation l := (m_curve hc).
Local Abbreviation sorted := (std_sort HPoint_lt (assign_index 0 l)).

Lemma curve_length : Z.of_nat (length l) = n q * m q.
  Proof.
    destruct Hok as (? & ? & _).
    rewrite <- (length_cells q) by done.
    unfold curve_fills in Hfill. rewrite <- Hfill, length_map. done.
  Qed.

Lemma curve_NoDup : NoDup (coords <$> l).
  Proof.
    unfold curve_fills in Hfill. rewrite <- map_fmap, Hfill. apply NoDup_cells.
  Qed.

Lemma assign_index_curve :
    assign_index 0 l = imap (fun k p => set_index p (Z.of_nat k)) l.
  Proof.
    rewrite assign_index_imap by (rewrite ?curve_length; lia).
    apply imap_ext. intros. f_equal.
  Qed.

Lemma sorted_coords : map coords sorted = cells q.
  Proof.
    apply sort_raster; [done|].
    rewrite assign_index_curve.
    assert (map coords (imap (fun k p => set_index p (Z.of_nat k)) l)
            = map coords l) as ->; [|exact Hfill].
    rewrite !map_fmap. apply list_eq. intros k.
    rewrite !list_lookup_fmap, list_lookup_imap. by destruct (l !! k).
  Qed.

Lemma sorted_length : length sorted = length l.
  Proof.
    rewrite (Permutation_length (std_sort_perm _ _)).
    rewrite assign_index_curve. apply length_imap.
  Qed.

Lemma sorted_lookup (pos : nat) p :
    sorted !! pos = Some p ->
    cells q !! pos = Some (coords p) /\
    index p = traversal_index l (coords p).
  Proof.
    intros Hp. split.
    { rewrite <- sorted_coords, map_fmap, list_lookup_fmap, Hp. done. }
    assert (p ∈ assign_index 0 l) as Hin.
    { rewrite <- (std_sort_perm HPoint_lt). by apply list_elem_of_lookup_2 with pos. }
    rewrite assign_index_curve in Hin.
    apply list_elem_of_lookup in Hin as [k Hk].
    rewrite list_lookup_imap in Hk.
    destruct (l !! k) as [p0|] eqn:Hp0; [|done]. injection Hk as <-.
    simpl. change (coords (set_index p0 (Z.of_nat k))) with (coords p0).
    symmetry. apply traversal_index_lookup; [apply curve_NoDup|done].
  Qed.

Lemma sorted_index_at i j :
    0 <= i < m q -> 0 <= j < n q ->
    index_at sorted (j * m q + i)
    = Some (traversal_index l (x (coord q) + i, y (coord q) + j)).
  Proof.
    intros Hi Hj. unfold index_at, vec_get. rewrite decide_True by nia.
    destruct (sorted !! Z.to_nat (j * m q + i)) as [p|] eqn:Hp.
    - apply sorted_lookup in Hp as [Hc Hidx].
      rewrite lookup_cells in Hc by done.
      assert (coords p = (x (coord q) + i, y (coord q) + j)) as Hcp by congruence.
      simpl. rewrite Hidx, Hcp. done.
    - apply lookup_ge_None in Hp. rewrite sorted_length in Hp.
      pose proof curve_length. nia.
  Qed.

Lemma raster_score_at i j :
    0 <= i < m q -> 0 <= j < n q ->
    raster_score q l (Z.to_nat (j * m q + i))
    = discontinuity_score q l (x (coord q) + i, y (coord q) + j).
  Proof. intros. unfold raster_score. by rewrite lookup_cells. Qed.

  (** One turn of the inner loop. *)
Lemma difference_step_correct i j :
    0 <= i < m q -> 0 <= j < n q ->
    difference_step (m q) (n q) j
      (Some (difference_state_at q l sorted (j * m q + i))) i
    = Some (difference_state_at q l sorted (j * m q + i + 1)).
  Proof.
    intros Hi Hj. unfold difference_step, difference_state_at.
    assert (0 <= j * m q + i) as Hpos by nia.
    assert (Z.to_nat (j * m q + i) < length sorted)%nat as Hlt.
    { rewrite sorted_length. pose proof curve_length. nia. }
    destruct (lookup_lt_is_Some_2 _ _ Hlt) as [p Hp].
    replace (Z.to_nat (j * m q + i + 1)) with (S (Z.to_nat (j * m q + i))) by lia.
    rewrite seq_S, map_app, foldl_app. cbn [map foldl Nat.add].
    rewrite raster_score_at by done.
    destruct (foldl running_mean (hf_zero, 0)
                (map (raster_score q l) (seq 0 (Z.to_nat (j * m q + i)))))
      as [mean k0].
    cbn [mbind option_bind].
    rewrite (cell_difference_score q _ l); try done.
    2:{ intros i' j' ? ?. rewrite index_at_scored. by apply sorted_index_at. }
    cbn [mbind option_bind].
    set (k := Z.to_nat (j * m q + i)) in *.
    assert (vec_get (scored (raster_score q l) k sorted) (j * m q + i) = Some p) as ->.
    { unfold vec_get. rewrite decide_True by done. fold k.
      unfold scored. rewrite list_lookup_imap, Hp. simpl.
      by rewrite Nat.ltb_irrefl. }
    cbn [mbind option_bind].
    unfold vec_set. rewrite decide_True.
    2:{ unfold scored. rewrite length_imap. lia. }
    cbn [mbind option_bind]. fold k. f_equal. f_equal.
    apply list_eq. intros pos. unfold scored.
    destruct (decide (pos = k)) as [->|Hne].
    - rewrite list_lookup_insert_eq by (rewrite length_imap; lia).
      rewrite list_lookup_imap, Hp. simpl.
      replace (k <? S k)%nat with true by (symmetry; apply Nat.ltb_lt; lia).
      unfold k. rewrite raster_score_at by done. done.
    - rewrite list_lookup_insert_ne by done.
      rewrite !list_lookup_imap. destruct (sorted !! pos); [|done]. simpl.
      destruct (Nat.ltb_spec pos k), (Nat.ltb_spec pos (S k)); try done; lia.
  Qed.

  (** One turn of the outer loop: a whole row. *)
Lemma difference_row_correct j :
    0 <= j < n q ->
    difference_row (m q) (n q)
      (Some (difference_state_at q l sorted (j * m q))) j
    = Some (difference_state_at q l sorted ((j + 1) * m q)).
  Proof.
    intros Hj. unfold difference_row. destruct Hok as (? & ? & _).
    pose proof (foldl_seqZ_inv
      (fun i st => st = Some (difference_state_at q l sorted (j * m q + i)))
      (difference_step (m q) (n q) j) (m q) 0
      (Some (difference_state_at q l sorted (j * m q)))) as Hinv.
    simpl in Hinv. replace ((j + 1) * m q) with (j * m q + m q) by lia.
    apply Hinv; [done|by rewrite Z.add_0_r|].
    intros i st Hi ->. rewrite Z.add_assoc. apply difference_step_correct; lia.
  Qed.

Lemma difference_loops_correct :
    foldl (difference_row (m q) (n q))
      (Some (sorted, (hf_zero, 0))) (seqZ 0 (n q))
    = Some (difference_state_at q l sorted (n q * m q)).
  Proof.
    destruct Hok as (? & ? & _).
    pose proof (foldl_seqZ_inv
      (fun j st => st = Some (difference_state_at q l sorted (j * m q)))
      (difference_row (m q) (n q)) (n q) 0
      (Some (sorted, (hf_zero, 0)))) as Hinv.
    simpl in Hinv. apply Hinv; [done| |].
    - unfold difference_state_at. simpl. by rewrite scored_0.
    - intros j st Hj ->. apply difference_row_correct. lia.
  Qed.
End BuildDifference.

Lemma arithmetic_mean_perm l1 l2 :
  l1 ≡ₚ l2 -> arithmetic_mean l1 = arithmetic_mean l2.
Proof.
  intros Hp. unfold arithmetic_mean.
  by rewrite (hf_sum_perm _ _ Hp), (Permutation_length Hp).
Qed.

Lemma indexCmp_true a b : True -> True -> indexCmp a b = true -> index a <= index b.
Proof. unfold indexCmp. intros _ _ H. apply Z.ltb_lt in H. lia. Qed.

Lemma indexCmp_false a b : True -> True -> indexCmp a b = false -> index b <= index a.
Proof. unfold indexCmp. intros _ _ H. apply Z.ltb_ge in H. lia. Qed.

Section BuildDifference_result.
Variable hc : HilbertCurve.
Hypothesis Hok : qs_ok (qs hc).
Hypothesis Hn : 1 <= n (qs hc).
Hypothesis Hm : 1 <= m (qs hc).
Hypothesis Hsize : n (qs hc) * m (qs hc) < UINT_RANGE.
Hypothesis Hfill : curve_fills hc.

Local Abbreviation q := (qs hc).
Local Abbreviation l := (m_curve hc).
Local Abbreviation sorted := (std_sort HPoint_lt (assign_index 0 l)).
Local Abbreviation score_of :=
    (fun p => set_difference p (discontinuity_score q l (coords p))).

Lemma scored_all :
    scored (raster_score q l) (Z.to_nat (n q * m q)) sorted = score_of <$> sorted.
  Proof.
    apply list_eq. intros pos. unfold scored.
    rewrite list_lookup_imap, list_lookup_fmap.
    destruct (sorted !! pos) as [p|] eqn:Hp; [|done]. simpl.
    pose proof (lookup_lt_Some _ _ _ Hp) as Hlt.
    rewrite sorted_length in Hlt by done.
    pose proof (curve_length hc Hok Hfill).
    replace (pos <? Z.to_nat (n q * m q))%nat with true
      by (symmetry; apply Nat.ltb_lt; lia).
    apply sorted_lookup in Hp as [Hc _]; try done.
    unfold raster_score. by rewrite Hc.
  Qed.

Lemma with_difference_alt :
    imap (with_difference q l) l = score_of <$> assign_index 0 l.
  Proof.
    rewrite assign_index_curve by done. apply list_eq. intros k.
    rewrite list_lookup_fmap, !list_lookup_imap. by destruct (l !! k).
  Qed.

Lemma with_difference_sorted :
    StronglySorted (key_le index) (imap (with_difference q l) l) /\
    NoDup (index <$> imap (with_difference q l) l).
  Proof.
    apply sorted_by_lookup. intros i j a b Hij Ha Hb.
    rewrite list_lookup_imap in Ha, Hb.
    destruct (l !! i); [|done]. destruct (l !! j); [|done].
    simpl in Ha, Hb. injection Ha as <-. injection Hb as <-. simpl. lia.
  Qed.

Lemma final_sort :
    std_sort indexCmp (score_of <$> sorted) = imap (with_difference q l) l.
  Proof.
    destruct with_difference_sorted as [Hs Hnd].
    apply (std_sort_unique index indexCmp (fun _ => True)); try done.
    - apply indexCmp_true.
    - apply indexCmp_false.
    - by apply Forall_forall.
    - rewrite with_difference_alt. apply fmap_Permutation, std_sort_perm.
  Qed.

Lemma raster_scores :
    map (raster_score q l) (seq 0 (Z.to_nat (n q * m q)))
    = map (discontinuity_score q l) (cells q).
  Proof.
    pose proof (length_cells q ltac:(lia) ltac:(lia)) as Hlen.
    rewrite !map_fmap. apply list_eq. intros pos.
    rewrite !list_lookup_fmap. unfold raster_score.
    destruct (cells q !! pos) as [c|] eqn:Hc.
    - pose proof (lookup_lt_Some _ _ _ Hc).
      rewrite lookup_seq_lt by lia. simpl. by rewrite Hc.
    - apply lookup_ge_None in Hc. rewrite lookup_seq_ge by lia. done.
  Qed.

Lemma final_mean :
    arithmetic_mean (map (raster_score q l) (seq 0 (Z.to_nat (n q * m q))))
    = arithmetic_mean (map difference (imap (with_difference q l) l)).
  Proof.
    rewrite raster_scores. apply arithmetic_mean_perm.
    assert (map difference (imap (with_difference q l) l)
            = map (discontinuity_score q l) (map coords l)) as ->.
    { rewrite !map_fmap. apply list_eq. intros k.
      rewrite !list_lookup_fmap, list_lookup_imap. by destruct (l !! k). }
    apply Permutation_map. symmetry. exact Hfill.
  Qed.

  (** [BuildDifference] on a curve that fills its region: the points keep
      their order and their coordinates, point number [k] gets the index
      [k] and the score of its cell, and the mean is the mean of the
      scores. *)
Lemma BuildDifference_correct :
    BuildDifference hc
    = Some (mkHC q (m_type hc) (imap (with_difference q l) l)
              (arithmetic_mean
                 (map difference (imap (with_difference q l) l)))).
  Proof.
    unfold BuildDifference, width, height.
    rewrite difference_loops_correct by done.
    unfold difference_state_at.
    rewrite running_mean_correct.
    - cbn [mbind option_bind]. f_equal.
      rewrite scored_all, final_sort, final_mean. done.
    - rewrite raster_scores. apply Forall_forall.
      intros v Hv. rewrite map_fmap in Hv.
      apply list_elem_of_fmap in Hv as (c & -> & _).
      apply discontinuity_score_not_infinite.
    - assert (0 < Z.to_nat (n q * m q))%nat as Hpos by nia.
      destruct (Z.to_nat (n q * m q)); [lia|done].
  Qed.
  (** The mean as the loops compute it: the running mean of the scores of
      the raster cells, row after row. *)
Lemma mean_as_computed :
    arithmetic_mean (map difference (imap (with_difference q l) l))
    = fst (foldl running_mean (hf_zero, 0)
             (map (discontinuity_score q l) (cells q))).
  Proof.
    rewrite <- final_mean, raster_scores, running_mean_correct; [done| |].
    - apply Forall_forall. intros v Hv. rewrite map_fmap in Hv.
      apply list_elem_of_fmap in Hv as (c & -> & _).
      apply discontinuity_score_not_infinite.
    - pose proof (length_cells q ltac:(lia) ltac:(lia)) as Hlen.
      intros He. apply (f_equal length) in He.
      rewrite length_map in He. simpl in He. nia.
  Qed.
End BuildDifference_result.

(** ** The constructor *)

Lemma with_difference_fills hc :
  curve_fills hc ->
  map coords (imap (with_difference (qs hc) (m_curve hc)) (m_curve hc))
  = map coords (m_curve hc).
Proof.
  intros _. rewrite !map_fmap. apply list_eq. intros k.
  rewrite !list_lookup_fmap, list_lookup_imap. by destruct (m_curve hc !! k).
Qed.

Lemma HilbertCurve_new_difference fuel w h t c o :
  HilbertCurve_new (S fuel) w h t c o true
  = this ← HilbertCurve_new (S fuel) w h t c o false;
    reflectY <$> BuildDifference this.
Proof.
  cbn [HilbertCurve_new].
  by destruct (match production t with Some _ => _ | None => _ end).
Qed.

(** The constructor returns a curve of the requested shape that fills its
    region, with or without the difference map. *)
Lemma new_HilbertCurve_fills w h t c o d :
  qs_ok (mkQS h w c o) -> 1 <= w -> 1 <= h -> w * h < UINT_RANGE ->
  exists hc, new_HilbertCurve w h t c o d = Some hc /\
             qs hc = mkQS h w c o /\ m_type hc = t /\ curve_fills hc.
Proof.
  intros Hok Hw Hh Hsize. unfold new_HilbertCurve, HilbertCurve_fuel.
  assert (rank t < 3)%nat as Hrank by (destruct t; simpl; lia).
  destruct (HilbertCurve_new_fills 3 w h t c o Hrank Hok Hsize)
    as (hc & Hnew & Hq & Ht & Hf).
  destruct d; [|by exists hc].
  rewrite HilbertCurve_new_difference, Hnew. cbn [mbind option_bind].
  rewrite BuildDifference_correct by (rewrite ?Hq; simpl; (done || lia)).
  cbn [fmap option_fmap option_map].
  eexists. split; [done|]. split; [by rewrite Hq|]. split; [done|].
  apply reflectY_fills; [simpl; by rewrite Hq|].
  unfold curve_fills. simpl.
  rewrite with_difference_fills by done. exact Hf.
Qed.

Lemma curve_fills_grid hc w h o :
  qs hc = mkQS h w (HPoint_n 0) o -> 0 <= w -> 0 <= h ->
  curve_fills hc -> grid_bijection (m_curve hc) w h.
Proof.
  intros Hq Hw Hh Hf. unfold curve_fills in Hf. rewrite Hq in Hf.
  unfold grid_bijection. split; [|split].
  - rewrite <- (length_map coords), Hf.
    rewrite length_cells by done. simpl. lia.
  - rewrite Hf. apply NoDup_cells.
  - intros a b. rewrite Hf, elem_of_cells. unfold in_region. simpl. lia.
Qed.


(** C5 (amended): [BuildDifference] on a curve that fills a region of
    width [w] and height [h]: the [w * h] points end in traversal order,
    point number [k] gets the index [k] and as difference the sum of the
    absolute index distances to its existing neighbours divided by their
    number, and the stored mean is what the update
    [mean = mean + (score - mean) / ++k] leaves after the scores of the
    raster cells, taken row after row.  (With [double] operations this
    running mean need not be the arithmetic mean of the scores, see
    [BuildDifference_mean_binary64].) *)
Theorem BuildDifference_scores (hc : HilbertCurve) :
  qs_ok (qs hc) -> 1 <= width hc -> 1 <= height hc ->
  width hc * height hc < UINT_RANGE -> curve_fills hc ->
  exists hc',
    BuildDifference hc = Some hc' /\
    qs hc' = qs hc /\
    Z.of_nat (length (m_curve hc')) = width hc * height hc /\
    (forall (k : nat) p, m_curve hc !! k = Some p ->
       m_curve hc' !! k
       = Some (mkHPoint (x p) (y p)
                 (discontinuity_score (qs hc) (m_curve hc) (coords p))
                 (Z.of_nat k))) /\
    m_mean_difference hc'
    = fst (foldl running_mean (hf_zero, 0)
             (map (discontinuity_score (qs hc) (m_curve hc))
                  (cells (qs hc)))).
Proof.
  unfold width, height. intros Hok Hw Hh Hsize Hf.
  rewrite BuildDifference_correct by (done || lia).
  eexists. split; [done|]. simpl. split; [done|].
  split; [|split].
  - rewrite length_imap, (curve_length hc Hok Hf). lia.
  - intros k p Hk. by rewrite list_lookup_imap, Hk.
  - apply mean_as_computed; (done || lia).
Qed.

Lemma mirror_twice a c z :
  is_hint z -> wrap (a - 1 - wrap (a - 1 - z + 2 * c) + 2 * c) = z.
Proof.
  intros Hz.
  replace (a - 1 - wrap (a - 1 - z + 2 * c) + 2 * c)
    with (a - 1 + 2 * c - wrap (a - 1 - z + 2 * c)) by lia.
  rewrite wrap_sub_r.
  replace (a - 1 + 2 * c - (a - 1 - z + 2 * c)) with z by lia.
  by apply wrap_small.
Qed.

Lemma reflectX_involutive hc :
  Forall is_hpoint (m_curve hc) -> reflectX (reflectX hc) = hc.
Proof.
  intros Hpts. destruct hc as [q t l md]. unfold reflectX at 1.
  rewrite for_each_parallel_map.
  rewrite reflectX_curve. simpl. unfold set_curve. simpl. f_equal.
  rewrite map_map. rewrite <- (map_id l) at 2.
  apply map_ext_in. intros [px py pd pi] Hp%list_elem_of_In.
  rewrite Forall_forall in Hpts. destruct (Hpts _ Hp) as [Hx Hy].
  unfold set_X. simpl in *. f_equal.
  rewrite wrap_add_l, wrap_add_r.
  replace (wrap (m q - 1) - wrap (m q - 1 - px + 2 * x (coord q)) + 2 * x (coord q))
    with (wrap (m q - 1) + (2 * x (coord q) - wrap (m q - 1 - px + 2 * x (coord q))))
    by lia.
  rewrite wrap_add_l.
  replace (m q - 1 + (2 * x (coord q) - wrap (m q - 1 - px + 2 * x (coord q))))
    with (m q - 1 - wrap (m q - 1 - px + 2 * x (coord q)) + 2 * x (coord q)) by lia.
  by apply mirror_twice.
Qed.

Lemma reflectY_involutive hc :
  Forall is_hpoint (m_curve hc) -> reflectY (reflectY hc) = hc.
Proof.
  intros Hpts. destruct hc as [q t l md]. unfold reflectY at 1.
  rewrite for_each_parallel_map.
  rewrite reflectY_curve. simpl. unfold set_curve. simpl. f_equal.
  rewrite map_map. rewrite <- (map_id l) at 2.
  apply map_ext_in. intros [px py pd pi] Hp%list_elem_of_In.
  rewrite Forall_forall in Hpts. destruct (Hpts _ Hp) as [Hx Hy].
  unfold set_Y. simpl in *. f_equal.
  rewrite wrap_add_l, wrap_add_r.
  replace (wrap (n q - 1) - wrap (n q - 1 - py + 2 * y (coord q)) + 2 * y (coord q))
    with (wrap (n q - 1) + (2 * y (coord q) - wrap (n q - 1 - py + 2 * y (coord q))))
    by lia.
  rewrite wrap_add_l.
  replace (n q - 1 + (2 * y (coord q) - wrap (n q - 1 - py + 2 * y (coord q))))
    with (n q - 1 - wrap (n q - 1 - py + 2 * y (coord q)) + 2 * y (coord q)) by lia.
  by apply mirror_twice.
Qed.

Lemma reverse_involutive hc : reverse (reverse hc) = hc.
Proof.
  destruct hc as [q t l md]. unfold reverse, set_curve. simpl.
  by rewrite !reverse_parallel_rev, rev_involutive.
Qed.

(** C9: reversing a curve twice gives the curve back, and so does mirroring
    it twice (the coordinates being [hint] values). *)
Theorem reverse_reflect_involutive (hc : HilbertCurve) :
  Forall is_hpoint (m_curve hc) ->
  reverse (reverse hc) = hc /\ reflect (reflect hc) = hc.
Proof.
  intros Hpts. split; [apply reverse_involutive|].
  unfold reflect.
  destruct (oABCD (qs hc)) eqn:Ho; simpl; rewrite ?Ho;
    auto using reflectX_involutive, reflectY_involutive.
Qed.

(** ** bestDimensions *)

Lemma to_int_wrap z : - 2 ^ 31 <= z < 2 ^ 31 -> to_int (wrap z) = z.
Proof.
  intros Hz. unfold to_int, wrap. rewrite UINT_RANGE_eq in *.
  destruct (Z.ltb_spec (z mod 4294967296) (2 ^ 31)) as [Hlt|Hge].
  - destruct (Z.le_gt_cases 0 z) as [Hpos|Hneg].
    + apply Z.mod_small. lia.
    + rewrite <- (Z.mod_add z 1) in Hlt by lia.
      rewrite Z.mod_small in Hlt by lia. lia.
  - destruct (Z.le_gt_cases 0 z) as [Hpos|Hneg].
    + rewrite Z.mod_small in Hge by lia. lia.
    + rewrite <- (Z.mod_add z 1) by lia.
      rewrite Z.mod_small by lia. lia.
Qed.

Lemma sqrt_hint L : 0 <= L < UINT_RANGE -> 0 <= Z.sqrt L < 65536.
Proof.
  rewrite UINT_RANGE_eq. intros HL. split; [apply Z.sqrt_nonneg|].
  apply Z.sqrt_lt_square; lia.
Qed.

(** The three differences of [bestDimensions] are the padding wastes: the
    [unsigned] subtractions and the conversions to [int] lose nothing. *)
Lemma bestDimensions_exact L :
  0 <= L < UINT_RANGE ->
  let f := Z.sqrt L in
  let c := f + 1 in
  bestDimensions L
  = if f * f =? L then (f, f)
    else if waste L (f, f) <? waste L (c, c)
         then (if waste L (f, f) <? waste L (c, f) then (f, f) else (c, f))
         else (if waste L (c, c) <? waste L (c, f) then (c, c) else (c, f)).
Proof.
  intros HL f c. pose proof (sqrt_hint L HL) as Hf.
  pose proof (Z.sqrt_spec L (proj1 HL)) as Hs. fold f in Hf, Hs.
  unfold Z.succ in Hs. unfold bestDimensions. fold f. fold c.
  assert (wrap (f * f) = f * f) as Hff by (apply wrap_small; rewrite UINT_RANGE_eq; nia).
  assert (forall z, wrap (L - wrap z) = wrap (L - z)) as Hsub
    by (intros; apply wrap_sub_r).
  rewrite !Hsub, Hff. unfold waste, c. simpl fst. simpl snd.
  rewrite !to_int_wrap by nia.
  by replace ((f + 1) * f) with (f * (f + 1)) by lia.
Qed.

(** C4 (as the code has it): on a perfect square [s * s] the function
    returns [(s, s)]; otherwise, with [f] and [c] the floor and the ceiling
    of the square root, it returns the one of [(f, f)], [(c, c)], [(c, f)]
    of least padding waste; [bestDimensions 25 = (5, 5)], and
    [bestDimensions 24 = (5, 5)] is the least wasteful of [(4, 4)],
    [(5, 5)] and [(5, 4)]. *)
Theorem bestDimensions_least_waste (L : Z) :
  0 <= L < UINT_RANGE ->
  let f := Z.sqrt L in
  let c := if f * f =? L then f else f + 1 in
  f * f <= L < (f + 1) * (f + 1) /\
  (forall s, 0 <= s -> s * s = L -> bestDimensions L = (s, s)) /\
  (f * f <> L ->
   bestDimensions L ∈ [(f, f); (c, c); (c, f)] /\
   forall dim, dim ∈ [(f, f); (c, c); (c, f)] ->
               waste L (bestDimensions L) <= waste L dim) /\
  bestDimensions 25 = (5, 5) /\
  bestDimensions 24 = (5, 5).
Proof.
  intros HL f c. pose proof (Z.sqrt_spec L (proj1 HL)) as Hs.
  fold f in Hs. unfold Z.succ in Hs.
  split; [done|]. split; [|split; [|by vm_compute]].
  - intros s Hs0 Hsq. rewrite bestDimensions_exact by done.
    assert (Z.sqrt L = s) as -> by (rewrite <- Hsq; by apply Z.sqrt_square).
    by rewrite (proj2 (Z.eqb_eq _ _) Hsq).
  - intros Hne. rewrite bestDimensions_exact by done. fold f.
    unfold c. destruct (Z.eqb_spec (f * f) L) as [|_]; [done|].
    repeat match goal with
           | |- context [?a <? ?b] => destruct (Z.ltb_spec a b)
           end;
      (split; [rewrite !elem_of_cons; tauto|]);
      intros dim Hdim; repeat (apply elem_of_cons in Hdim as [->|Hdim]);
        try (by apply elem_of_nil in Hdim); lia.
Qed.

(** C4, counterexample: for the length 24 the candidate [(4, 6)] of the
    claim wastes nothing, and the function returns [(5, 5)], which wastes
    one cell. *)
Lemma bestDimensions_24 :
  bestDimensions 24 = (5, 5) /\
  waste 24 (4, 6) < waste 24 (bestDimensions 24) /\
  ~ (forall dim, dim ∈ [(5, 5); (4, 6); (4, 5)] ->
                 waste 24 (bestDimensions 24) <= waste 24 dim).
Proof.
  split; [by vm_compute|]. split; [by vm_compute|].
  intros Hmin. specialize (Hmin (4, 6)).
  assert ((4, 6) ∈ [(5, 5); (4, 6); (4, 5)]) as Hin
    by (rewrite !elem_of_cons; tauto).
  apply Hmin in Hin. vm_compute in Hin. by apply Hin.
Qed.

(** ** replaceData *)

Lemma Qc_ltb_lt a b : Qc_ltb a b = true <-> (a < b)%Qc.
Proof.
  unfold Qc_ltb, Qclt. rewrite Qlt_alt. unfold Qccompare.
  destruct (this a ?= this b)%Q; split; congruence.
Qed.

Lemma Qc_ltb_trans a b c :
  Qc_ltb a b = true -> Qc_ltb b c = true -> Qc_ltb a c = true.
Proof. rewrite !Qc_ltb_lt. apply Qclt_trans. Qed.

Lemma hf_ltb_trans a b c :
  hf_ltb a b = true -> hf_ltb b c = true -> hf_ltb a c = true.
Proof.
  destruct a as [p|s|], b as [q|t|], c as [r|u|]; simpl; try done;
    try apply Qc_ltb_trans;
    repeat match goal with b : bool |- _ => destruct b end; done.
Qed.

Lemma hf_ltb_irrefl a : hf_ltb a a = false.
Proof.
  destruct a as [p|s|]; simpl; try done.
  - destruct (Qc_ltb p p) eqn:Hlt; [|done].
    apply Qc_ltb_lt in Hlt. by apply Qlt_irrefl in Hlt.
  - by destruct s.
Qed.

(** [min] returns an element that no element is less than. *)
Lemma DataSequence_min_least data :
  data <> [] ->
  exists mn, DataSequence_min data = Some mn /\ mn ∈ data /\
             forall v, v ∈ data -> hf_ltb v mn = false.
Proof.
  destruct data as [|v0 rest]; [done|]. intros _. simpl.
  eexists. split; [done|].
  assert (forall seen acc,
            acc ∈ seen -> (forall v, v ∈ seen -> hf_ltb v acc = false) ->
            let r := foldl (fun smallest it =>
                              if hf_ltb it smallest then it else smallest)
                           acc rest in
            r ∈ seen ++ rest /\
            forall v, v ∈ seen ++ rest -> hf_ltb v r = false) as Hinv.
  { induction rest as [|it rest IH]; intros seen acc Hin Hle; simpl.
    - by rewrite app_nil_r.
    - replace (seen ++ it :: rest) with ((seen ++ [it]) ++ rest)
        by (by rewrite <- app_assoc).
      apply IH.
      + destruct (hf_ltb it acc); rewrite elem_of_app, list_elem_of_singleton; auto.
      + intros v [Hv| ->%list_elem_of_singleton]%elem_of_app.
        * destruct (hf_ltb it acc) eqn:Hlt; [|by apply Hle].
          destruct (hf_ltb v it) eqn:Hv'; [|done].
          rewrite <- (Hle v Hv). symmetry. by eapply hf_ltb_trans.
        * destruct (hf_ltb it acc) eqn:Hlt; [apply hf_ltb_irrefl|done]. }
  apply (Hinv [v0] v0).
  - apply list_elem_of_singleton. done.
  - intros v ->%list_elem_of_singleton. apply hf_ltb_irrefl.
Qed.

(** [max] returns an element that is less than no element. *)
Lemma DataSequence_max_greatest data :
  data <> [] ->
  exists mx, DataSequence_max data = Some mx /\ mx ∈ data /\
             forall v, v ∈ data -> hf_ltb mx v = false.
Proof.
  destruct data as [|v0 rest]; [done|]. intros _. simpl.
  eexists. split; [done|].
  assert (forall seen acc,
            acc ∈ seen -> (forall v, v ∈ seen -> hf_ltb acc v = false) ->
            let r := foldl (fun largest it =>
                              if hf_ltb largest it then it else largest)
                           acc rest in
            r ∈ seen ++ rest /\
            forall v, v ∈ seen ++ rest -> hf_ltb r v = false) as Hinv.
  { induction rest as [|it rest IH]; intros seen acc Hin Hle; simpl.
    - by rewrite app_nil_r.
    - replace (seen ++ it :: rest) with ((seen ++ [it]) ++ rest)
        by (by rewrite <- app_assoc).
      apply IH.
      + destruct (hf_ltb acc it); rewrite elem_of_app, list_elem_of_singleton; auto.
      + intros v [Hv| ->%list_elem_of_singleton]%elem_of_app.
        * destruct (hf_ltb acc it) eqn:Hlt; [|by apply Hle].
          destruct (hf_ltb it v) eqn:Hv'; [|done].
          rewrite <- (Hle v Hv). symmetry. by eapply hf_ltb_trans.
        * destruct (hf_ltb acc it) eqn:Hlt; [apply hf_ltb_irrefl|done]. }
  apply (Hinv [v0] v0).
  - apply list_elem_of_singleton. done.
  - intros v ->%list_elem_of_singleton. apply hf_ltb_irrefl.
Qed.

Lemma Qc_eqb_true a b : Qc_eqb a b = true <-> a = b.
Proof.
  unfold Qc_eqb. split.
  - destruct (a ?= b)%Qc eqn:Hc; try done. intros _. by apply Qceq_alt.
  - intros ->. assert ((b ?= b)%Qc = Eq) as -> by (by apply Qceq_alt). done.
Qed.

Lemma Qc_ltb_inv q : q <> 0%Qc -> Qc_ltb (1 / q) 0 = Qc_ltb q 0.
Proof.
  intros Hq.
  destruct (Qc_ltb q 0) eqn:Hlt.
  - apply Qc_ltb_lt. apply Qc_ltb_lt in Hlt.
    unfold Qclt in *. simpl in *. rewrite Qred_correct.
    rewrite Qmult_1_l. rewrite Qred_correct.
    destruct q as [[[|qn|qn] qd] Hc]; simpl in *; try done.
  - destruct (Qc_ltb (1 / q) 0) eqn:Hlt'; [|done].
    exfalso. apply Qc_ltb_lt in Hlt'.
    assert (~ (q < 0)%Qc) as Hge by (rewrite <- Qc_ltb_lt; congruence).
    apply Hge. unfold Qclt in *. simpl in *.
    rewrite Qred_correct, Qmult_1_l, Qred_correct in Hlt'.
    destruct q as [[[|qn|qn] qd] Hc]; simpl in *; try done.
Qed.

(** Scaling by the reciprocal is the division, special values included. *)
Lemma hf_mul_reciprocal a b : hf_mul a (hf_div hf_one b) = hf_div a b.
Proof.
  assert (Qc_eqb 1 0 = false) as H10 by done.
  assert (Qc_ltb 1 0 = false) as Hlt10 by done.
  destruct a as [p|s|], b as [q|t|]; unfold hf_one; cbn [hf_mul hf_div];
    try done.
  - destruct (Qc_eqb q 0) eqn:Hq.
    + rewrite H10, Hlt10. destruct (Qc_eqb p 0); [done|].
      by rewrite Bool.xorb_false_l.
    + f_equal. field. intros ->. by vm_compute in Hq.
  - f_equal. ring.
  - destruct (Qc_eqb q 0) eqn:Hq.
    + rewrite H10, Hlt10. apply Qc_eqb_true in Hq as ->. done.
    + assert (q <> 0%Qc) as Hne by (intros ->; by vm_compute in Hq).
      assert (Qc_eqb (1 / q) 0 = false) as ->.
      { destruct (Qc_eqb (1 / q) 0) eqn:He; [|done].
        apply Qc_eqb_true in He. exfalso.
        assert ((1 / q) * q = 1)%Qc as H1q by (by field).
        rewrite He in H1q. by vm_compute in H1q. }
      by rewrite Qc_ltb_inv.
Qed.

Lemma foldl_snoc_map {T U} (f : T -> U) (l : list T) (acc : list U) :
  foldl (fun acc v => acc ++ [f v]) acc l = acc ++ map f l.
Proof.
  revert acc. induction l as [|v l IH]; intros acc; simpl.
  - by rewrite app_nil_r.
  - by rewrite IH, <- app_assoc.
Qed.

(** C10 (amended): [replaceData] with a sequence of the length of the
    stored data (not empty) stores, for each input element [v], the value
    [(v - min) * (1 / (max - min))], computed with the operations of
    [double] as they are, whatever they round to: [min] and [max] are the
    least and the greatest element of the input, there is no guard for
    [max = min], and the fields [m_min] and [m_max] of the plot keep their
    values.  With operations that do not round the stored value is
    [(v - min) / (max - min)]; with [double] operations it need not be
    (see [replaceData_binary64_rounds]). *)
Theorem replaceData_normalizes (ar : arithmetic) (pl : HilbertPlot)
    (data : list hfloat) :
  data <> [] -> length data = length (m_data pl) ->
  exists mn mx,
    (mn ∈ data /\ forall v, v ∈ data -> hf_ltb v mn = false) /\
    (mx ∈ data /\ forall v, v ∈ data -> hf_ltb mx v = false) /\
    replaceData ar pl data
    = Return (mkPlot (curve pl)
                (map (fun v => ar_mul ar (ar_sub ar v mn)
                                 (ar_div ar hf_one (ar_sub ar mx mn)))
                     data)
                (m_min pl) (m_max pl) (m_plotToCurve pl)) /\
    map (fun v => ar_mul exact (ar_sub exact v mn)
                    (ar_div exact hf_one (ar_sub exact mx mn))) data
    = map (fun v => hf_div (hf_sub v mn) (hf_sub mx mn)) data.
Proof.
  intros Hne Hlen.
  destruct (DataSequence_min_least data Hne) as (mn & Hmn & Hmin).
  destruct (DataSequence_max_greatest data Hne) as (mx & Hmx & Hmax).
  exists mn, mx. split; [done|]. split; [done|]. split.
  - unfold replaceData. rewrite Hlen, Nat.eqb_refl. simpl.
    rewrite Hmx, Hmn. simpl. do 2 f_equal.
    by rewrite foldl_snoc_map.
  - apply map_ext. intros v. apply hf_mul_reciprocal.
Qed.

(** Two evaluated values are equal when their fractions are. *)
Ltac hf_evaluate :=
  vm_compute;
  repeat match goal with
         | |- Return _ = Return _ => apply (f_equal Return)
         | |- Some _ = Some _ => apply (f_equal Some)
         | |- _ :: _ = _ :: _ => apply (f_equal2 cons)
         | |- (_, _) = (_, _) => apply (f_equal2 pair)
         | |- Fin _ = Fin _ =>
             apply (f_equal Fin), Qc_is_canon; vm_compute; reflexivity
         | |- _ => reflexivity
         end.

(** ** generateImage without a threshold *)

(** C6, the failing input: the plot of the data [1, 2] on the grid of
    width 2 and height 1.  The normalized values are [0] and [1]; without a
    threshold [generateImage] returns the columns [1] and [2], the values
    scaled by [1 / (max - min)] and not shifted by [min]. *)
Theorem generateImage_not_shifted :
  exists pl,
    new_HilbertPlot [hf_of_Z 1; hf_of_Z 2] 2 1 H0 = Some pl /\
    m_min pl = hf_of_Z 1 /\ m_max pl = hf_of_Z 2 /\
    valueNormalizedAt_xy pl 0 0 = Return (hf_of_Z 0) /\
    valueNormalizedAt_xy pl 1 0 = Return (hf_of_Z 1) /\
    generateImage pl hf_zero = Return [[hf_of_Z 1]; [hf_of_Z 2]] /\
    generateImage pl (hf_of_Z 100) = Return [[hf_of_Z 0]; [hf_of_Z 1]].
Proof.
  eexists. split; [vm_compute; reflexivity|].
  repeat split; vm_compute; reflexivity.
Qed.

(** ** hpFourierTransform *)

(** C7, the failing input: the plot of the data [-2, 5, -1, 0] on the grid
    of width 2 and height 2, whose spectrum has the squared magnitudes 4,
    16, 36 and 64.  The scan leaves [max2] at its initial value, the
    smallest positive [double], and not at the second largest bin, 36: the
    largest bin is written as [DBL_MIN], and the range that divides every
    bin is [DBL_MIN - 4], a negative number. *)
Theorem hpFourierTransform_max2 :
  exists pl input,
    new_HilbertPlot (map hf_of_Z [-2; 5; -1; 0]) 2 2 H0 = Some pl /\
    fourier_input pl 2 2 = Return input /\
    map magnitude2 (dft_r2c_2x2 2 2 input) = map hf_of_Z [4; 16; 36; 64] /\
    scan_bins (map hf_of_Z [4; 16; 36; 64]) = (hf_of_Z 64, hf_of_Z 4, DBL_MIN) /\
    forall log,
      hpFourierTransform dft_r2c_2x2 log pl false
      = Return
          (map (fun wdf => hf_div (hf_sub wdf (hf_of_Z 4))
                             (hf_sub DBL_MIN (hf_of_Z 4)))
               [DBL_MIN; hf_of_Z 16; hf_of_Z 4; hf_of_Z 36]).
Proof.
  eexists. eexists. split; [vm_compute; reflexivity|].
  split; [vm_compute; reflexivity|].
  split; [vm_compute; reflexivity|].
  split; [vm_compute; reflexivity|].
  intros log. hf_evaluate.
Qed.

(** ** The plot *)

(** The constructor keeps the shape that it is given. *)
Lemma new_HilbertCurve_qs w h t c o d hc :
  new_HilbertCurve w h t c o d = Some hc -> qs hc = mkQS h w c o.
Proof.
  unfold new_HilbertCurve, HilbertCurve_fuel. cbn [HilbertCurve_new].
  set (this := mkHC (mkQS h w c o) t [] hf_zero).
  intros Hnew.
  assert (forall r : option HilbertCurve,
            (forall hc', r = Some hc' -> qs hc' = mkQS h w c o) ->
            (this ← r; if d then reflectY <$> BuildDifference this else Some this)
            = Some hc -> qs hc = mkQS h w c o) as Hstep.
  { intros [hc'|] Hr; [|done]. cbn [mbind option_bind].
    specialize (Hr hc' eq_refl). destruct d.
    - unfold BuildDifference.
      destruct (foldl _ _ _) as [[curve [mean k]]|]; [|done].
      cbn. by intros [= <-].
    - by intros [= <-]. }
  apply (Hstep _) in Hnew; [done|]. clear Hnew Hstep.
  intros hc'. destruct (production t) as [prod|].
  - unfold BuildCurveNH.
    repeat match goal with
           | |- context [mbind _ ?a] =>
               destruct a; cbn [mbind option_bind]; [|done]
           end.
    by intros [= <-].
  - destruct (BuildCurveH0 _); [|done]. cbn. by intros [= <-].
Qed.

(** With the difference map the points carry their positions as indices. *)
Lemma new_HilbertCurve_index w h t c o hc :
  qs_ok (mkQS h w c o) -> 1 <= w -> 1 <= h -> w * h < UINT_RANGE ->
  new_HilbertCurve w h t c o true = Some hc ->
  forall (k : nat) p, m_curve hc !! k = Some p -> index p = Z.of_nat k.
Proof.
  intros Hok Hw Hh Hsize. unfold new_HilbertCurve, HilbertCurve_fuel.
  assert (rank t < 3)%nat as Hrank by (destruct t; simpl; lia).
  destruct (HilbertCurve_new_fills 3 w h t c o Hrank Hok Hsize)
    as (hc0 & Hnew & Hq & Ht & Hf).
  rewrite HilbertCurve_new_difference, Hnew. cbn [mbind option_bind].
  rewrite BuildDifference_correct by (rewrite ?Hq; simpl; (done || lia)).
  cbn [fmap option_fmap option_map]. intros [= <-] k p.
  rewrite reflectY_curve. cbn [m_curve qs]. rewrite map_fmap, list_lookup_fmap.
  rewrite list_lookup_imap.
  destruct (m_curve hc0 !! k) as [p0|]; [|done]. cbn. by intros [= <-].
Qed.

Lemma length_resize_data data size :
  0 <= size -> Z.of_nat (length (resize_data data size)) = size.
Proof.
  intros Hs. unfold resize_data.
  rewrite length_app, length_take, length_replicate. lia.
Qed.

(** The table after the loop of the constructor: the index of a point
    stands at the coordinates of the point. *)
Lemma plot_table (w h : Z) (l : list HPoint) :
  0 <= w -> 0 <= h ->
  (forall p, p ∈ l -> 0 <= x p < w /\ 0 <= y p < h) ->
  NoDup (map coords l) ->
  exists table,
    foldl (fun t point => t ← t; plot_set t point)
          (Some (replicate (Z.to_nat w) (replicate (Z.to_nat h) 0))) l
    = Some table /\
    length table = Z.to_nat w /\
    (forall col, col ∈ table -> length col = Z.to_nat h) /\
    forall p, p ∈ l ->
              exists col, table !! Z.to_nat (x p) = Some col /\
                          col !! Z.to_nat (y p) = Some (index p).
Proof.
  intros Hw Hh. induction l as [|p l IH] using rev_ind; intros Hin Hnd.
  - eexists. split; [done|]. split; [apply length_replicate|].
    split; [|by intros p Hp%elem_of_nil].
    intros col [-> _]%elem_of_replicate. apply length_replicate.
  - rewrite map_app in Hnd. simpl in Hnd.
    apply NoDup_app in Hnd as (Hnd & Hnotin & _).
    destruct IH as (table & Hfold & Hlen & Hcols & Hget); [|done|].
    { intros q Hq. apply Hin, elem_of_app. by left. }
    destruct (Hin p) as (Hx & Hy);
      [apply elem_of_app; right; by apply list_elem_of_singleton|].
    rewrite foldl_app, Hfold. simpl. unfold plot_set, vec_get, vec_set.
    rewrite decide_True by lia.
    destruct (table !! Z.to_nat (x p)) as [col|] eqn:Hcol;
      [|apply lookup_ge_None in Hcol; lia].
    assert (length col = Z.to_nat h) as Hlcol
      by (by eapply Hcols, list_elem_of_lookup_2).
    cbn [mbind option_bind]. rewrite decide_True by lia.
    cbn [mbind option_bind]. rewrite decide_True by lia.
    eexists. split; [done|]. split; [by rewrite length_insert|]. split.
    + intros col' Hcol'. apply list_elem_of_lookup_1 in Hcol' as (i & Hi).
      destruct (decide (i = Z.to_nat (x p))) as [->|Hne].
      * rewrite list_lookup_insert_eq in Hi by lia.
        injection Hi as <-. by rewrite length_insert.
      * rewrite list_lookup_insert_ne in Hi by done.
        by eapply Hcols, list_elem_of_lookup_2.
    + intros q [Hq| ->%list_elem_of_singleton]%elem_of_app.
      * destruct (Hget q Hq) as (colq & Hcq & Hiq).
        assert (coords q <> coords p) as Hne.
        { intros Heq. apply (Hnotin (coords p)).
          - rewrite <- Heq, map_fmap. by apply list_elem_of_fmap_2.
          - by apply list_elem_of_singleton. }
        destruct (Hin q) as (Hxq & Hyq); [apply elem_of_app; by left|].
        destruct (decide (Z.to_nat (x q) = Z.to_nat (x p))) as [Heq|Hnx].
        -- rewrite Heq, list_lookup_insert_eq by lia.
           eexists. split; [done|].
           rewrite Heq, Hcol in Hcq. injection Hcq as <-.
           rewrite list_lookup_insert_ne; [done|].
           intros Hy'. apply Hne. unfold coords. f_equal; lia.
        -- rewrite list_lookup_insert_ne by done. eauto.
      * rewrite list_lookup_insert_eq by lia. eexists. split; [done|].
        by rewrite list_lookup_insert_eq by lia.
Qed.

Lemma bestDimensions_nonneg L :
  0 <= fst (bestDimensions L) /\ 0 <= snd (bestDimensions L).
Proof.
  unfold bestDimensions. pose proof (Z.sqrt_nonneg L).
  repeat case_match; simpl; lia.
Qed.

(** What the constructor of the plot has built. *)
Lemma new_HilbertPlot_inv data w0 h0 t pl :
  is_hint w0 -> is_hint h0 ->
  new_HilbertPlot data w0 h0 t = Some pl ->
  exists w h,
    0 <= w /\ 0 <= h /\
    new_HilbertCurve w h t (HPoint_n 0) A true = Some (curve pl) /\
    m_data pl = resize_data data (wrap (w * h)) /\
    foldl (fun t point => t ← t; plot_set t point)
          (Some (replicate (Z.to_nat w) (replicate (Z.to_nat h) 0)))
          (m_curve (curve pl))
    = Some (m_plotToCurve pl).
Proof.
  intros Hw0 Hh0. unfold new_HilbertPlot, constructCurve.
  set (L := wrap (Z.of_nat (length data))).
  destruct (if (w0 =? 0) || (h0 =? 0) then bestDimensions L else (w0, h0))
    as [w h] eqn:Hdim.
  assert (0 <= w /\ 0 <= h) as [Hw Hh].
  { destruct ((w0 =? 0) || (h0 =? 0)).
    - pose proof (bestDimensions_nonneg L) as Hnn. rewrite Hdim in Hnn. done.
    - injection Hdim as <- <-. unfold is_hint in *. lia. }
  destruct (new_HilbertCurve w h t (HPoint_n 0) A true) as [hc|] eqn:Hnew;
    [|done].
  cbn [mbind option_bind].
  destruct (foldl _ _ (m_curve hc)) as [table|] eqn:Hfold; [|done].
  cbn [mbind option_bind].
  match goal with
  | |- context [mbind _ ?a] => destruct a as [[mn mx]|]; [|done]
  end.
  cbn [mbind option_bind]. intros [= <-]. simpl.
  exists w, h. done.
Qed.

Section plot_access.

Variables (data : list hfloat) (w0 h0 : Z) (t : CurveType) (pl : HilbertPlot).
Hypothesis Hw0 : is_hint w0.
Hypothesis Hh0 : is_hint h0.
Hypothesis Hnew : new_HilbertPlot data w0 h0 t = Some pl.
Hypothesis Hsize : width (curve pl) * height (curve pl) < UINT_RANGE.

Local Abbreviation w := (width (curve pl)).
Local Abbreviation h := (height (curve pl)).

Lemma plot_dims : 0 <= w /\ 0 <= h.
  Proof.
    destruct (new_HilbertPlot_inv _ _ _ _ _ Hw0 Hh0 Hnew)
      as (w' & h' & ? & ? & Hc & _).
    apply new_HilbertCurve_qs in Hc. unfold width, height. rewrite Hc. done.
  Qed.

Lemma plot_data_size : data_size pl = w * h.
  Proof.
    destruct (new_HilbertPlot_inv _ _ _ _ _ Hw0 Hh0 Hnew)
      as (w' & h' & ? & ? & Hc & Hd & _).
    apply new_HilbertCurve_qs in Hc. unfold data_size. rewrite Hd.
    unfold width, height in *. rewrite Hc in *. simpl in *.
    rewrite length_resize_data by apply wrap_range.
    apply wrap_small. nia.
  Qed.

Lemma plot_data_at index :
    0 <= index < w * h ->
    exists v, m_data pl !! Z.to_nat index = Some v /\ data_at pl index = Return v.
  Proof.
    intros Hi. pose proof plot_data_size as Hd. unfold data_size in Hd.
    destruct (m_data pl !! Z.to_nat index) as [v|] eqn:Hv;
      [|apply lookup_ge_None in Hv; lia].
    exists v. split; [done|]. unfold data_at, vec_get.
    by rewrite decide_True, Hv by lia.
  Qed.

  (** The table sends the cell of a point to the position of the point. *)
Lemma plot_index a b :
    0 <= a < w -> 0 <= b < h ->
    exists (i : nat) p,
      m_curve (curve pl) !! i = Some p /\ coords p = (a, b) /\
      Z.of_nat i < w * h /\
      plotToCurve pl a b = Return (Z.of_nat i).
  Proof.
    intros Ha Hb.
    destruct (new_HilbertPlot_inv _ _ _ _ _ Hw0 Hh0 Hnew)
      as (w' & h' & Hw' & Hh' & Hc & Hd & Htable).
    pose proof (new_HilbertCurve_qs _ _ _ _ _ _ _ Hc) as Hq.
    unfold width, height in *. rewrite Hq in *. simpl in *.
    assert (qs_ok (mkQS h' w' (HPoint_n 0) A)) as Hok.
    { assert (w' <= w' * h' /\ h' <= w' * h') as [? ?] by nia.
      unfold qs_ok, HPoint_n. simpl. repeat split; lia. }
    destruct (new_HilbertCurve_fills w' h' t (HPoint_n 0) A true)
      as (hc & Hc' & _ & _ & Hf); try (done || lia).
    rewrite Hc in Hc'. injection Hc' as <-.
    pose proof (new_HilbertCurve_index w' h' t (HPoint_n 0) A (curve pl)
                  Hok ltac:(lia) ltac:(lia) Hsize Hc) as Hidx.
    pose proof (curve_fills_grid _ _ _ _ Hq Hw' Hh' Hf) as (Hlen & Hnd & Hgrid).
    destruct (plot_table w' h' (m_curve (curve pl)) Hw' Hh')
      as (table & Htable' & Hlt & Hcols & Hget); [|done|].
    { intros p Hp. apply (Hgrid (x p) (y p)).
      rewrite map_fmap. by apply (list_elem_of_fmap_2 coords). }
    rewrite Htable in Htable'. injection Htable' as Htable'.
    assert ((a, b) ∈ map coords (m_curve (curve pl))) as Hab
      by (apply Hgrid; lia).
    rewrite map_fmap in Hab. apply list_elem_of_fmap in Hab as (p & Hp & Hin).
    pose proof Hin as Hin'. apply list_elem_of_lookup_1 in Hin' as (i & Hi).
    exists i, p. split; [done|]. split; [done|]. split.
    { apply lookup_lt_Some in Hi. lia. }
    destruct (Hget p Hin) as (col & Hcol & He).
    injection Hp as -> ->.
    unfold plotToCurve, vec_get. rewrite Htable'.
    rewrite decide_True, Hcol by lia. cbn [mbind option_bind].
    rewrite decide_True, He by lia. simpl. by rewrite (Hidx i p Hi).
  Qed.

End plot_access.


(** ** Adjacency *)

Lemma unit_stepsb_correct l : unit_stepsb l = true <-> unit_steps l.
Proof.
  unfold unit_steps. induction l as [|p [|q l] IH].
  - split; [by intros _ [|i] ? ?|done].
  - split; [by intros _ [|[|i]] ? ?|done].
  - cbn [unit_stepsb]. rewrite andb_true_iff, IH, Z.eqb_eq. split.
    + intros [Hpq Hrest] [|i] a b; simpl.
      * by intros [= <-] [= <-].
      * apply (Hrest i).
    + intros Hall. split; [by apply (Hall 0%nat)|].
      intros i a b. apply (Hall (S i)).
Qed.

Lemma all_types_complete t : In t all_types.
Proof.
  unfold all_types. destruct t; simpl;
    repeat first [left; reflexivity | right].
Qed.

Lemma all_orientations_complete o : In o all_orientations.
Proof.
  unfold all_orientations. destruct o; simpl;
    repeat first [left; reflexivity | right].
Qed.

(** C2, counterexample: the curve of type [H0] on the grid of width 1 and
    height 4 visits the cells (0,2), (0,3), (0,1), (0,0): from its second
    point to its third it moves by two cells. *)
Lemma H0_column_not_adjacent :
  exists hc,
    new_HilbertCurve 1 4 H0 (HPoint_n 0) A false = Some hc /\
    map coords (m_curve hc) = [(0, 2); (0, 3); (0, 1); (0, 0)] /\
    ~ unit_steps (m_curve hc).
Proof.
  eexists. split; [vm_compute; reflexivity|]. split; [reflexivity|].
  intros Hsteps. apply unit_stepsb_correct in Hsteps. by vm_compute in Hsteps.
Qed.


(** C5, counterexample: the curve of type [H6] on the grid of width 7 and
    height 1 visits the cells 3, 2, 0, 1, 5, 6, 4 of the row.  The scores
    of the cells 0 to 6 are 1, 3/2, 3/2, 7/2, 4, 3/2 and 1, all of them
    binary64 numbers, and their arithmetic mean is 2.  The update
    [mean = mean + (score - mean) / ++k] gives 2 without rounding, but
    [2 - 2^-52] (1.9999999999999998) with the operations of binary64:
    the stored mean is not the arithmetic mean of the scores. *)
Lemma BuildDifference_mean_binary64 :
  let scores :=
    map (fun q => Fin (Q2Qc q)) [1; 3 # 2; 3 # 2; 7 # 2; 4; 3 # 2; 1]%Q in
  let stored := Fin (Q2Qc (9007199254740991 # 4503599627370496)) in
  new_HilbertCurve 7 1 H6 (HPoint_n 0) A false = Some curve_7x1 /\
  map (discontinuity_score (qs curve_7x1) (m_curve curve_7x1))
      (cells (qs curve_7x1)) = scores /\
  Forall (fun v => exists f, to_binary64 v = Some f) scores /\
  arithmetic_mean scores = hf_of_Z 2 /\
  fst (foldl running_mean (hf_zero, 0) scores) = hf_of_Z 2 /\
  fst (foldl (running_mean_in exact) (hf_zero, 0) scores) = hf_of_Z 2 /\
  fst (foldl (running_mean_in binary64) (hf_zero, 0) scores) = stored /\
  stored <> hf_of_Z 2.
Proof.
  cbv zeta. split; [vm_compute; reflexivity|].
  split; [hf_evaluate|].
  split.
  { repeat (apply List.Forall_cons; [eexists; vm_compute; reflexivity|]).
    apply List.Forall_nil. }
  split; [hf_evaluate|]. split; [hf_evaluate|]. split; [hf_evaluate|].
  split; [hf_evaluate|].
  intros [=].
Qed.

(** C10, counterexample: [replaceData] with the values 0, 49, 0, 49.  The
    quotient [(49 - 0) / (49 - 0)] is 1, but with the operations of
    binary64 [(49 - 0) * (1 / (49 - 0))] is [1 - 2^-53]
    (0.99999999999999989), and this is what is stored. *)
Lemma replaceData_binary64_rounds :
  let data := map hf_of_Z [0; 49; 0; 49] in
  let stored := Fin (Q2Qc (9007199254740991 # 9007199254740992)) in
  DataSequence_min data = Some (hf_of_Z 0) /\
  DataSequence_max data = Some (hf_of_Z 49) /\
  map (fun v => hf_div (hf_sub v (hf_of_Z 0)) (hf_sub (hf_of_Z 49) (hf_of_Z 0)))
      data = map hf_of_Z [0; 1; 0; 1] /\
  replaceData binary64 plot_2x2 data
  = Return (mkPlot (curve plot_2x2) [hf_of_Z 0; stored; hf_of_Z 0; stored]
              (m_min plot_2x2) (m_max plot_2x2) (m_plotToCurve plot_2x2)) /\
  stored <> hf_of_Z 1.
Proof.
  cbv zeta. split; [hf_evaluate|]. split; [hf_evaluate|].
  split; [hf_evaluate|]. split.
  - vm_compute. apply (f_equal Return).
    match goal with
    | |- mkPlot ?c ?d1 ?a ?b ?t = mkPlot _ ?d2 _ _ _ =>
        apply (f_equal (fun d => mkPlot c d a b t))
    end.
    hf_evaluate.
  - intros [=].
Qed.

(** On the squares of side 1 and 2 every curve moves by unit steps. *)
Lemma small_squares_adjacent (t : CurveType) (o : Orientation) (d : bool)
    (s : Z) :
  s = 1 \/ s = 2 ->
  exists hc,
    new_HilbertCurve s s t (HPoint_n 0) o d = Some hc /\
    unit_steps (m_curve hc).
Proof.
  intros Hs.
  assert (forallb (fun s =>
            forallb (fun d =>
              forallb (fun t =>
                forallb (fun o =>
                  match new_HilbertCurve s s t (HPoint_n 0) o d with
                  | Some hc => unit_stepsb (m_curve hc)
                  | None => false
                  end) all_orientations) all_types) [false; true])
            [1; 2] = true) as Hall by (vm_compute; reflexivity).
  rewrite forallb_forall in Hall.
  assert (In s [1; 2]) as Hin by (destruct Hs as [-> | ->]; simpl; auto).
  specialize (Hall s Hin).
  rewrite forallb_forall in Hall.
  assert (In d [false; true]) as Hd by (destruct d; simpl; auto).
  specialize (Hall d Hd). rewrite forallb_forall in Hall.
  specialize (Hall t (all_types_complete t)).
  rewrite forallb_forall in Hall.
  specialize (Hall o (all_orientations_complete o)).
  destruct (new_HilbertCurve s s t (HPoint_n 0) o d) as [hc|]; [|done].
  exists hc. split; [done|]. by apply unit_stepsb_correct.
Qed.

(** ** Adjacency on the squares of side 2^k *)

Lemma manhattan_sym p q : manhattan p q = manhattan q p.
Proof. unfold manhattan. lia. Qed.

Lemma unit_steps_nil : unit_steps [].
Proof. by intros i p q. Qed.

Lemma unit_steps_singleton p : unit_steps [p].
Proof. by intros [|[|i]] a b. Qed.

Lemma unit_steps_tail p l : unit_steps (p :: l) -> unit_steps l.
Proof. intros Hs i a b. apply (Hs (S i)). Qed.

(** Two sequences of unit steps, the second starting one step from the end
    of the first. *)
Lemma unit_steps_app l1 l2 :
  unit_steps l1 -> unit_steps l2 ->
  (forall p q, last l1 = Some p -> head l2 = Some q ->
               manhattan (coords p) (coords q) = 1) ->
  unit_steps (l1 ++ l2).
Proof.
  intros H1 H2 Hj i p q Hp Hq.
  destruct (decide (S i < length l1)%nat) as [Hlt|Hge].
  - rewrite lookup_app_l in Hp, Hq by lia. by apply (H1 i).
  - destruct (decide (i < length l1)%nat) as [Hlt'|Hge'].
    + assert (S i = length l1) as Hi by lia.
      rewrite lookup_app_l in Hp by lia.
      rewrite lookup_app_r, Hi, Nat.sub_diag in Hq by lia.
      apply Hj.
      * rewrite last_lookup. rewrite <- Hi. exact Hp.
      * by rewrite head_lookup.
    + rewrite lookup_app_r in Hp, Hq by lia.
      apply (H2 (i - length l1)%nat); [done|].
      by replace (S (i - length l1)) with (S i - length l1)%nat by lia.
Qed.

Lemma last_rev {T} (l : list T) : last (rev l) = head l.
Proof. destruct l as [|a l]; [done|]. simpl. by rewrite last_snoc. Qed.

Lemma head_rev {T} (l : list T) : head (rev l) = last l.
Proof. by rewrite <- last_rev, rev_involutive. Qed.

Lemma unit_steps_rev l : unit_steps l -> unit_steps (rev l).
Proof.
  induction l as [|p l IH]; intros Hs; [done|]. simpl.
  apply unit_steps_app.
  - apply IH. by eapply unit_steps_tail.
  - apply unit_steps_singleton.
  - intros a b Ha [= <-]. rewrite last_rev in Ha.
    rewrite manhattan_sym. apply (Hs 0%nat); [done|].
    simpl. by rewrite <- head_lookup.
Qed.

Lemma unit_steps_map (f : HPoint -> HPoint) l :
  (forall p q, p ∈ l -> q ∈ l ->
               manhattan (coords (f p)) (coords (f q))
               = manhattan (coords p) (coords q)) ->
  unit_steps l -> unit_steps (map f l).
Proof.
  intros Hf Hs i p q. rewrite map_fmap, !list_lookup_fmap.
  destruct (l !! i) as [a|] eqn:Ha; [|done].
  destruct (l !! S i) as [b|] eqn:Hb; [|done].
  intros [= <-] [= <-]. rewrite Hf.
  - by apply (Hs i).
  - by eapply list_elem_of_lookup_2.
  - by eapply list_elem_of_lookup_2.
Qed.

Lemma head_app_l {T} (l1 l2 : list T) : l1 <> [] -> head (l1 ++ l2) = head l1.
Proof. by destruct l1. Qed.

Lemma last_app_r {T} (l1 l2 : list T) : l2 <> [] -> last (l1 ++ l2) = last l2.
Proof.
  intros Hne. destruct l2 as [|a l2] using rev_ind; [done|].
  by rewrite app_assoc, !last_snoc.
Qed.

Lemma ends_at_nonempty l c u e : ends_at l c u e -> l <> [].
Proof. intros [(p & Hp & _) _] ->. done. Qed.

(** Four curves that meet, joined. *)
Lemma join_unit_steps l1 l2 l3 l4 c u e1 e2 e3 e4 :
  unit_steps l1 -> unit_steps l2 -> unit_steps l3 -> unit_steps l4 ->
  ends_at l1 c u e1 -> ends_at l2 c u e2 ->
  ends_at l3 c u e3 -> ends_at l4 c u e4 ->
  manhattan (place_cell c u (snd e1)) (place_cell c u (fst e2)) = 1 ->
  manhattan (place_cell c u (snd e2)) (place_cell c u (fst e3)) = 1 ->
  manhattan (place_cell c u (snd e3)) (place_cell c u (fst e4)) = 1 ->
  unit_steps (l1 ++ l2 ++ l3 ++ l4) /\
  ends_at (l1 ++ l2 ++ l3 ++ l4) c u (fst e1, snd e4).
Proof.
  intros Hs1 Hs2 Hs3 Hs4 He1 He2 He3 He4 Hj1 Hj2 Hj3.
  pose proof (ends_at_nonempty _ _ _ _ He1) as Hn1.
  pose proof (ends_at_nonempty _ _ _ _ He2) as Hn2.
  pose proof (ends_at_nonempty _ _ _ _ He3) as Hn3.
  pose proof (ends_at_nonempty _ _ _ _ He4) as Hn4.
  destruct He1 as [(a1 & Ha1 & Hca1) (b1 & Hb1 & Hcb1)].
  destruct He2 as [(a2 & Ha2 & Hca2) (b2 & Hb2 & Hcb2)].
  destruct He3 as [(a3 & Ha3 & Hca3) (b3 & Hb3 & Hcb3)].
  destruct He4 as [(a4 & Ha4 & Hca4) (b4 & Hb4 & Hcb4)].
  split.
  - apply unit_steps_app; [done| |].
    + apply unit_steps_app; [done| |].
      * apply unit_steps_app; [done|done|].
        intros p q Hp Hq. rewrite Hb3 in Hp. rewrite Ha4 in Hq.
        injection Hp as <-. injection Hq as <-. by rewrite Hcb3, Hca4.
      * intros p q Hp Hq. rewrite head_app_l in Hq by done.
        rewrite Hb2 in Hp. rewrite Ha3 in Hq.
        injection Hp as <-. injection Hq as <-. by rewrite Hcb2, Hca3.
    + intros p q Hp Hq. rewrite head_app_l in Hq by done.
      rewrite Hb1 in Hp. rewrite Ha2 in Hq.
      injection Hp as <-. injection Hq as <-. by rewrite Hcb1, Hca2.
  - split; simpl.
    + exists a1. by rewrite head_app_l.
    + exists b4.
      rewrite (last_app_r l1) by (by destruct l2).
      rewrite (last_app_r l2) by (by destruct l3).
      by rewrite (last_app_r l3).
Qed.

Lemma ends_at_ext l c u e c' u' e' :
  place_cell c u (fst e) = place_cell c' u' (fst e') ->
  place_cell c u (snd e) = place_cell c' u' (snd e') ->
  ends_at l c u e -> ends_at l c' u' e'.
Proof. unfold ends_at. by intros <- <-. Qed.

Lemma pow2_pos (k : nat) : 1 <= 2 ^ Z.of_nat k.
Proof. pose proof (Z.pow_pos_nonneg 2 (Z.of_nat k)). lia. Qed.

Lemma pow2_S (k : nat) : 2 ^ Z.of_nat (S k) = 2 * 2 ^ Z.of_nat k.
Proof. rewrite Nat2Z.inj_succ, Z.pow_succ_r; lia. Qed.

Lemma half_double z : 2 * z / 2 = z.
Proof. rewrite Z.mul_comm. apply Z.div_mul. lia. Qed.

Lemma corrected_halves_even o u :
  0 <= u -> Z.even u = true -> corrected_halves o (2 * u) = (u, u).
Proof.
  intros Hu Hev. unfold corrected_halves.
  rewrite half_double.
  replace (2 * u - u) with u by lia.
  rewrite <- Z.negb_even, Hev. by destruct o.
Qed.

Lemma primitive_2x2 c o :
  0 <= x c -> 0 <= y c -> x c + 2 < UINT_RANGE -> y c + 2 < UINT_RANGE ->
  map coords (primitive_points (mkQS 2 2 c o))
  = match o with
    | A => [(x c, y c); (x c, y c + 1); (x c + 1, y c + 1); (x c + 1, y c)]
    | B => [(x c, y c); (x c + 1, y c); (x c + 1, y c + 1); (x c, y c + 1)]
    | C => [(x c + 1, y c + 1); (x c + 1, y c); (x c, y c); (x c, y c + 1)]
    | D => [(x c + 1, y c + 1); (x c, y c + 1); (x c, y c); (x c + 1, y c)]
    end.
Proof.
  intros Hx Hy Hxm Hym. unfold primitive_points, coords. simpl.
  rewrite !(wrap_small (_ + 1)) by lia.
  rewrite !(wrap_small (_ + 1 - 1)) by lia.
  destruct o; simpl; repeat f_equal; lia.
Qed.

Lemma unit_steps_coords l cs :
  map coords l = cs ->
  (forall i a b, cs !! i = Some a -> cs !! S i = Some b -> manhattan a b = 1) ->
  unit_steps l.
Proof.
  intros <- Hcs i p q Hp Hq. apply (Hcs i).
  - by rewrite map_fmap, list_lookup_fmap, Hp.
  - by rewrite map_fmap, list_lookup_fmap, Hq.
Qed.

Lemma ends_at_coords l c u e a b :
  l <> [] ->
  head (map coords l) = Some a -> last (map coords l) = Some b ->
  a = place_cell c u (fst e) -> b = place_cell c u (snd e) ->
  ends_at l c u e.
Proof.
  intros Hne Ha Hb -> ->. rewrite map_fmap in Ha, Hb. split.
  - destruct l as [|p l]; [done|]. exists p. split; [done|].
    simpl in Ha. congruence.
  - rewrite fmap_last in Hb. destruct (last l) as [p|]; [|done].
    exists p. split; [done|]. simpl in Hb. congruence.
Qed.

Ltac join_children Ha Hb Hc Hd :=
  let Hs := fresh "Hsteps" in
  let He := fresh "Hends" in
  destruct (join_unit_steps _ _ _ _ _ _ _ _ _ _
              (proj1 Ha) (proj1 Hb) (proj1 Hc) (proj1 Hd)
              (proj2 Ha) (proj2 Hb) (proj2 Hc) (proj2 Hd)) as [Hs He];
  [ unfold manhattan, place_cell; simpl; lia ..
  | split; [exact Hs|];
    eapply ends_at_ext; [| |exact He];
    unfold place_cell; simpl; f_equal; lia ].

(** [BuildCurve] on a square of side [2^k]: unit steps from the corner
    where its orientation starts to the corner where it ends. *)
Lemma H0_square (k : nat) : forall fuel c o,
  (k < fuel)%nat -> qs_ok (mkQS (2 ^ Z.of_nat k) (2 ^ Z.of_nat k) c o) ->
  unit_steps (region_points fuel (mkQS (2 ^ Z.of_nat k) (2 ^ Z.of_nat k) c o)) /\
  ends_at (region_points fuel (mkQS (2 ^ Z.of_nat k) (2 ^ Z.of_nat k) c o))
          c (2 ^ Z.of_nat k) (H0_ends 0 o).
Proof.
  induction k as [|k IH]; intros fuel c o Hfuel Hok.
  - destruct fuel as [|fuel]; [lia|].
    change (2 ^ Z.of_nat 0) with 1. simpl. split; [apply unit_steps_singleton|].
    unfold ends_at, place_cell, coords. simpl.
    split; exists c; (split; [done|]); destruct o; simpl; f_equal; lia.
  - destruct fuel as [|fuel]; [lia|]. rewrite pow2_S in *.
    pose proof (pow2_pos k) as Hu. set (u := 2 ^ Z.of_nat k) in *.
    destruct Hok as (_ & _ & Hx & Hy & Hxm & Hym). simpl in Hx, Hy, Hxm, Hym.
    destruct k as [|k].
    + change u with 1 in *. change (2 * 1) with 2 in *.
      cbn -[primitive_points].
      pose proof (primitive_2x2 c o Hx Hy Hxm Hym) as Hprim.
      split.
      * eapply unit_steps_coords; [exact Hprim|].
        destruct o; intros [|[|[|[|i]]]] a b; simpl; try done;
          intros [= <-] [= <-]; unfold manhattan; simpl; lia.
      * destruct o;
          (eapply ends_at_coords;
           [ intros Hnil; by rewrite Hnil in Hprim
           | by rewrite Hprim
           | by rewrite Hprim
           | unfold place_cell; simpl; f_equal; lia
           | unfold place_cell; simpl; f_equal; lia ]).
    + assert (Z.even u = true) as Hev.
      { unfold u. rewrite pow2_S, Z.even_mul. done. }
      assert (2 <= u) as Hu2.
      { unfold u. rewrite pow2_S. pose proof (pow2_pos k). lia. }
      cbn [region_points n m].
      assert ((2 <? 2 * u) = true) as -> by (apply Z.ltb_lt; lia).
      cbn [orb].
      rewrite Partition_correct by (unfold qs_ok; simpl; lia).
      cbn [n m oABCD coord].
      rewrite corrected_halves_even by (done || lia). cbn [fst snd].
      assert (forall qx qy o',
                0 <= qx <= 1 -> 0 <= qy <= 1 ->
                let c' := HPoint_xy (x c + qx * u) (y c + qy * u) in
                unit_steps (region_points fuel (mkQS u u c' o')) /\
                ends_at (region_points fuel (mkQS u u c' o')) c u
                        (shift_ends 0 qx qy (H0_ends 0 o'))) as Hchild.
      { intros qx qy o' Hqx Hqy c'.
        destruct (IH fuel c' o') as [Hs He]; [lia| |].
        { unfold qs_ok, c'. simpl. fold u. nia. }
        fold u in Hs, He. split; [done|].
        eapply ends_at_ext; [| |exact He];
          unfold place_cell, shift_ends, shift_place, c'; simpl; f_equal; lia. }
      pose proof (fun o' => Hchild 0 0 o' ltac:(lia) ltac:(lia)) as H00.
      pose proof (fun o' => Hchild 0 1 o' ltac:(lia) ltac:(lia)) as H01.
      pose proof (fun o' => Hchild 1 0 o' ltac:(lia) ltac:(lia)) as H10.
      pose proof (fun o' => Hchild 1 1 o' ltac:(lia) ltac:(lia)) as H11.
      simpl in H00, H01, H10, H11.
      rewrite ?Z.add_0_r, ?Z.mul_1_l in H00, H01, H10, H11.
      replace (x c + 0 * u) with (x c) in * by lia.
      replace (y c + 0 * u) with (y c) in * by lia.
      replace (x c + 1 * u) with (x c + u) in * by lia.
      replace (y c + 1 * u) with (y c + u) in * by lia.
      destruct o; cbn [rev app map concat]; rewrite ?app_nil_r.
      * join_children (H00 B) (H01 A) (H11 A) (H10 D).
      * join_children (H00 A) (H10 B) (H11 B) (H01 C).
      * join_children (H11 D) (H10 C) (H00 C) (H01 B).
      * join_children (H11 C) (H01 D) (H00 D) (H10 A).
Qed.

Lemma junction_sound p q c u :
  junction p q = true -> manhattan (place_cell c u p) (place_cell c u q) = 1.
Proof.
  unfold junction. rewrite !andb_true_iff, !Z.eqb_eq. intros [[Hx Hy] Hb].
  unfold manhattan, place_cell. simpl. rewrite Hx, Hy. lia.
Qed.

Lemma head_elem_of {T} (l : list T) p : head l = Some p -> p ∈ l.
Proof. rewrite head_lookup. apply list_elem_of_lookup_2. Qed.

Lemma last_elem_of {T} (l : list T) p : last l = Some p -> p ∈ l.
Proof. rewrite last_lookup. apply list_elem_of_lookup_2. Qed.

Lemma head_map {T U} (f : T -> U) l : head (map f l) = f <$> head l.
Proof. by destruct l. Qed.

Lemma last_map {T U} (f : T -> U) l : last (map f l) = f <$> last l.
Proof. rewrite map_fmap. apply fmap_last. Qed.

(** A sequence mapped by a function that moves the cells of its points as
    [g] moves the two ends. *)
Lemma ends_at_map (f : HPoint -> HPoint) l c u e e' :
  (forall p, p ∈ l -> coords p = place_cell c u (fst e) ->
             coords (f p) = place_cell c u (fst e')) ->
  (forall p, p ∈ l -> coords p = place_cell c u (snd e) ->
             coords (f p) = place_cell c u (snd e')) ->
  ends_at l c u e -> ends_at (map f l) c u e'.
Proof.
  intros Hf1 Hf2 [(a & Ha & Hca) (b & Hb & Hcb)]. split.
  - exists (f a). rewrite head_map, Ha. split; [done|].
    apply Hf1; [by apply head_elem_of|done].
  - exists (f b). rewrite last_map, Hb. split; [done|].
    apply Hf2; [by apply last_elem_of|done].
Qed.

Section transforms.

Variables (r : nat) (u : Z) (hc : HilbertCurve) (e : Place * Place).
Hypothesis Hn : n (qs hc) = 2 ^ Z.of_nat r * u.
Hypothesis Hm : m (qs hc) = 2 ^ Z.of_nat r * u.
Hypothesis Hok : qs_ok (qs hc).
Hypothesis Hfill : curve_fills hc.
Hypothesis Hsteps : unit_steps (m_curve hc).
Hypothesis Hends : ends_at (m_curve hc) (coord (qs hc)) u e.

Lemma reverse_steps :
    unit_steps (m_curve (reverse hc)) /\
    ends_at (m_curve (reverse hc)) (coord (qs hc)) u (snd e, fst e).
  Proof.
    rewrite reverse_curve. split; [by apply unit_steps_rev|].
    destruct Hends as [Ha Hb]. split; simpl.
    - by rewrite head_rev.
    - by rewrite last_rev.
  Qed.

Lemma reflectX_steps :
    unit_steps (m_curve (reflectX hc)) /\
    ends_at (m_curve (reflectX hc)) (coord (qs hc)) u
            (mirror_x r (fst e), mirror_x r (snd e)).
  Proof.
    rewrite reflectX_curve.
    destruct Hok as (_ & _ & Hx & Hy & Hxm & Hym).
    assert (forall p, p ∈ m_curve hc ->
              wrap (m (qs hc) - 1 - x p + 2 * x (coord (qs hc)))
              = m (qs hc) - 1 - x p + 2 * x (coord (qs hc)) /\
              x (coord (qs hc)) <= x p < x (coord (qs hc)) + m (qs hc)) as Hw.
    { intros p Hp. apply (curve_fills_in_region hc p Hfill) in Hp.
      destruct Hp as [Hpx _]. split; [|done]. apply wrap_small. lia. }
    split.
    - apply unit_steps_map; [|done]. intros p q Hp Hq.
      unfold manhattan, coords. simpl.
      rewrite (proj1 (Hw p Hp)), (proj1 (Hw q Hq)). lia.
    - apply (ends_at_map _ _ _ _ e); [| |done];
        intros p Hp Hc; unfold coords, place_cell, mirror_x in *; simpl;
        injection Hc as Hcx Hcy; rewrite (proj1 (Hw p Hp)), Hm, Hcx, Hcy;
        f_equal; lia.
  Qed.

Lemma reflectY_steps :
    unit_steps (m_curve (reflectY hc)) /\
    ends_at (m_curve (reflectY hc)) (coord (qs hc)) u
            (mirror_y r (fst e), mirror_y r (snd e)).
  Proof.
    rewrite reflectY_curve.
    destruct Hok as (_ & _ & Hx & Hy & Hxm & Hym).
    assert (forall p, p ∈ m_curve hc ->
              wrap (n (qs hc) - 1 - y p + 2 * y (coord (qs hc)))
              = n (qs hc) - 1 - y p + 2 * y (coord (qs hc)) /\
              y (coord (qs hc)) <= y p < y (coord (qs hc)) + n (qs hc)) as Hw.
    { intros p Hp. apply (curve_fills_in_region hc p Hfill) in Hp.
      destruct Hp as [_ Hpy]. split; [|done]. apply wrap_small. lia. }
    split.
    - apply unit_steps_map; [|done]. intros p q Hp Hq.
      unfold manhattan, coords. simpl.
      rewrite (proj1 (Hw p Hp)), (proj1 (Hw q Hq)). lia.
    - apply (ends_at_map _ _ _ _ e); [| |done];
        intros p Hp Hc; unfold coords, place_cell, mirror_y in *; simpl;
        injection Hc as Hcx Hcy; rewrite (proj1 (Hw p Hp)), Hn, Hcx, Hcy;
        f_equal; lia.
  Qed.

End transforms.

Lemma reflect_qs hc : qs (reflect hc) = qs hc.
Proof. unfold reflect. by destruct (oABCD (qs hc)). Qed.

Lemma apply_call_steps r u hc e t :
  n (qs hc) = 2 ^ Z.of_nat r * u -> m (qs hc) = 2 ^ Z.of_nat r * u ->
  qs_ok (qs hc) -> curve_fills hc ->
  unit_steps (m_curve hc) -> ends_at (m_curve hc) (coord (qs hc)) u e ->
  unit_steps (m_curve (apply_call hc t)) /\
  ends_at (m_curve (apply_call hc t)) (coord (qs hc)) u
          (transform_ends r (oABCD (qs hc)) e t).
Proof.
  intros Hn Hm Hok Hf Hs He.
  assert (unit_steps (m_curve (reflect hc)) /\
          ends_at (m_curve (reflect hc)) (coord (qs hc)) u
            (transform_ends r (oABCD (qs hc)) e t_reflect)) as [Hrs Hre].
  { unfold reflect, transform_ends.
    destruct (oABCD (qs hc));
      (by apply reflectX_steps) || (by apply reflectY_steps). }
  destruct t; simpl.
  - by apply reverse_steps.
  - done.
  - unfold reflectAndReverse.
    assert (ends_at (m_curve (reflect hc)) (coord (qs (reflect hc))) u
              (transform_ends r (oABCD (qs hc)) e t_reflect)) as Hre'
      by (by rewrite reflect_qs).
    destruct (reverse_steps u (reflect hc) _ Hrs Hre') as [Hs' He'].
    rewrite reflect_qs in He'. split; [done|].
    by destruct (oABCD (qs hc)).
Qed.

Lemma apply_calls_steps r u ts : forall hc e,
  n (qs hc) = 2 ^ Z.of_nat r * u -> m (qs hc) = 2 ^ Z.of_nat r * u ->
  qs_ok (qs hc) -> curve_fills hc ->
  unit_steps (m_curve hc) -> ends_at (m_curve hc) (coord (qs hc)) u e ->
  unit_steps (m_curve (foldl apply_call hc ts)) /\
  ends_at (m_curve (foldl apply_call hc ts)) (coord (qs hc)) u
          (foldl (transform_ends r (oABCD (qs hc))) e ts).
Proof.
  induction ts as [|t ts IH]; intros hc e Hn Hm Hok Hf Hs He; simpl; [done|].
  destruct (apply_call_steps r u hc e t) as [Hs' He']; try done.
  pose proof (apply_call_qs hc t) as Hq.
  destruct (IH (apply_call hc t) (transform_ends r (oABCD (qs hc)) e t))
    as [Hs'' He'']; rewrite ?Hq; try done.
  - by apply apply_call_fills.
  - by rewrite Hq in He''.
Qed.

Lemma ends_at_shift l c c' u r qx qy e :
  x c' = x c + qx * (2 ^ Z.of_nat r * u) ->
  y c' = y c + qy * (2 ^ Z.of_nat r * u) ->
  ends_at l c' u e -> ends_at l c u (shift_ends r qx qy e).
Proof.
  intros Hx Hy. apply ends_at_ext;
    unfold place_cell, shift_ends, shift_place; simpl; rewrite Hx, Hy;
    f_equal; lia.
Qed.

Section BuildCurveNH_steps.

Variable construct :
    Z -> Z -> CurveType -> HPoint -> Orientation -> option HilbertCurve.
Variables (r : nat) (u : Z).
Hypothesis Hu : 1 <= u.

Local Abbreviation side := (2 ^ Z.of_nat r * u).

Hypothesis construct_steps : forall t c o e,
    curve_ends r t o = Some e ->
    qs_ok (mkQS side side c o) -> side * side < UINT_RANGE ->
    exists hc, construct side side t c o = Some hc /\
               qs hc = mkQS side side c o /\ curve_fills hc /\
               unit_steps (m_curve hc) /\ ends_at (m_curve hc) c u e.

  (** The curve of one quadrant, after the calls made on it. *)
Lemma quadrant_steps (q : Quadrant) (c : HPoint) (qx qy dx dy : Z) e :
    (e0 ← curve_ends r (q_type q) (q_orientation q);
     Some (shift_ends r qx qy
             (foldl (transform_ends r (q_orientation q)) e0 (q_calls q))))
    = Some e ->
    0 <= qx <= 1 -> 0 <= qy <= 1 -> dx = qx * side -> dy = qy * side ->
    0 <= x c -> 0 <= y c ->
    x c + 2 * side < UINT_RANGE -> y c + 2 * side < UINT_RANGE ->
    side * side < UINT_RANGE ->
    exists hc,
      construct side side (q_type q) (HPoint_add c (HPoint_xy dx dy))
                (q_orientation q) = Some hc /\
      unit_steps (m_curve (foldl apply_call hc (q_calls q))) /\
      ends_at (m_curve (foldl apply_call hc (q_calls q))) c u e.
  Proof.
    intros He Hqx Hqy -> -> Hx Hy Hxm Hym Hsize.
    destruct (curve_ends r (q_type q) (q_orientation q)) as [e0|] eqn:He0;
      [|done].
    cbn in He. injection He as <-.
    pose proof (pow2_pos r) as Hr.
    assert (1 <= side) as Hside by nia.
    set (c' := HPoint_add c (HPoint_xy (qx * side) (qy * side))).
    assert (x c' = x c + qx * side /\ y c' = y c + qy * side) as [Hcx Hcy].
    { unfold c', HPoint_add. simpl. rewrite !wrap_small by nia. done. }
    clearbody c'.
    destruct (construct_steps (q_type q) c' (q_orientation q) e0 He0)
      as (hc & Hc & Hq & Hf & Hs & Hends); [|done|].
    { unfold qs_ok. simpl. rewrite Hcx, Hcy. nia. }
    exists hc. split; [done|].
    destruct (apply_calls_steps r u (q_calls q) hc e0) as [Hs' He'];
      rewrite ?Hq; try done.
    { unfold qs_ok. simpl. rewrite Hcx, Hcy. nia. }
    rewrite Hq in He'. simpl in He'. split; [done|].
    by apply (ends_at_shift _ c c').
  Qed.

Lemma BuildCurveNH_steps prod hc c o e :
    qs hc = mkQS (2 * side) (2 * side) c o ->
    qs_ok (qs hc) -> (2 * side) * (2 * side) < UINT_RANGE ->
    (let ends_of (q : Quadrant) (qx qy : Z) :=
       e0 ← curve_ends r (q_type q) (q_orientation q);
       Some (shift_ends r qx qy
               (foldl (transform_ends r (q_orientation q)) e0 (q_calls q))) in
     e1 ← ends_of (cuadrant1 (prod o)) 0 0;
     e2 ← ends_of (cuadrant2 (prod o)) 0 1;
     e3 ← ends_of (cuadrant3 (prod o)) 1 1;
     e4 ← ends_of (cuadrant4 (prod o)) 1 0;
     match o with
     | A => join_ends e1 e2 e3 e4
     | B => join_ends e1 e4 e3 e2
     | C => join_ends e3 e4 e1 e2
     | D => join_ends e3 e2 e1 e4
     end) = Some e ->
    exists hc', BuildCurveNH construct prod hc = Some hc' /\
                unit_steps (m_curve hc') /\ ends_at (m_curve hc') c u e.
  Proof.
    intros Hq Hok Hsize He. cbv beta zeta in He.
    pose proof (pow2_pos r) as Hr.
    assert (1 <= side) as Hside by nia.
    destruct Hok as (_ & _ & Hx & Hy & Hxm & Hym). rewrite Hq in *.
    simpl in Hx, Hy, Hxm, Hym.
    assert (side * side < UINT_RANGE) as Hsize' by nia.
    unfold BuildCurveNH, width, height. rewrite Hq. cbn [n m coord oABCD].
    rewrite half_double.
    replace (2 * side - side) with side by lia.
    rewrite (wrap_small side) by lia.
    set (pr := prod o) in *.
    destruct (mbind _ (curve_ends r (q_type (cuadrant1 pr)) _)) as [e1|] eqn:He1;
      [|done].
    cbn [mbind option_bind] in He.
    destruct (mbind _ (curve_ends r (q_type (cuadrant2 pr)) _)) as [e2|] eqn:He2;
      [|done].
    cbn [mbind option_bind] in He.
    destruct (mbind _ (curve_ends r (q_type (cuadrant3 pr)) _)) as [e3|] eqn:He3;
      [|done].
    cbn [mbind option_bind] in He.
    destruct (mbind _ (curve_ends r (q_type (cuadrant4 pr)) _)) as [e4|] eqn:He4;
      [|done].
    cbn [mbind option_bind] in He.
    destruct (quadrant_steps (cuadrant1 pr) c 0 0 0 0 e1 He1)
      as (c1 & -> & Hs1 & Hends1); try (done || lia).
    destruct (quadrant_steps (cuadrant2 pr) c 0 1 0 side e2 He2)
      as (c2 & -> & Hs2 & Hends2); try (done || lia).
    destruct (quadrant_steps (cuadrant3 pr) c 1 1 side side e3 He3)
      as (c3 & -> & Hs3 & Hends3); try (done || lia).
    destruct (quadrant_steps (cuadrant4 pr) c 1 0 side 0 e4 He4)
      as (c4 & -> & Hs4 & Hends4); try (done || lia).
    cbn [mbind option_bind].
    eexists. split; [done|].
    unfold joinCurve, set_curve. rewrite Hq. cbn [m_curve oABCD app].
    unfold join_ends in He.
    destruct o;
      (destruct (junction _ _ && junction _ _ && junction _ _) eqn:Hj in He;
       [|done]);
      injection He as <-;
      apply andb_true_iff in Hj as [Hj Hj3];
      apply andb_true_iff in Hj as [Hj1 Hj2];
      eapply join_unit_steps; eauto using junction_sound.
  Qed.

End BuildCurveNH_steps.

Lemma curve_ends_rank r t o e :
  curve_ends r t o = Some e -> (rank t <= r)%nat.
Proof.
  destruct r as [|[|r]]; intros He.
  - destruct t; simpl in *; (discriminate || lia).
  - destruct t; try (simpl; lia); destruct o; vm_compute in He; discriminate.
  - destruct t; simpl; lia.
Qed.

Lemma pow2_add (r j : nat) :
  2 ^ Z.of_nat r * 2 ^ Z.of_nat j = 2 ^ Z.of_nat (r + j).
Proof. rewrite Nat2Z.inj_add, Z.pow_add_r; lia. Qed.

Lemma pow2_gt (k : nat) : Z.of_nat k < 2 ^ Z.of_nat k.
Proof. apply Z.pow_gt_lin_r; lia. Qed.

Lemma place_cell_corner c r u right top :
  place_cell c (2 ^ Z.of_nat r * u) (corner 0 right top)
  = place_cell c u (corner r right top).
Proof.
  unfold place_cell, corner. simpl. destruct right, top; f_equal; lia.
Qed.

(** The curves whose ends [curve_ends] computes: they are made of unit
    steps and they start and end where it says. *)
Lemma curve_ends_sound (r : nat) : forall t o e fuel (j : nat) c,
  curve_ends r t o = Some e -> (r < fuel)%nat ->
  qs_ok (mkQS (2 ^ Z.of_nat r * 2 ^ Z.of_nat j)
              (2 ^ Z.of_nat r * 2 ^ Z.of_nat j) c o) ->
  (2 ^ Z.of_nat r * 2 ^ Z.of_nat j) * (2 ^ Z.of_nat r * 2 ^ Z.of_nat j)
  < UINT_RANGE ->
  exists hc,
    HilbertCurve_new fuel (2 ^ Z.of_nat r * 2 ^ Z.of_nat j)
      (2 ^ Z.of_nat r * 2 ^ Z.of_nat j) t c o false = Some hc /\
    qs hc = mkQS (2 ^ Z.of_nat r * 2 ^ Z.of_nat j)
                 (2 ^ Z.of_nat r * 2 ^ Z.of_nat j) c o /\
    curve_fills hc /\
    unit_steps (m_curve hc) /\ ends_at (m_curve hc) c (2 ^ Z.of_nat j) e.
Proof.
  induction r as [|r IH]; intros t o e fuel j c He Hfuel Hok Hsize.
  all: pose proof (curve_ends_rank _ _ _ _ He) as Hrank.
  all: destruct (HilbertCurve_new_fills fuel _ _ t c o ltac:(lia) Hok Hsize)
         as (hc & Hnew & Hq & _ & Hf).
  all: exists hc; split; [done|]; split; [done|]; split; [done|].
  all: destruct fuel as [|fuel]; [lia|]; cbn [HilbertCurve_new] in Hnew.
  all: cbn [curve_ends] in He.
  all: destruct (production t) as [prod|] eqn:Hprod.
  - done.
  - injection He as <-.
    rewrite BuildCurveH0_correct in Hnew by (simpl; (done || lia)).
    cbn in Hnew. injection Hnew as <-. cbn [m_curve].
    rewrite pow2_add in *. change (0 + j)%nat with j in *.
    destruct (H0_square j
                (BuildCurve_fuel (mkQS (2 ^ Z.of_nat j) (2 ^ Z.of_nat j) c o))
                c o) as [Hs He]; [|done|].
    { unfold BuildCurve_fuel. simpl n. simpl m.
      pose proof (pow2_gt j). pose proof (pow2_pos j). lia. }
    split; [done|].
    eapply ends_at_ext; [| |exact He]; by destruct o.
  - cbn [mbind option_bind] in Hnew.
    replace (2 ^ Z.of_nat (S r) * 2 ^ Z.of_nat j)
      with (2 * (2 ^ Z.of_nat r * 2 ^ Z.of_nat j)) in *
      by (rewrite pow2_S; lia).
    destruct (BuildCurveNH_steps
                (fun w h t c o => HilbertCurve_new fuel w h t c o false)
                r (2 ^ Z.of_nat j) (pow2_pos j))
      with (prod := prod) (c := c) (o := o) (e := e)
           (hc := mkHC (mkQS (2 * (2 ^ Z.of_nat r * 2 ^ Z.of_nat j))
                             (2 * (2 ^ Z.of_nat r * 2 ^ Z.of_nat j)) c o)
                       t [] hf_zero)
      as (hc' & Hnew' & Hs & Hends); try done.
    + intros t' c' o' e' He' Hok' Hsize'.
      apply (IH t' o' e' fuel j c' He'); (done || lia).
    + destruct (BuildCurveNH _ prod _) as [hc''|]; [|done].
      cbn in Hnew. injection Hnew' as <-. injection Hnew as <-. done.
  - injection He as <-.
    rewrite BuildCurveH0_correct in Hnew by (simpl; (done || lia)).
    cbn in Hnew. injection Hnew as <-. cbn [m_curve].
    rewrite pow2_add in *.
    destruct (H0_square (S r + j)
                (BuildCurve_fuel (mkQS (2 ^ Z.of_nat (S r + j))
                                       (2 ^ Z.of_nat (S r + j)) c o)) c o)
      as [Hs He]; [|done|].
    { unfold BuildCurve_fuel. simpl n. simpl m.
      pose proof (pow2_gt (S r + j)). pose proof (pow2_pos (S r + j)).
      cbn [Nat.add] in *. lia. }
    split; [done|].
    eapply ends_at_ext; [| |exact He];
      rewrite <- (pow2_add (S r) j); destruct o; unfold H0_ends;
      cbn [fst snd]; apply place_cell_corner.
Qed.

Lemma curve_ends_level_2 t o : exists e, curve_ends 2 t o = Some e.
Proof. destruct t, o; vm_compute; eauto. Qed.

Lemma unit_steps_same_coords l l' :
  map coords l = map coords l' -> unit_steps l -> unit_steps l'.
Proof.
  intros Hc Hs i p q Hp Hq.
  assert (map coords l !! i = Some (coords p)) as Hp'
    by (by rewrite Hc, map_fmap, list_lookup_fmap, Hp).
  assert (map coords l !! S i = Some (coords q)) as Hq'
    by (by rewrite Hc, map_fmap, list_lookup_fmap, Hq).
  rewrite map_fmap, list_lookup_fmap in Hp', Hq'.
  destruct (l !! i) as [a|] eqn:Ha; [|done].
  destruct (l !! S i) as [b|] eqn:Hb; [|done].
  assert (coords a = coords p) as <- by (cbn in Hp'; congruence).
  assert (coords b = coords q) as <- by (cbn in Hq'; congruence).
  by apply (Hs i).
Qed.

Lemma reflectY_unit_steps hc :
  qs_ok (qs hc) -> curve_fills hc -> unit_steps (m_curve hc) ->
  unit_steps (m_curve (reflectY hc)).
Proof.
  intros (_ & _ & Hx & Hy & Hxm & Hym) Hf Hs. rewrite reflectY_curve.
  apply unit_steps_map; [|done]. intros p q Hp Hq.
  apply (curve_fills_in_region hc p Hf) in Hp as [_ Hp].
  apply (curve_fills_in_region hc q Hf) in Hq as [_ Hq].
  unfold manhattan, coords. simpl. rewrite !wrap_small by lia. lia.
Qed.

(** The difference map keeps the steps of a curve. *)
Lemma difference_unit_steps w h t c o hc :
  qs_ok (mkQS h w c o) -> 1 <= w -> 1 <= h -> w * h < UINT_RANGE ->
  HilbertCurve_new 3 w h t c o false = Some hc ->
  unit_steps (m_curve hc) ->
  exists hc', new_HilbertCurve w h t c o true = Some hc' /\
              unit_steps (m_curve hc').
Proof.
  intros Hok Hw Hh Hsize Hnew Hs.
  assert (rank t < 3)%nat as Hrank by (destruct t; simpl; lia).
  destruct (HilbertCurve_new_fills 3 w h t c o Hrank Hok Hsize)
    as (hc0 & Hnew0 & Hq & _ & Hf).
  rewrite Hnew in Hnew0. injection Hnew0 as <-.
  unfold new_HilbertCurve, HilbertCurve_fuel.
  rewrite HilbertCurve_new_difference, Hnew. cbn [mbind option_bind].
  rewrite BuildDifference_correct by (rewrite ?Hq; simpl; (done || lia)).
  cbn [fmap option_fmap option_map]. eexists. split; [done|].
  apply reflectY_unit_steps.
  - simpl. by rewrite Hq.
  - unfold curve_fills. simpl. by rewrite with_difference_fills.
  - simpl. eapply unit_steps_same_coords; [|exact Hs].
    symmetry. by apply with_difference_fills.
Qed.

(** C2 (as the code has it): on a square grid whose side is a power of two
    every curve type, in every orientation, with or without the difference
    map, moves by one cell from each point to the next. *)
Theorem power_of_two_adjacent (k : nat) (t : CurveType) (o : Orientation)
    (d : bool) :
  2 ^ Z.of_nat k * 2 ^ Z.of_nat k < UINT_RANGE ->
  exists hc,
    new_HilbertCurve (2 ^ Z.of_nat k) (2 ^ Z.of_nat k) t (HPoint_n 0) o d
    = Some hc /\
    unit_steps (m_curve hc).
Proof.
  intros Hsize. destruct k as [|[|k]].
  - apply small_squares_adjacent. by left.
  - apply small_squares_adjacent. by right.
  - replace (2 ^ Z.of_nat (S (S k)))
      with (2 ^ Z.of_nat 2 * 2 ^ Z.of_nat k) in *
      by (rewrite pow2_add; do 2 f_equal; lia).
    destruct (curve_ends_level_2 t o) as [e He].
    pose proof (pow2_pos k) as Hk.
    assert (qs_ok (mkQS (2 ^ Z.of_nat 2 * 2 ^ Z.of_nat k)
                        (2 ^ Z.of_nat 2 * 2 ^ Z.of_nat k) (HPoint_n 0) o))
      as Hok.
    { unfold qs_ok, HPoint_n. simpl. nia. }
    destruct (curve_ends_sound 2 t o e 3 k (HPoint_n 0) He ltac:(lia) Hok Hsize)
      as (hc & Hnew & Hq & Hf & Hs & _).
    destruct d.
    + apply (difference_unit_steps _ _ _ _ _ hc); try done; simpl; nia.
    + by exists hc.
Qed.

(** ** The theorems at work *)


(** The curve of type [H12] on the square of side 8. *)
Lemma power_of_two_adjacent_H12 :
  exists hc,
    new_HilbertCurve 8 8 H12 (HPoint_n 0) C true = Some hc /\
    unit_steps (m_curve hc).
Proof.
  change 8 with (2 ^ Z.of_nat 3).
  apply (power_of_two_adjacent 3 H12 C true).
  vm_compute. reflexivity.
Defined.

(** The partition of the region of 3 rows and 5 columns at the origin, in
    the orientation [C]. *)
Lemma Partition_tiles_3_5 :
  let q := mkQS 3 5 (HPoint_n 0) C in
  Partition q
  = [ mkQS 2 3 (HPoint_xy 0 1) B; mkQS 1 3 (HPoint_xy 0 0) C;
      mkQS 1 2 (HPoint_xy 3 0) C; mkQS 2 2 (HPoint_xy 3 1) D ] /\
  length (Partition q) = 4%nat /\
  map (fun c => (n c, m c)) (Partition q)
    ≡ₚ [(1, 3); (1, 2); (2, 3); (2, 2)] /\
  (forall px py,
     in_region q px py <-> exists c, c ∈ Partition q /\ in_region c px py) /\
  (forall (i j : nat) ci cj px py,
     i <> j -> Partition q !! i = Some ci -> Partition q !! j = Some cj ->
     in_region ci px py -> in_region cj px py -> False) /\
  foldr Z.add 0 (map area (Partition q)) = 15.
Proof.
  refine (Partition_tiles (mkQS 3 5 (HPoint_n 0) C) _ _ _).
  - unfold qs_ok. vm_compute. repeat split; discriminate.
  - simpl. lia.
  - simpl. lia.
Defined.

(** The dimensions for a sequence of 24 values. *)
Lemma bestDimensions_least_waste_24 :
  4 * 4 <= 24 < (4 + 1) * (4 + 1) /\
  (forall s, 0 <= s -> s * s = 24 -> bestDimensions 24 = (s, s)) /\
  (4 * 4 <> 24 ->
   bestDimensions 24 ∈ [(4, 4); (5, 5); (5, 4)] /\
   forall dim, dim ∈ [(4, 4); (5, 5); (5, 4)] ->
               waste 24 (bestDimensions 24) <= waste 24 dim) /\
  bestDimensions 25 = (5, 5) /\
  bestDimensions 24 = (5, 5).
Proof.
  refine (bestDimensions_least_waste 24 _).
  rewrite UINT_RANGE_eq. lia.
Defined.

(** The difference map of the curve on the square of side 2: every cell has
    the three other cells as neighbours. *)
Lemma BuildDifference_scores_2x2 :
  exists hc',
    BuildDifference curve_2x2 = Some hc' /\
    qs hc' = qs curve_2x2 /\
    Z.of_nat (length (m_curve hc')) = width curve_2x2 * height curve_2x2 /\
    (forall (k : nat) p, m_curve curve_2x2 !! k = Some p ->
       m_curve hc' !! k
       = Some (mkHPoint (x p) (y p)
                 (discontinuity_score (qs curve_2x2) (m_curve curve_2x2)
                    (coords p))
                 (Z.of_nat k))) /\
    m_mean_difference hc'
    = fst (foldl running_mean (hf_zero, 0)
             (map (discontinuity_score (qs curve_2x2) (m_curve curve_2x2))
                  (cells (qs curve_2x2)))).
Proof.
  apply (BuildDifference_scores curve_2x2).
  - unfold qs_ok. vm_compute. repeat split; discriminate.
  - vm_compute. discriminate.
  - vm_compute. discriminate.
  - vm_compute. reflexivity.
  - unfold curve_fills. apply (bool_decide_unpack _). vm_compute. exact I.
Defined.


(** Reversing and mirroring the curve on the square of side 2. *)
Lemma reverse_reflect_involutive_2x2 :
  reverse (reverse curve_2x2) = curve_2x2 /\
  reflect (reflect curve_2x2) = curve_2x2.
Proof.
  apply (reverse_reflect_involutive curve_2x2).
  unfold curve_2x2. simpl.
  repeat (apply List.Forall_cons;
          [unfold is_hpoint, is_hint; rewrite UINT_RANGE_eq; simpl; lia|]).
  apply List.Forall_nil.
Defined.

(** Replacing the data of the plot of four values by 2, 6, 4, 4. *)
Lemma replaceData_normalizes_2x2 :
  let data := map hf_of_Z [2; 6; 4; 4] in
  exists mn mx,
    (mn ∈ data /\ forall v, v ∈ data -> hf_ltb v mn = false) /\
    (mx ∈ data /\ forall v, v ∈ data -> hf_ltb mx v = false) /\
    replaceData binary64 plot_2x2 data
    = Return (mkPlot (curve plot_2x2)
                (map (fun v => ar_mul binary64 (ar_sub binary64 v mn)
                                 (ar_div binary64 hf_one
                                    (ar_sub binary64 mx mn)))
                     data)
                (m_min plot_2x2) (m_max plot_2x2) (m_plotToCurve plot_2x2)) /\
    map (fun v => ar_mul exact (ar_sub exact v mn)
                    (ar_div exact hf_one (ar_sub exact mx mn))) data
    = map (fun v => hf_div (hf_sub v mn) (hf_sub mx mn)) data.
Proof.
  apply (replaceData_normalizes binary64 plot_2x2 (map hf_of_Z [2; 6; 4; 4])).
  - discriminate.
  - reflexivity.
Defined.

(** * Further properties of the code *)

(** ** parallel_algorithm.h *)

(** X1: [reverse_parallel] reverses a sequence of any length, whether it
    falls back on [std::reverse] (fewer than 10000 swaps) or swaps in blocks
    of 10000. *)
Theorem reverse_parallel_reverses {T} (l : list T) :
  reverse_parallel l = rev l /\
  length (reverse_parallel l) = length l.
Proof.
  rewrite reverse_parallel_rev. split; [done|]. apply length_rev.
Qed.

(** X2: [for_each_parallel] applies the function once to every element, in
    place, however the range is split in halves. *)
Theorem for_each_parallel_maps {T} (f : T -> T) (l : list T) :
  for_each_parallel f l = map f l /\
  forall i : nat, for_each_parallel f l !! i = f <$> (l !! i).
Proof.
  rewrite for_each_parallel_map. split; [done|].
  intros i. by rewrite map_fmap, list_lookup_fmap.
Qed.

(** ** QuasiSquare *)

Lemma lookup_splice_out {T} (l pts : list T) (i : Z) (k : nat) :
  0 <= i -> i + Z.of_nat (length pts) <= Z.of_nat (length l) ->
  Z.of_nat k < i \/ i + Z.of_nat (length pts) <= Z.of_nat k ->
  splice l i pts !! k = l !! k.
Proof.
  intros Hi Hl Hk. unfold splice. destruct Hk as [Hk|Hk].
  - rewrite lookup_app_l by (rewrite length_take; lia).
    apply lookup_take_lt. lia.
  - rewrite lookup_app_r by (rewrite length_take; lia).
    rewrite lookup_app_r by (rewrite length_take; lia).
    rewrite lookup_drop, length_take. f_equal. lia.
Qed.

Lemma take_drop_splice {T} (l pts : list T) (i : Z) :
  0 <= i -> i + Z.of_nat (length pts) <= Z.of_nat (length l) ->
  take (length pts) (drop (Z.to_nat i) (splice l i pts)) = pts.
Proof.
  intros Hi Hl. unfold splice.
  rewrite drop_app_length' by (rewrite length_take; lia).
  by rewrite take_app_length.
Qed.

(** The in-place call of [BuildCurve] for a region, with no pool: it
    returns, keeps the length of the vector, leaves every slot outside
    [index .. index + n * m - 1] as it was, and fills these slots with one
    point on each cell of the region. *)
Lemma BuildCurve_in_place (q : QuasiSquare) (l : list HPoint) (index : Z) :
  qs_ok q -> 0 <= index ->
  index + n q * m q <= Z.of_nat (length l) ->
  Z.of_nat (length l) < UINT_RANGE ->
  BuildCurve (BuildCurve_fuel q) q l index
  = Some (splice l index (region_points (BuildCurve_fuel q) q)) /\
  length (splice l index (region_points (BuildCurve_fuel q) q)) = length l /\
  (forall k : nat,
     Z.of_nat k < index \/ index + n q * m q <= Z.of_nat k ->
     splice l index (region_points (BuildCurve_fuel q) q) !! k = l !! k) /\
  map coords (take (Z.to_nat (n q * m q))
                (drop (Z.to_nat index)
                   (splice l index (region_points (BuildCurve_fuel q) q))))
    ≡ₚ cells q.
Proof.
  intros Hok Hi Hlen Hl.
  assert (n q + m q < Z.of_nat (BuildCurve_fuel q)) as Hfuel.
  { unfold BuildCurve_fuel. destruct Hok as (? & ? & _). lia. }
  destruct (BuildCurve_frame (BuildCurve_fuel q) q l index Hok Hfuel Hi Hlen Hl)
    as [Hb Hpts].
  split; [exact Hb|]. split; [|split].
  - apply length_splice; lia.
  - intros k Hk. apply lookup_splice_out; lia.
  - rewrite <- Hpts, Nat2Z.id, take_drop_splice by lia.
    by apply region_points_cells.
Qed.

(** X4: [Partition] halves a region: the height of a child is [n / 2] or
    [n - n / 2], its width [m / 2] or [m - m / 2], and the child of a region
    that [BuildCurve] splits ([n > 2] or [m > 2]) has a smaller half
    perimeter: the recursion of [BuildCurve] is well founded. *)
Theorem Partition_halves (q c : QuasiSquare) :
  qs_ok q -> c ∈ Partition q ->
  (n c = n q / 2 \/ n c = n q - n q / 2) /\
  (m c = m q / 2 \/ m c = m q - m q / 2) /\
  qs_ok c /\
  (2 < n q \/ 2 < m q -> n c + m c < n q + m q).
Proof.
  intros Hok Hc.
  destruct (children_ok q c Hok Hc) as (Hokc & _ & _ & Hlt).
  split; [|split; [|done]].
  - rewrite (Partition_correct q Hok) in Hc. unfold corrected_halves in Hc.
    destruct (oABCD q); repeat case_match; cbn [fst snd] in Hc;
      apply elem_of_list4 in Hc as [-> | [-> | [-> | ->]]]; simpl; auto.
  - rewrite (Partition_correct q Hok) in Hc. unfold corrected_halves in Hc.
    destruct (oABCD q); repeat case_match; cbn [fst snd] in Hc;
      apply elem_of_list4 in Hc as [-> | [-> | [-> | ->]]]; simpl; auto.
Qed.

(** ** Reverse and mirror *)

(** X5: reversing and mirroring a curve keep its region and its cells: a
    curve that visits every cell of its region once still does after
    [reverse], [reflectX], [reflectY], [reflect] and [reflectAndReverse]. *)
Theorem transforms_keep_cells (hc : HilbertCurve) :
  qs_ok (qs hc) -> curve_fills hc ->
  (curve_fills (reverse hc) /\ qs (reverse hc) = qs hc) /\
  (curve_fills (reflectX hc) /\ qs (reflectX hc) = qs hc) /\
  (curve_fills (reflectY hc) /\ qs (reflectY hc) = qs hc) /\
  (curve_fills (reflect hc) /\ qs (reflect hc) = qs hc) /\
  (curve_fills (reflectAndReverse hc) /\ qs (reflectAndReverse hc) = qs hc).
Proof.
  intros Hok Hf.
  assert (curve_fills (reflect hc)) as Hr.
  { unfold reflect.
    destruct (oABCD (qs hc)); auto using reflectX_fills, reflectY_fills. }
  repeat split; auto using reverse_fills, reflectX_fills, reflectY_fills.
  - apply reflect_qs.
  - unfold reflectAndReverse. by apply reverse_fills.
  - unfold reflectAndReverse. apply reflect_qs.
Qed.

Lemma reflect_reverse_commute hc :
  reflect (reverse hc) = reverse (reflect hc).
Proof.
  destruct hc as [q t l md]. unfold reflect, reverse. simpl.
  destruct (oABCD q); unfold reflectX, reflectY, set_curve; simpl;
    rewrite !for_each_parallel_map, !reverse_parallel_rev, map_rev; done.
Qed.

Lemma reflect_is_hpoint hc :
  Forall is_hpoint (m_curve hc) -> Forall is_hpoint (m_curve (reflect hc)).
Proof.
  intros Hpts. unfold reflect.
  destruct (oABCD (qs hc)); rewrite ?reflectX_curve, ?reflectY_curve;
    apply Forall_forall; intros p' Hp';
    rewrite map_fmap in Hp'; apply list_elem_of_fmap in Hp' as (p & -> & Hp);
    rewrite Forall_forall in Hpts; destruct (Hpts p Hp) as [Hx Hy];
    split; simpl; (done || apply wrap_range).
Qed.

(** X6: mirroring and reversing commute, so [reflectAndReverse] is also
    [reverse] followed by [reflect], and [reflectAndReverse] applied twice
    gives the curve back. *)
Theorem reflectAndReverse_involutive (hc : HilbertCurve) :
  Forall is_hpoint (m_curve hc) ->
  reflectAndReverse hc = reflect (reverse hc) /\
  reflectAndReverse (reflectAndReverse hc) = hc.
Proof.
  intros Hpts. unfold reflectAndReverse.
  split; [by rewrite reflect_reverse_commute|].
  rewrite reflect_reverse_commute, reverse_involutive.
  unfold reflect at 1. rewrite reflect_qs.
  pose proof (reflect_is_hpoint hc Hpts) as Hpts'.
  unfold reflect in *.
  destruct (oABCD (qs hc)); auto using reflectX_involutive, reflectY_involutive.
Qed.

(** ** The curve of type [H0] on a square of side [2^k] *)

(** X7: on a square of side [2^k] the curve of type [H0] runs from corner
    to corner along one side: in the orientation [A] from the origin to the
    other end of the bottom row, in [B] from the origin to the other end of
    the left column, in [C] from the opposite corner to the end of the top
    row, in [D] from the opposite corner to the end of the right column. *)
Theorem H0_corner_to_corner (k : nat) (c : HPoint) (o : Orientation) :
  qs_ok (mkQS (2 ^ Z.of_nat k) (2 ^ Z.of_nat k) c o) ->
  2 ^ Z.of_nat k * 2 ^ Z.of_nat k < UINT_RANGE ->
  exists hc first final,
    new_HilbertCurve (2 ^ Z.of_nat k) (2 ^ Z.of_nat k) H0 c o false = Some hc /\
    head (m_curve hc) = Some first /\ last (m_curve hc) = Some final /\
    coords first
    = match o with
      | A | B => (x c, y c)
      | C | D => (x c + 2 ^ Z.of_nat k - 1, y c + 2 ^ Z.of_nat k - 1)
      end /\
    coords final
    = match o with
      | A | D => (x c + 2 ^ Z.of_nat k - 1, y c)
      | B | C => (x c, y c + 2 ^ Z.of_nat k - 1)
      end.
Proof.
  intros Hok Hsize.
  replace (2 ^ Z.of_nat k) with (2 ^ Z.of_nat 0 * 2 ^ Z.of_nat k) in Hok, Hsize
    by (change (2 ^ Z.of_nat 0) with 1; lia).
  destruct (curve_ends_sound 0 H0 o (H0_ends 0 o) 3 k c eq_refl ltac:(lia)
              Hok Hsize)
    as (hc & Hnew & _ & _ & _ & [(p1 & Hp1 & Hc1) (p2 & Hp2 & Hc2)]).
  replace (2 ^ Z.of_nat 0 * 2 ^ Z.of_nat k) with (2 ^ Z.of_nat k) in Hnew
    by (change (2 ^ Z.of_nat 0) with 1; lia).
  exists hc, p1, p2. split; [exact Hnew|]. split; [done|]. split; [done|].
  rewrite Hc1, Hc2. unfold place_cell.
  split; destruct o; simpl; f_equal; lia.
Qed.

(** ** HPoint *)

(** X8: the order operators of [HPoint] compare rows first ([y], then [x]),
    and their strictness is crossed: [>] and [<] hold on equal points,
    [>=] and [<=] do not.  [p < q] is "not after" and [p <= q] is "before";
    on points with different coordinates the two agree. *)
Theorem HPoint_order_operators (p q : HPoint) :
  (HPoint_gt p p = true /\ HPoint_lt p p = true /\
   HPoint_ge p p = false /\ HPoint_le p p = false) /\
  (HPoint_lt p q = true <-> y p < y q \/ (y p = y q /\ x p <= x q)) /\
  (HPoint_le p q = true <-> y p < y q \/ (y p = y q /\ x p < x q)) /\
  (HPoint_gt p q = true <-> y q < y p \/ (y p = y q /\ x q <= x p)) /\
  (HPoint_ge p q = true <-> y q < y p \/ (y p = y q /\ x q < x p)) /\
  (HPoint_eq p q = true <-> coords p = coords q) /\
  (HPoint_eq p q = false ->
   HPoint_lt p q = HPoint_le p q /\ HPoint_gt p q = HPoint_ge p q).
Proof.
  unfold HPoint_le, HPoint_ge, HPoint_lt, HPoint_gt, HPoint_eq, coords.
  repeat split;
    repeat match goal with
           | |- context [?a <? ?b] => destruct (Z.ltb_spec a b)
           | |- context [?a =? ?b] => destruct (Z.eqb_spec a b)
           | H : context [?a <? ?b] |- _ => destruct (Z.ltb_spec a b)
           | H : context [?a =? ?b] |- _ => destruct (Z.eqb_spec a b)
           end; simpl in *; try (intros; (done || lia || congruence)).
  all: try (intros [= ? ?]; lia).
Qed.

(** X9: subtracting a point undoes adding it: on points whose coordinates
    are [hint] values, [(p + q) - q] and [(p - q) + q] are [p], with the
    difference and the index of [p], also when the sum wraps around. *)
Theorem HPoint_add_sub (p q : HPoint) :
  is_hpoint p ->
  HPoint_sub (HPoint_add p q) q = p /\ HPoint_add (HPoint_sub p q) q = p.
Proof.
  intros [Hx Hy]. destruct p as [px py pd pi]. unfold is_hint in *.
  unfold HPoint_sub, HPoint_add. simpl in *.
  rewrite !wrap_sub_l, !wrap_add_l.
  replace (px + x q - x q) with px by lia.
  replace (py + y q - y q) with py by lia.
  replace (px - x q + x q) with px by lia.
  replace (py - y q + y q) with py by lia.
  by rewrite !wrap_small by done.
Qed.

(** ** bestDimensions *)

(** X17: the dimensions that [bestDimensions] returns differ by at most
    one, and they can be too small for the sequence: with [f] the integer
    square root of the length [L] and [d = L - f * f], the area is below
    [L] exactly when [0 < 2 * d < f] (a square of side [f]) or
    [f < d] and [2 * d <= 3 * f + 1] (the rectangle of [f + 1] by [f]).
    The constructor of the plot then drops the values beyond the area. *)
Theorem bestDimensions_area (L : Z) :
  0 <= L < UINT_RANGE ->
  let f := Z.sqrt L in
  let d := L - f * f in
  let '(w, h) := bestDimensions L in
  (h = f \/ h = f + 1) /\ (w = h \/ w = h + 1) /\
  (w * h < L <-> 0 < 2 * d < f \/ (f < d /\ 2 * d <= 3 * f + 1)).
Proof.
  intros HL f d. rewrite bestDimensions_exact by done. fold f.
  pose proof (Z.sqrt_spec L (proj1 HL)) as Hs. fold f in Hs.
  unfold Z.succ in Hs. pose proof (Z.sqrt_nonneg L) as Hf. fold f in Hf.
  unfold waste, d. cbn [fst snd].
  destruct (Z.eqb_spec (f * f) L) as [Heq|Hne].
  { split; [auto|]. split; [auto|]. lia. }
  repeat match goal with
         | |- context [?a <? ?b] => destruct (Z.ltb_spec a b)
         end; (split; [auto|]); (split; [auto|]); lia.
Qed.

(** ** DataSequence *)

Lemma DataSequence_zip_snoc op missing (l : list hfloat) (v : hfloat) d :
  DataSequence_zip op missing (l ++ [v]) d =
  DataSequence_zip op missing l d ++
  [match d !! length l with Some w => op v w | None => missing v end].
Proof.
  unfold DataSequence_zip. rewrite imap_app. simpl.
  by rewrite Nat.add_0_r.
Qed.

Lemma length_DataSequence_zip op missing (l d : list hfloat) :
  length (DataSequence_zip op missing l d) = length l.
Proof. unfold DataSequence_zip. by rewrite length_imap. Qed.

(** X18: [operator/] on two sequences does not divide.  When one of the
    divisors it reads (the first [size ()] elements of [d]) is zero it
    throws [HilbertZeroDivision]; otherwise it returns what [operator*]
    returns, the products [this->at (i) * d[i]], of the size of the left
    operand. *)
Theorem DataSequence_div_multiplies (this d : list hfloat) :
  DataSequence_div this d =
  (if forallb (fun w => negb (hf_eqb w hf_zero)) (take (length this) d)
   then Return (DataSequence_mul this d)
   else Throw HilbertZeroDivision) /\
  length (DataSequence_mul this d) = length this.
Proof.
  split; [|apply length_DataSequence_zip].
  unfold DataSequence_div, DataSequence_mul.
  induction this as [|v l IH] using rev_ind; [done|].
  rewrite imap_app, foldl_app, IH, DataSequence_zip_snoc, length_app.
  cbn [imap foldl length fst snd]. rewrite Nat.add_0_r.
  replace (length l + 1)%nat with (S (length l)) by lia.
  destruct (d !! length l) as [w|] eqn:Hd.
  - rewrite (take_S_r _ _ _ Hd), forallb_app. cbn [forallb].
    destruct (forallb _ (take (length l) d)); [|done].
    cbn [bind_outcome andb]. by destruct (hf_eqb w hf_zero).
  - apply lookup_ge_None in Hd.
    rewrite !take_ge by lia.
    by destruct (forallb _ d).
Qed.

(** X19: [hammingDistance] is no distance: it returns what [operator==]
    returns, [1] where the two elements are equal and [0] where they
    differ or [d] has ended.  The Hamming distance of a sequence without
    NaN to itself is a sequence of ones. *)
Theorem hammingDistance_marks_equal (this d : list hfloat) :
  hammingDistance this d = DataSequence_eq this d /\
  (Forall (fun v => v <> NaN) this ->
   hammingDistance this this = replicate (length this) hf_one).
Proof.
  split.
  - unfold hammingDistance, DataSequence_eq, DataSequence_zip.
    apply imap_ext. intros i v _. cbn.
    destruct (d !! i) as [w|]; [|done]. by destruct (hf_eqb v w).
  - intros Hn. unfold hammingDistance.
    apply list_eq. intros i. rewrite list_lookup_imap.
    destruct (this !! i) as [v|] eqn:Hv.
    + cbn. pose proof (lookup_lt_Some _ _ _ Hv) as Hlt.
      rewrite (lookup_replicate_2 _ hf_one _ Hlt).
      rewrite Forall_lookup in Hn. specialize (Hn _ _ Hv).
      f_equal. destruct v as [q|s|]; [| |done]; cbn [hf_eqb].
      * by rewrite (proj2 (Qc_eqb_true q q) eq_refl).
      * by destruct s.
    + cbn. apply lookup_ge_None in Hv.
      symmetry. apply lookup_replicate_None. lia.
Qed.

Lemma granularity_loop_blocks (fuel n : nat) :
  (1 <= n)%nat ->
  forall it result, (length it < fuel)%nat ->
  exists r,
    granularity_loop fuel n it result = Some (result ++ r) /\
    length r = length it /\
    (forall b j : nat, ((b + 1) * n <= length it)%nat -> (j < n)%nat ->
       r !! (b * n + j)%nat =
       Some (hf_div (foldl hf_add hf_zero (take n (drop (b * n) it)))
                    (hf_of_Z (Z.of_nat n)))) /\
    (forall b i : nat, (length it < (b + 1) * n)%nat -> (b * n <= i)%nat ->
       r !! i = it !! i).
Proof.
  intros Hn. induction fuel as [|fuel IH]; intros it result Hf; [lia|].
  cbn [granularity_loop].
  destruct (Nat.leb_spec n (length it)) as [Hle|Hgt].
  - destruct (IH (drop n it)
                (result ++ replicate n
                   (hf_div (foldl hf_add hf_zero (take n it))
                           (hf_of_Z (Z.of_nat n)))))
      as (r & -> & Hlen & Hblock & Hrest).
    { rewrite length_drop. lia. }
    rewrite length_drop in *.
    eexists. split; [by rewrite <- app_assoc|].
    split; [rewrite length_app, length_replicate; lia|]. split.
    + intros b j Hb Hj. destruct b as [|b].
      * rewrite lookup_app_l by (rewrite length_replicate; lia).
        cbn. by rewrite lookup_replicate_2 by lia.
      * rewrite lookup_app_r by (rewrite length_replicate; lia).
        rewrite length_replicate.
        replace (S b * n + j - n)%nat with (b * n + j)%nat by lia.
        rewrite Hblock by lia.
        rewrite drop_drop.
        by replace (n + b * n)%nat with (S b * n)%nat by lia.
    + intros b i Hb Hi. destruct b as [|b]; [lia|].
      rewrite lookup_app_r by (rewrite length_replicate; lia).
      rewrite length_replicate.
      rewrite (Hrest b) by lia.
      rewrite lookup_drop. f_equal. lia.
  - exists it. split; [done|]. split; [done|]. split.
    + intros b j Hb Hj. lia.
    + done.
Qed.

(** X20: [granularity (n)] returns and keeps the size of the data.  For an
    empty sequence, for [n = 0] and for [n > size () / 2] the data are left
    as they are.  Otherwise every full block of [n] elements is replaced
    by [n] copies of its sum divided by [n], and the elements after the
    last full block are unchanged. *)
Theorem granularity_blocks (this : list hfloat) (n : Z) :
  0 <= n ->
  exists r,
    granularity this n = Some r /\
    length r = length this /\
    (n = 0 \/ Z.of_nat (length this) / 2 < n -> r = this) /\
    (1 <= n <= Z.of_nat (length this) / 2 ->
     (forall b j : nat,
        (Z.of_nat b + 1) * n <= Z.of_nat (length this) -> Z.of_nat j < n ->
        r !! (b * Z.to_nat n + j)%nat =
        Some (hf_div
                (foldl hf_add hf_zero
                   (take (Z.to_nat n) (drop (b * Z.to_nat n) this)))
                (hf_of_Z n))) /\
     (forall b i : nat,
        Z.of_nat (length this) < (Z.of_nat b + 1) * n ->
        Z.of_nat b * n <= Z.of_nat i ->
        r !! i = this !! i)).
Proof.
  intros Hn. unfold granularity.
  destruct (Nat.eqb_spec (length this) 0) as [H0|Hne].
  { exists this. split; [done|]. split; [done|]. split; [done|].
    rewrite H0. change (Z.of_nat 0 / 2) with 0. lia. }
  destruct (Z.ltb_spec (Z.of_nat (length this) / 2) n) as [Hbig|Hsmall].
  { exists this. split; [done|]. split; [done|]. split; [done|]. lia. }
  destruct (Z.eqb_spec n 0) as [Hz|Hnz].
  { exists this. split; [done|]. split; [done|]. split; [done|]. lia. }
  cbn [orb].
  destruct (granularity_loop_blocks (S (length this)) (Z.to_nat n)
              ltac:(lia) this [] ltac:(lia))
    as (r & Hr & Hlen & Hblock & Hrest).
  exists r. split; [done|]. split; [done|]. split; [lia|].
  intros _. split.
  - intros b j Hb Hj. rewrite Hblock by nia.
    by rewrite Z2Nat.id by lia.
  - intros b i Hb Hi. apply (Hrest b); nia.
Qed.

Lemma hf_to_int_fraction (q : Qc) :
  (-1 < q)%Qc -> (q < 1)%Qc ->
  hf_to_int (hf_add (hf_of_Z 0) (Fin q)) = Some 0.
Proof.
  intros Hlo Hhi. cbn [hf_of_Z hf_add].
  replace (Q2Qc (inject_Z 0) + q)%Qc with q.
  2:{ change (Q2Qc (inject_Z 0)) with 0%Qc. ring. }
  unfold hf_to_int.
  assert (Z.quot (Qnum q) (Z.pos (Qden q)) = 0) as ->; [|done].
  destruct q as [[a b] Hc]. unfold Qclt, Qlt in *. cbn in *.
  change (Qnum (Qred (- Qred 1))) with (-1) in Hlo.
  change (QDen (Qred (- Qred 1))) with 1 in Hlo.
  change (Qred 1) with 1%Q in Hhi. cbn in Hhi.
  apply Z.quot_small_iff; lia.
Qed.

(** X21: [mean] sums with an [int] accumulator
    ([std::accumulate (begin (), end (), 0)]), so the fraction of the sum
    is dropped at every element: the mean of values that all lie strictly
    between [-1] and [1] is [0], as is the mean of the empty sequence. *)
Theorem mean_of_fractions (data : list hfloat) :
  Forall (fun v => exists q : Qc, v = Fin q /\ (-1 < q)%Qc /\ (q < 1)%Qc)
         data ->
  DataSequence_mean data = Some hf_zero.
Proof.
  intros Hd. unfold DataSequence_mean.
  destruct (Nat.eqb_spec (length data) 0) as [|Hne]; [done|].
  assert (accumulate_int data = Some 0) as ->.
  { unfold accumulate_int. clear Hne.
    induction Hd as [|v l (q & -> & Hlo & Hhi) _ IH]; [done|].
    cbn [foldl mbind option_bind].
    by rewrite (hf_to_int_fraction q Hlo Hhi). }
  cbn [mbind option_bind hf_of_Z hf_div]. f_equal.
  assert (Qc_eqb (Q2Qc (inject_Z (Z.of_nat (length data)))) 0 = false) as ->.
  { destruct (Qc_eqb _ 0) eqn:He; [|done].
    apply Qc_eqb_true in He. change 0%Qc with (Q2Qc 0) in He.
    apply Q2Qc_eq_iff in He. unfold Qeq in He. cbn in He. lia. }
  unfold hf_zero. f_equal. change (Q2Qc (inject_Z 0)) with 0%Qc.
  unfold Qcdiv. ring.
Qed.

(** ** HilbertPlot *)

(** The curve of a constructed plot visits every cell of the grid once, and
    its points carry their positions. *)
Lemma plot_curve_grid data w0 h0 t pl :
  is_hint w0 -> is_hint h0 ->
  new_HilbertPlot data w0 h0 t = Some pl ->
  width (curve pl) * height (curve pl) < UINT_RANGE ->
  1 <= width (curve pl) -> 1 <= height (curve pl) ->
  grid_bijection (m_curve (curve pl)) (width (curve pl)) (height (curve pl)) /\
  m_type (curve pl) = t /\
  forall (k : nat) p, m_curve (curve pl) !! k = Some p -> index p = Z.of_nat k.
Proof.
  intros Hw0 Hh0 Hnew Hsize Hw Hh.
  destruct (new_HilbertPlot_inv _ _ _ _ _ Hw0 Hh0 Hnew)
    as (w' & h' & Hw' & Hh' & Hc & Hd & Htable).
  pose proof (new_HilbertCurve_qs _ _ _ _ _ _ _ Hc) as Hq.
  unfold width, height in *. rewrite Hq in *. simpl in *.
  assert (qs_ok (mkQS h' w' (HPoint_n 0) A)) as Hok.
  { assert (w' <= w' * h' /\ h' <= w' * h') as [? ?] by nia.
    unfold qs_ok, HPoint_n. simpl. repeat split; lia. }
  destruct (new_HilbertCurve_fills w' h' t (HPoint_n 0) A true)
    as (hc & Hc' & _ & Ht & Hf); try (done || lia).
  rewrite Hc in Hc'. injection Hc' as <-.
  split; [by apply (curve_fills_grid _ _ _ _ Hq)|]. split; [done|].
  by apply (new_HilbertCurve_index w' h' t (HPoint_n 0) A).
Qed.

(** X10: [replaceValueAt (index, value)] throws [HilbertIndexOutOfRange]
    for [index >= m_data.size ()] and otherwise stores the value: it is what
    [valueAt (index)] returns afterwards, the other values, the curve and
    the table are unchanged, and [m_min], [m_max] are a least and a greatest
    element of the new data. *)
Theorem replaceValueAt_stores (pl : HilbertPlot) (index : Z) (value : hfloat) :
  0 <= index ->
  (data_size pl <= index ->
   replaceValueAt pl index value = Throw HilbertIndexOutOfRange) /\
  (index < data_size pl ->
   exists pl',
     replaceValueAt pl index value = Return pl' /\
     curve pl' = curve pl /\ m_plotToCurve pl' = m_plotToCurve pl /\
     data_size pl' = data_size pl /\
     valueAt pl' index = Return value /\
     (forall j, 0 <= j -> j <> index -> valueAt pl' j = valueAt pl j) /\
     m_min pl' ∈ m_data pl' /\ m_max pl' ∈ m_data pl' /\
     forall v, v ∈ m_data pl' ->
       hf_ltb v (m_min pl') = false /\ hf_ltb (m_max pl') v = false).
Proof.
  intros Hi. unfold replaceValueAt. split.
  { intros Hge. by destruct (Z.leb_spec (data_size pl) index); [|lia]. }
  intros Hlt. destruct (Z.leb_spec (data_size pl) index); [lia|].
  unfold data_size in *. unfold vec_set. rewrite decide_True by lia.
  cbn [of_option bind_outcome].
  set (data := <[Z.to_nat index := value]> (m_data pl)).
  assert (length data = length (m_data pl)) as Hlen
    by apply length_insert.
  assert (data <> []) as Hne.
  { intros He. rewrite He in Hlen. simpl in Hlen. lia. }
  destruct (DataSequence_max_greatest data Hne) as (mx & -> & Hmx & Hgreatest).
  destruct (DataSequence_min_least data Hne) as (mn & -> & Hmn & Hleast).
  eexists. split; [reflexivity|]. cbn [curve m_plotToCurve m_data m_min m_max].
  split; [done|]. split; [done|]. split; [by rewrite Hlen|].
  unfold valueAt, data_at, data_size, vec_get. cbn [m_data]. rewrite Hlen.
  split; [|split].
  - destruct (Z.leb_spec (Z.of_nat (length (m_data pl))) index); [lia|].
    rewrite decide_True by lia. unfold data.
    by rewrite list_lookup_insert_eq by lia.
  - intros j Hj Hne'.
    destruct (Z.leb_spec (Z.of_nat (length (m_data pl))) j); [done|].
    rewrite !decide_True by lia. unfold data.
    by rewrite list_lookup_insert_ne by lia.
  - split; [done|]. split; [done|]. intros v Hv. by split; [apply Hleast|apply Hgreatest].
Qed.

(** X11: the constructor of the plot on dimensions that it is given
    ([width, height >= 1], [width * height < 2^32]) returns a plot of this
    width and height and of the type asked for.  It stores the first
    [width * height] values of the data, followed by zeros where the data
    are shorter; the values beyond [width * height] are dropped.  [m_min]
    and [m_max] are a least and a greatest stored value. *)
Theorem new_HilbertPlot_resizes (data : list hfloat) (w h : Z) (t : CurveType) :
  1 <= w -> 1 <= h -> w * h < UINT_RANGE ->
  exists pl,
    new_HilbertPlot data w h t = Some pl /\
    width (curve pl) = w /\ height (curve pl) = h /\ m_type (curve pl) = t /\
    Z.of_nat (length (m_curve (curve pl))) = w * h /\
    m_data pl = take (Z.to_nat (w * h)) data
                ++ replicate (Z.to_nat (w * h) - length data) hf_zero /\
    Z.of_nat (length (m_data pl)) = w * h /\
    m_min pl ∈ m_data pl /\ m_max pl ∈ m_data pl /\
    forall v, v ∈ m_data pl ->
      hf_ltb v (m_min pl) = false /\ hf_ltb (m_max pl) v = false.
Proof.
  intros Hw Hh Hsize.
  assert (w <= w * h /\ h <= w * h) as [Hww Hhh] by nia.
  assert (qs_ok (mkQS h w (HPoint_n 0) A)) as Hok.
  { unfold qs_ok, HPoint_n. simpl. repeat split; lia. }
  destruct (new_HilbertCurve_fills w h t (HPoint_n 0) A true Hok Hw Hh Hsize)
    as (hc & Hc & Hq & Ht & Hf).
  pose proof (curve_fills_grid _ _ _ _ Hq ltac:(lia) ltac:(lia) Hf)
    as (Hlen & Hnd & Hgrid).
  destruct (plot_table w h (m_curve hc) ltac:(lia) ltac:(lia))
    as (table & Htable & _); [|done|].
  { intros p Hp. apply (Hgrid (x p) (y p)).
    rewrite map_fmap. by apply (list_elem_of_fmap_2 coords). }
  unfold new_HilbertPlot, constructCurve.
  destruct (Z.eqb_spec w 0); [lia|]. destruct (Z.eqb_spec h 0); [lia|].
  cbn [orb]. rewrite Hc. cbn [mbind option_bind]. rewrite Htable.
  cbn [mbind option_bind]. rewrite (wrap_small (w * h)) by lia.
  set (stored := resize_data data (w * h)).
  pose proof (length_resize_data data (w * h) ltac:(lia)) as Hld.
  fold stored in Hld.
  assert (stored <> []) as Hne.
  { intros He. rewrite He in Hld. simpl in Hld. lia. }
  destruct (Nat.ltb_spec 0 (length stored)) as [_|]; [|lia].
  destruct (DataSequence_min_least stored Hne) as (mn & -> & Hmn & Hleast).
  destruct (DataSequence_max_greatest stored Hne) as (mx & -> & Hmx & Hgreatest).
  eexists. split; [reflexivity|].
  cbn [curve m_data m_min m_max]. unfold width, height. rewrite Hq.
  repeat split; try done.
  - by apply Hleast.
  - by apply Hgreatest.
Qed.


(** ** The scan of the half spectrum *)

Lemma scan_bins_snoc bins v :
  scan_bins (bins ++ [v]) = scan_bin (scan_bins bins) v.
Proof. unfold scan_bins. by rewrite foldl_app. Qed.

(** X16: what the scan of [hpFourierTransform] leaves in [max], [min] and
    [max2].  [max] is its initial value [DBL_MIN] or a bin, and no bin is
    greater; [min] is [DBL_MAX] or a bin, and no bin is smaller; [max2] is
    [DBL_MIN] or a bin strictly below [max].  It need not be the second
    largest bin: when the bins come in strictly ascending order, all of
    them above [DBL_MIN], [max] is the last bin and [max2] is still
    [DBL_MIN]. *)
Theorem scan_bins_bounds (bins : list hfloat) :
  let '(max, min, max2) := scan_bins bins in
  (max = DBL_MIN \/ max ∈ bins) /\
  (forall v, v ∈ bins -> hf_ltb max v = false) /\
  (min = DBL_MAX \/ min ∈ bins) /\
  (forall v, v ∈ bins -> hf_ltb v min = false) /\
  (max2 = DBL_MIN \/ (max2 ∈ bins /\ hf_ltb max2 max = true)) /\
  ((forall (i : nat) a b,
      (DBL_MIN :: bins) !! i = Some a -> bins !! i = Some b ->
      hf_ltb a b = true) ->
   last (DBL_MIN :: bins) = Some max /\ max2 = DBL_MIN).
Proof.
  induction bins as [|v bins IH] using rev_ind.
  { cbn. repeat split; auto; by intros v Hv%elem_of_nil. }
  rewrite scan_bins_snoc.
  destruct (scan_bins bins) as [[max min] max2].
  destruct IH as (Hmax & Hgreatest & Hmin & Hleast & Hmax2 & Hasc).
  cbn [scan_bin]. unfold hf_gtb.
  split; [|split; [|split; [|split; [|split]]]].
  - destruct (hf_ltb max v).
    + right. apply elem_of_app. right. by apply list_elem_of_singleton.
    + destruct Hmax as [->|Hin]; [by left|].
      right. apply elem_of_app. by left.
  - intros u [Hu| ->%list_elem_of_singleton]%elem_of_app.
    + destruct (hf_ltb max v) eqn:Hlt; [|by apply Hgreatest].
      destruct (hf_ltb v u) eqn:Hvu; [|done].
      pose proof (Hgreatest u Hu) as Hg.
      by rewrite (hf_ltb_trans _ _ _ Hlt Hvu) in Hg.
    + destruct (hf_ltb max v) eqn:Hlt; [apply hf_ltb_irrefl|done].
  - destruct (hf_ltb v min).
    + right. apply elem_of_app. right. by apply list_elem_of_singleton.
    + destruct Hmin as [->|Hin]; [by left|].
      right. apply elem_of_app. by left.
  - intros u [Hu| ->%list_elem_of_singleton]%elem_of_app.
    + destruct (hf_ltb v min) eqn:Hlt; [|by apply Hleast].
      destruct (hf_ltb u v) eqn:Huv; [|done].
      pose proof (Hleast u Hu) as Hg.
      by rewrite (hf_ltb_trans _ _ _ Huv Hlt) in Hg.
    + destruct (hf_ltb v min) eqn:Hlt; [apply hf_ltb_irrefl|done].
  - destruct (hf_ltb max v) eqn:Hlt.
    + rewrite hf_ltb_irrefl, Bool.andb_false_r.
      destruct Hmax2 as [->|[Hin Hlt2]]; [by left|]. right.
      split; [apply elem_of_app; by left|].
      by apply (hf_ltb_trans _ max).
    + destruct (hf_ltb max2 v && hf_ltb v max) eqn:Hc.
      * apply andb_prop in Hc as [_ Hvm]. right.
        split; [|done]. apply elem_of_app. right.
        by apply list_elem_of_singleton.
      * destruct Hmax2 as [->|[Hin Hlt2]]; [by left|]. right.
        split; [apply elem_of_app; by left|done].
  - intros Hup.
    destruct Hasc as [Hl ->].
    { intros i a b Ha Hb. apply (Hup i a b).
      - rewrite app_comm_cons. by apply lookup_app_l_Some.
      - by apply lookup_app_l_Some. }
    assert (hf_ltb max v = true) as ->.
    { apply (Hup (length bins) max v).
      - rewrite last_lookup in Hl. simpl in Hl.
        rewrite app_comm_cons, lookup_app_l by (simpl; lia). done.
      - by rewrite list_lookup_middle. }
    rewrite hf_ltb_irrefl, Bool.andb_false_r.
    split; [|done]. by rewrite app_comm_cons, last_snoc.
Qed.

(** ** The plot as an image *)

(** The value and the position that a constructed plot holds for a cell. *)
Lemma plot_cell data w0 h0 t pl a b :
  is_hint w0 -> is_hint h0 ->
  new_HilbertPlot data w0 h0 t = Some pl ->
  width (curve pl) * height (curve pl) < UINT_RANGE ->
  0 <= a < width (curve pl) -> 0 <= b < height (curve pl) ->
  exists (i : nat) p v,
    m_curve (curve pl) !! i = Some p /\ coords p = (a, b) /\
    m_data pl !! i = Some v /\
    Z.of_nat i < width (curve pl) * height (curve pl) /\
    plotToCurve pl a b = Return (Z.of_nat i) /\
    indexOf pl a b = Return (Z.of_nat i) /\
    valueAt_xy pl a b = Return v.
Proof.
  intros Hw0 Hh0 Hnew Hsize Ha Hb.
  destruct (plot_index data w0 h0 t pl Hw0 Hh0 Hnew Hsize a b Ha Hb)
    as (i & p & Hp & Hc & Hi & Htab).
  destruct (plot_data_at data w0 h0 t pl Hw0 Hh0 Hnew Hsize (Z.of_nat i))
    as (v & Hv & Hat); [lia|].
  rewrite Nat2Z.id in Hv.
  pose proof (plot_data_size data w0 h0 t pl Hw0 Hh0 Hnew Hsize) as Hds.
  exists i, p, v. repeat (split; [done|]).
  unfold indexOf, valueAt_xy.
  destruct (Z.leb_spec (width (curve pl)) a); [lia|].
  destruct (Z.leb_spec (height (curve pl)) b); [lia|].
  cbn [orb]. split; [done|]. rewrite Htab. cbn [bind_outcome].
  rewrite Hds. by destruct (Z.leb_spec (width (curve pl) * height (curve pl))
                              (Z.of_nat i)); [lia|].
Qed.

(** A table that is filled at the cells of a list of points holds for each
    point the value written for it, when no cell comes twice. *)
Lemma table_fill {T} (w h : Z) (init : T) (val : HPoint -> T)
    (l : list HPoint) :
  0 <= w -> 0 <= h ->
  (forall p, p ∈ l -> 0 <= x p < w /\ 0 <= y p < h) ->
  NoDup (map coords l) ->
  exists table,
    foldl (fun t p => t ← t;
                      column ← vec_get t (x p);
                      column ← vec_set column (y p) (val p);
                      vec_set t (x p) column)
          (Some (replicate (Z.to_nat w) (replicate (Z.to_nat h) init))) l
    = Some table /\
    length table = Z.to_nat w /\
    (forall col, col ∈ table -> length col = Z.to_nat h) /\
    forall p, p ∈ l ->
              exists col, table !! Z.to_nat (x p) = Some col /\
                          col !! Z.to_nat (y p) = Some (val p).
Proof.
  intros Hw Hh. induction l as [|p l IH] using rev_ind; intros Hin Hnd.
  - eexists. split; [done|]. split; [apply length_replicate|].
    split; [|by intros p Hp%elem_of_nil].
    intros col [-> _]%elem_of_replicate. apply length_replicate.
  - rewrite map_app in Hnd. simpl in Hnd.
    apply NoDup_app in Hnd as (Hnd & Hnotin & _).
    destruct IH as (table & Hfold & Hlen & Hcols & Hget); [|done|].
    { intros q Hq. apply Hin, elem_of_app. by left. }
    destruct (Hin p) as (Hx & Hy);
      [apply elem_of_app; right; by apply list_elem_of_singleton|].
    rewrite foldl_app, Hfold. simpl. unfold vec_get, vec_set.
    rewrite decide_True by lia.
    destruct (table !! Z.to_nat (x p)) as [col|] eqn:Hcol;
      [|apply lookup_ge_None in Hcol; lia].
    assert (length col = Z.to_nat h) as Hlcol
      by (by eapply Hcols, list_elem_of_lookup_2).
    cbn [mbind option_bind]. rewrite decide_True by lia.
    cbn [mbind option_bind]. rewrite decide_True by lia.
    eexists. split; [done|]. split; [by rewrite length_insert|]. split.
    + intros col' Hcol'. apply list_elem_of_lookup_1 in Hcol' as (i & Hi).
      destruct (decide (i = Z.to_nat (x p))) as [->|Hne].
      * rewrite list_lookup_insert_eq in Hi by lia.
        injection Hi as <-. by rewrite length_insert.
      * rewrite list_lookup_insert_ne in Hi by done.
        by eapply Hcols, list_elem_of_lookup_2.
    + intros q [Hq| ->%list_elem_of_singleton]%elem_of_app.
      * destruct (Hget q Hq) as (colq & Hcq & Hiq).
        assert (coords q <> coords p) as Hne.
        { intros Heq. apply (Hnotin (coords p)).
          - rewrite <- Heq, map_fmap. by apply list_elem_of_fmap_2.
          - by apply list_elem_of_singleton. }
        destruct (Hin q) as (Hxq & Hyq); [apply elem_of_app; by left|].
        destruct (decide (Z.to_nat (x q) = Z.to_nat (x p))) as [Heq|Hnx].
        -- rewrite Heq, list_lookup_insert_eq by lia.
           eexists. split; [done|].
           rewrite Heq, Hcol in Hcq. injection Hcq as <-.
           rewrite list_lookup_insert_ne; [done|].
           intros Hy'. apply Hne. unfold coords. f_equal; lia.
        -- rewrite list_lookup_insert_ne by done. eauto.
      * rewrite list_lookup_insert_eq by lia. eexists. split; [done|].
        by rewrite list_lookup_insert_eq by lia.
Qed.

(** The loop of [generateImage] over the points of the curve, when
    [valueAt] returns for each of them. *)
Lemma image_loop (pl : HilbertPlot) (g : hfloat -> HPoint -> hfloat)
    (dv : HPoint -> hfloat) (l : list HPoint) (image : list (list hfloat)) :
  (forall p, p ∈ l -> valueAt_xy pl (x p) (y p) = Return (dv p)) ->
  foldl (fun image point =>
           do image <- image;
           do v <- valueAt_xy pl (x point) (y point);
           image_set image point (g v point))
        (Return image) l
  = of_option
      (foldl (fun t p => t ← t;
                         column ← vec_get t (x p);
                         column ← vec_set column (y p) (g (dv p) p);
                         vec_set t (x p) column)
             (Some image) l).
Proof.
  induction l as [|p l IH] using rev_ind; intros Hv; [done|].
  rewrite !foldl_app, IH
    by (intros q Hq; apply Hv, elem_of_app; by left).
  cbn [foldl].
  destruct (foldl _ (Some image) l) as [t|]; [|done].
  cbn [of_option bind_outcome mbind option_bind].
  rewrite Hv by (apply elem_of_app; right; by apply list_elem_of_singleton).
  done.
Qed.

(** The constructor establishes the invariant of the plot. *)
Lemma new_HilbertPlot_invariant data w0 h0 t pl :
  is_hint w0 -> is_hint h0 ->
  new_HilbertPlot data w0 h0 t = Some pl ->
  1 <= width (curve pl) -> 1 <= height (curve pl) ->
  width (curve pl) * height (curve pl) < UINT_RANGE ->
  plot_invariant pl.
Proof.
  intros Hw0 Hh0 Hnew Hw Hh Hsize.
  destruct (plot_curve_grid data w0 h0 t pl)
    as ((Hlen & Hnd & Hgrid) & _ & Hidx); try done.
  split; [lia|]. split; [lia|]. split; [done|].
  split; [by apply (plot_data_size data w0 h0 t)|].
  intros i p Hp.
  assert (0 <= x p < width (curve pl) /\ 0 <= y p < height (curve pl))
    as [Hx Hy].
  { apply (Hgrid (x p) (y p)). rewrite map_fmap.
    apply (list_elem_of_fmap_2 coords). by eapply list_elem_of_lookup_2. }
  destruct (plot_cell data w0 h0 t pl (x p) (y p))
    as (i' & p' & v & Hp' & Hc & _ & _ & Htab & _); try done.
  rewrite Htab. do 2 f_equal.
  apply (NoDup_lookup _ i' i (coords p) Hnd);
    rewrite map_fmap, list_lookup_fmap.
  - rewrite Hp'. simpl. by rewrite Hc.
  - by rewrite Hp.
Qed.

(** The value that a plot holds for a cell. *)
Lemma invariant_cell pl a b :
  plot_invariant pl ->
  0 <= a < width (curve pl) -> 0 <= b < height (curve pl) ->
  exists (i : nat) p v,
    m_curve (curve pl) !! i = Some p /\ coords p = (a, b) /\
    m_data pl !! i = Some v /\
    valueAt_xy pl a b = Return v.
Proof.
  intros (_ & _ & (Hlen & Hnd & Hgrid) & Hds & Htab) Ha Hb.
  pose proof (proj2 (Hgrid a b) (conj Ha Hb)) as Hin.
  rewrite map_fmap in Hin.
  apply list_elem_of_fmap in Hin as (p & Hc & Hp).
  apply list_elem_of_lookup_1 in Hp as (i & Hp).
  assert (i < length (m_curve (curve pl)))%nat as Hi
    by (by eapply lookup_lt_Some).
  unfold data_size in Hds.
  destruct (m_data pl !! i) as [v|] eqn:Hv;
    [|apply lookup_ge_None in Hv; lia].
  exists i, p, v. do 3 (split; [done|]).
  unfold coords in Hc. injection Hc as -> ->.
  unfold valueAt_xy.
  destruct (Z.leb_spec (width (curve pl)) (x p)); [lia|].
  destruct (Z.leb_spec (height (curve pl)) (y p)); [lia|].
  cbn [orb]. rewrite (Htab i p Hp). cbn [bind_outcome].
  unfold data_size.
  destruct (Z.leb_spec (Z.of_nat (length (m_data pl))) (Z.of_nat i)); [lia|].
  unfold data_at, vec_get. by rewrite decide_True, Nat2Z.id, Hv by lia.
Qed.

(** X14: [generateImage] on a plot returns an image of [width] columns of
    [height] entries.  The entry of the cell [(x, y)] is computed from the
    value [v] stored for the point of the curve at this cell, in the
    arithmetic [ar] of [hfloat]: for a threshold that is not positive it is
    [v * minmax] (the minimum is not subtracted); for a positive threshold
    it is the mark [2] where the quotient of the difference value of the
    point by the mean difference, as [ar] computes it, is greater than the
    threshold, and [(v - m_min) * minmax] elsewhere.  [minmax] is
    [1 / (m_max - m_min)], and [0] when [m_max == m_min].  The difference
    values are those that the curve holds. *)
Theorem generateImage_entries (ar : arithmetic) (pl : HilbertPlot)
    (threshold : hfloat) :
  plot_invariant pl ->
  let w := width (curve pl) in
  let h := height (curve pl) in
  let minmax :=
    if hf_eqb (m_max pl) (m_min pl) then hf_zero
    else ar_div ar hf_one (ar_sub ar (m_max pl) (m_min pl)) in
  exists image,
    generateImage_in ar pl threshold = Return image /\
    generateImage pl threshold = generateImage_in exact pl threshold /\
    Z.of_nat (length image) = w /\
    (forall col, col ∈ image -> Z.of_nat (length col) = h) /\
    forall a b, 0 <= a < w -> 0 <= b < h ->
      exists (i : nat) p v col,
        m_curve (curve pl) !! i = Some p /\ coords p = (a, b) /\
        m_data pl !! i = Some v /\
        image !! Z.to_nat a = Some col /\
        col !! Z.to_nat b
        = Some (if hf_gtb threshold hf_zero
                then if hf_gtb (ar_div ar (difference p)
                                  (meanDifference (curve pl))) threshold
                     then Fin 2%Qc
                     else ar_mul ar (ar_sub ar v (m_min pl)) minmax
                else ar_mul ar v minmax).
Proof.
  intros Hinv w h minmax.
  pose proof Hinv as (Hw & Hh & (Hlen & Hnd & Hgrid) & Hds & Htab).
  fold w h in Hw, Hh, Hlen, Hgrid.
  set (dv := fun p : HPoint =>
               match valueAt_xy pl (x p) (y p) with
               | Return v => v
               | _ => hf_zero
               end).
  set (marked := fun (v : hfloat) (p : HPoint) =>
                   if hf_gtb (ar_div ar (difference p)
                                (meanDifference (curve pl))) threshold
                   then Fin 2%Qc
                   else ar_mul ar (ar_sub ar v (m_min pl)) minmax).
  set (plain := fun (v : hfloat) (p : HPoint) => ar_mul ar v minmax).
  assert (forall p, p ∈ m_curve (curve pl) -> 0 <= x p < w /\ 0 <= y p < h)
    as Hin.
  { intros p Hp. apply (Hgrid (x p) (y p)).
    rewrite map_fmap. by apply (list_elem_of_fmap_2 coords). }
  assert (forall p, p ∈ m_curve (curve pl) ->
                    valueAt_xy pl (x p) (y p) = Return (dv p)) as Hval.
  { intros p Hp. destruct (Hin p Hp) as [Hx Hy].
    destruct (invariant_cell pl (x p) (y p))
      as (i & p' & v & _ & _ & _ & Hv); try done.
    unfold dv. by rewrite Hv. }
  assert (forall entry : hfloat -> HPoint -> hfloat,
            exists image,
              foldl (fun image point =>
                       do image <- image;
                       do v <- valueAt_xy pl (x point) (y point);
                       image_set image point (entry v point))
                    (Return (replicate (Z.to_nat w)
                               (replicate (Z.to_nat h) hf_zero)))
                    (m_curve (curve pl))
              = Return image /\
              Z.of_nat (length image) = w /\
              (forall col, col ∈ image -> Z.of_nat (length col) = h) /\
              forall a b, 0 <= a < w -> 0 <= b < h ->
                exists (i : nat) p v col,
                  m_curve (curve pl) !! i = Some p /\ coords p = (a, b) /\
                  m_data pl !! i = Some v /\
                  image !! Z.to_nat a = Some col /\
                  col !! Z.to_nat b = Some (entry v p)) as Hloop.
  { intros entry.
    destruct (table_fill w h hf_zero (fun p => entry (dv p) p)
                (m_curve (curve pl)) ltac:(lia) ltac:(lia) Hin Hnd)
      as (image & Himage & Hl & Hcols & Hget).
    exists image. split.
    { rewrite (image_loop pl entry dv _ _ Hval).
      exact (f_equal of_option Himage). }
    split; [lia|]. split; [intros col Hcol; rewrite (Hcols col Hcol); lia|].
    intros a b Ha Hb.
    destruct (invariant_cell pl a b)
      as (i & p & v & Hp & Hc & Hv & Hat); try done.
    destruct (Hget p) as (col & Hcol & He);
      [by eapply list_elem_of_lookup_2|].
    injection Hc as <- <-.
    exists i, p, v, col. repeat (split; [done|]).
    rewrite He. unfold dv. by rewrite Hat. }
  assert (generateImage pl threshold = generateImage_in exact pl threshold)
    as Hexact by reflexivity.
  unfold generateImage_in at 1. fold w h minmax.
  destruct (hf_gtb threshold hf_zero) eqn:Hth.
  - destruct (Hloop marked) as (image & Himage & Hl & Hcols & Hget).
    exists image. split; [exact Himage|]. split; [exact Hexact|].
    split; [done|]. split; [done|]. exact Hget.
  - destruct (Hloop plain) as (image & Himage & Hl & Hcols & Hget).
    exists image. split; [exact Himage|]. split; [exact Hexact|].
    split; [done|]. split; [done|]. exact Hget.
Qed.


(** ** The spectral transform *)

Section Fourier_returns.

Variable fftw_dft_r2c_2d : Z -> Z -> list hfloat -> list (hfloat * hfloat).
Variable log : hfloat -> hfloat.
Variables (data : list hfloat) (w0 h0 : Z) (t : CurveType) (pl : HilbertPlot).
Hypothesis Hw0 : is_hint w0.
Hypothesis Hh0 : is_hint h0.
Hypothesis Hnew : new_HilbertPlot data w0 h0 t = Some pl.
Hypothesis Hw : 1 <= width (curve pl).
Hypothesis Hh : 1 <= height (curve pl).
Hypothesis Hsize : width (curve pl) * height (curve pl) < UINT_RANGE.

Local Abbreviation w := (width (curve pl)).
Local Abbreviation h := (height (curve pl)).

Lemma dims_bound :
    w <= w * h /\ h <= w * h /\ 0 <= w / 2 < w /\ h * (w / 2 + 1) <= w * h.
  Proof.
    assert (0 <= w / 2 < w) as Hw2
      by (split; [apply Z.div_pos|apply Z.div_lt]; lia).
    repeat split; nia.
  Qed.

Lemma fourier_input_raster :
    exists input,
      fourier_input pl w h = Return input /\
      Z.of_nat (length input) = w * h /\
      forall a b, 0 <= a < w -> 0 <= b < h ->
        of_option (input !! Z.to_nat (b * w + a)) = valueAt_xy pl a b.
  Proof.
    unfold fourier_input.
    pose proof (foldl_seqZ_inv
      (fun y acc =>
         exists input : list hfloat,
           acc = Return input /\ Z.of_nat (length input) = y * w /\
           forall a b, 0 <= a < w -> 0 <= b < y ->
             of_option (input !! Z.to_nat (b * w + a)) = valueAt_xy pl a b)
      (fun acc y =>
         foldl (fun acc x =>
                  do input <- acc;
                  do val <- valueAt_xy pl x y;
                  Return (input ++ [val]))
               acc (seqZ 0 w))
      h 0 (Return [])) as Hrows.
    destruct Hrows as (input & Hin & Hlen & Hget); [lia| | |].
    - exists []. split; [done|]. split; [done|]. intros; lia.
    - intros y acc Hy (input & -> & Hlen & Hget).
      pose proof (foldl_seqZ_inv
        (fun x acc =>
           exists input : list hfloat,
             acc = Return input /\
             Z.of_nat (length input) = y * w + x /\
             forall a b, 0 <= a < w -> 0 <= b <= y -> (b = y -> a < x) ->
               of_option (input !! Z.to_nat (b * w + a)) = valueAt_xy pl a b)
        (fun acc x =>
           do input <- acc;
           do val <- valueAt_xy pl x y;
           Return (input ++ [val]))
        w 0 (Return input)) as Hrow.
      destruct Hrow as (input' & Hin' & Hlen' & Hget'); [lia| | |].
      + exists input. split; [done|]. split; [lia|].
        intros a b Ha Hb Hlast. apply Hget; lia.
      + intros x acc Hx (input' & -> & Hlen' & Hget').
        destruct (plot_cell data w0 h0 t pl x y Hw0 Hh0 Hnew Hsize)
          as (i & p & v & _ & _ & _ & _ & _ & _ & Hv); [lia|lia|].
        cbn [bind_outcome]. rewrite Hv. cbn [bind_outcome].
        eexists. split; [done|]. split; [rewrite length_app; simpl; lia|].
        intros a b Ha Hb Hlast.
        destruct (decide (b = y /\ a = x)) as [[-> ->]|Hne].
        * rewrite Hv, lookup_app_r by lia.
          by replace (Z.to_nat (y * w + x) - length input')%nat with 0%nat
            by lia.
        * assert (b * w + a < y * w + x) by nia.
          rewrite lookup_app_l by lia. apply Hget'; lia.
      + exists input'. split; [done|]. split; [lia|].
        intros a b Ha Hb. apply Hget'; lia.
    - exists input. split; [done|]. split; [lia|done].
  Qed.

Lemma arrange_bin_returns dataoutput logflag max min max2 maxmin y x output :
    Z.of_nat (length dataoutput) = h * (w / 2 + 1) ->
    0 <= y < h -> 0 <= x <= w / 2 ->
    Z.of_nat (length output) = w * h ->
    exists output',
      arrange_bin log pl dataoutput logflag max min max2 maxmin (w / 2) y
                  (Return output) x = Return output' /\
      Z.of_nat (length output') = w * h.
  Proof.
    intros Hout Hy Hx Hlen.
    destruct dims_bound as (Hww & Hhh & Hw2 & Hbins).
    unfold arrange_bin. cbn [bind_outcome].
    destruct (plot_cell data w0 h0 t pl x y Hw0 Hh0 Hnew Hsize)
      as (i1 & _ & _ & _ & _ & _ & Hi1 & _ & -> & _); [lia|lia|].
    cbn [bind_outcome].
    rewrite (wrap_small (w - x)), (wrap_small (w - x - 1)) by lia.
    destruct (plot_cell data w0 h0 t pl (w - x - 1) y Hw0 Hh0 Hnew Hsize)
      as (i2 & _ & _ & _ & _ & _ & Hi2 & _ & -> & _); [lia|lia|].
    cbn [bind_outcome].
    rewrite (wrap_small (w / 2 + 1)) by lia.
    assert (0 <= y * (w / 2 + 1) + x < h * (w / 2 + 1)) as Hbin by nia.
    rewrite (wrap_small (y * (w / 2 + 1))),
      (wrap_small (y * (w / 2 + 1) + x)) by nia.
    unfold vec_get. rewrite decide_True by lia.
    destruct (dataoutput !! Z.to_nat (y * (w / 2 + 1) + x)) as [c|] eqn:Hc;
      [|apply lookup_ge_None in Hc; lia].
    cbn [of_option bind_outcome]. unfold vec_set.
    rewrite decide_True by lia. cbn [of_option bind_outcome].
    rewrite decide_True by (rewrite length_insert; lia).
    eexists. split; [done|]. by rewrite !length_insert.
  Qed.

Lemma arrange_row_returns dataoutput logflag max min max2 maxmin y output :
    Z.of_nat (length dataoutput) = h * (w / 2 + 1) ->
    0 <= y < h ->
    Z.of_nat (length output) = w * h ->
    exists output',
      arrange_row log pl dataoutput logflag max min max2 maxmin (w / 2)
                  (Return output) y = Return output' /\
      Z.of_nat (length output') = w * h.
  Proof.
    intros Hout Hy Hlen.
    destruct dims_bound as (Hww & Hhh & Hw2 & Hbins).
    unfold arrange_row.
    pose proof (foldl_seqZ_inv
      (fun x acc => exists output' : list hfloat,
                      acc = Return output' /\
                      Z.of_nat (length output') = w * h)
      (arrange_bin log pl dataoutput logflag max min max2 maxmin (w / 2) y)
      (w / 2 + 1) 0 (Return output)) as Hloop.
    destruct Hloop as (output1 & -> & Hlen1); [lia|by exists output| |].
    { intros x acc Hx (output' & -> & Hlen').
      apply arrange_bin_returns; (done || lia). }
    cbn [bind_outcome].
    rewrite (wrap_small (w / 2 + 1)) by lia.
    assert (0 <= y * (w / 2 + 1) < h * (w / 2 + 1)) as Hbin by nia.
    rewrite (wrap_small (y * (w / 2 + 1))) by nia.
    unfold vec_get. rewrite decide_True by lia.
    destruct (dataoutput !! Z.to_nat (y * (w / 2 + 1))) as [c|] eqn:Hc;
      [|apply lookup_ge_None in Hc; lia].
    cbn [of_option bind_outcome].
    destruct (plot_cell data w0 h0 t pl (w / 2) y Hw0 Hh0 Hnew Hsize)
      as (i & _ & _ & _ & _ & _ & Hi & _ & Hio & _); [lia|lia|].
    destruct logflag; cbn [negb].
    - destruct (hf_gtb _ hf_zero); [|by exists output1].
      rewrite Hio. cbn [bind_outcome]. unfold vec_set.
      rewrite decide_True by lia. eexists. split; [done|].
      by rewrite length_insert.
    - rewrite Hio. cbn [bind_outcome]. unfold vec_set.
      rewrite decide_True by lia. eexists. split; [done|].
      by rewrite length_insert.
  Qed.

Lemma hpFourierTransform_total logflag :
    (forall input,
       Z.of_nat (length input) = w * h ->
       Z.of_nat (length (fftw_dft_r2c_2d h w input)) = h * (w / 2 + 1)) ->
    exists input output,
      fourier_input pl w h = Return input /\
      Z.of_nat (length input) = w * h /\
      (forall a b, 0 <= a < w -> 0 <= b < h ->
         of_option (input !! Z.to_nat (b * w + a)) = valueAt_xy pl a b) /\
      hpFourierTransform fftw_dft_r2c_2d log pl logflag = Return output /\
      Z.of_nat (length output) = w * h.
  Proof.
    intros Hfftw.
    destruct dims_bound as (Hww & Hhh & Hw2 & Hbins).
    destruct fourier_input_raster as (input & Hin & Hlen & Hget).
    exists input. unfold hpFourierTransform.
    pose proof (plot_data_size data w0 h0 t pl Hw0 Hh0 Hnew Hsize) as Hds.
    unfold data_size in Hds.
    destruct (Nat.eqb_spec (length (m_data pl)) 0) as [He|_]; [lia|].
    rewrite Hin. cbn [bind_outcome].
    specialize (Hfftw input Hlen).
    set (dataoutput := fftw_dft_r2c_2d h w input) in *.
    rewrite (wrap_small (w / 2 + 1)), (wrap_small (h * (w / 2 + 1))),
      (wrap_small (w * h)) by nia.
    pose proof (foldl_seqZ_inv
      (fun (i : Z) acc => exists bins : list hfloat, acc = Return bins)
      (fun acc i =>
         do bins <- acc;
         do c <- of_option (vec_get dataoutput i);
         Return (bins ++ [magnitude2 c]))
      (h * (w / 2 + 1)) 0 (Return [])) as Hscan.
    destruct Hscan as (bins & ->); [lia|by exists []| |].
    { intros i acc Hi (bins & ->). cbn [bind_outcome].
      unfold vec_get. rewrite decide_True by lia.
      destruct (dataoutput !! Z.to_nat i) as [c|] eqn:Hc;
        [|apply lookup_ge_None in Hc; lia].
      cbn [of_option bind_outcome]. by eexists. }
    cbn [bind_outcome].
    destruct (scan_bins bins) as [[max min] max2].
    pose proof (foldl_seqZ_inv
      (fun y acc => exists output : list hfloat,
                      acc = Return output /\
                      Z.of_nat (length output) = w * h)
      (arrange_row log pl dataoutput logflag max min max2
         (if logflag then log (hf_sub max2 min) else hf_sub max2 min)
         (w / 2))
      h 0 (Return (replicate (Z.to_nat (w * h)) hf_zero))) as Hrows.
    destruct Hrows as (output & Hout & Hlo); [lia| | |].
    - eexists. split; [done|]. rewrite length_replicate. lia.
    - intros y acc Hy (output & -> & Hlo).
      apply arrange_row_returns; (done || lia).
    - exists output. done.
  Qed.

End Fourier_returns.


(** ** The calls of [BuildCurve] in the thread pool *)

(** The points of a region do not depend on the fuel, once it suffices. *)
Lemma region_points_fuel f1 : forall f2 q,
  qs_ok q -> n q + m q < Z.of_nat f1 -> n q + m q < Z.of_nat f2 ->
  region_points f1 q = region_points f2 q.
Proof.
  induction f1 as [|f1 IH]; intros f2 q Hok H1 H2.
  { destruct Hok as (? & ? & _). lia. }
  destruct f2 as [|f2]; [destruct Hok as (? & ? & _); lia|].
  simpl. destruct ((2 <? n q) || (2 <? m q)) eqn:Hbig; [|done].
  assert (2 < n q \/ 2 < m q) as Hbig' by lia.
  f_equal. apply map_ext_in. intros c Hc.
  apply in_rev, list_elem_of_In in Hc.
  apply (children_ok q c) in Hc as (Hokc & _ & _ & Hlt); [|done].
  specialize (Hlt Hbig'). apply IH; (done || lia).
Qed.

Lemma length_region_points fuel q :
  qs_ok q -> n q + m q < Z.of_nat fuel ->
  Z.of_nat (length (region_points fuel q)) = n q * m q.
Proof.
  intros Hok Hfuel.
  rewrite <- (length_map coords), (region_points_cells fuel q Hok Hfuel).
  destruct Hok as (? & ? & _). by apply length_cells.
Qed.

Lemma Partition_four q :
  qs_ok q -> exists a b c d, rev (Partition q) = [a; b; c; d].
Proof.
  intros Hok. pose proof (Partition_correct q Hok) as HP. simpl in HP.
  rewrite HP. destruct (oABCD q); simpl; eauto.
Qed.

Lemma BuildCurve_fuel_enough q : qs_ok q -> n q + m q < Z.of_nat (BuildCurve_fuel q).
Proof. intros (? & ? & _). unfold BuildCurve_fuel. lia. Qed.

(** The points of a region are those of its four children, one child
    after the other. *)
Lemma points_children q a b c d :
  qs_ok q -> 2 < n q \/ 2 < m q -> rev (Partition q) = [a; b; c; d] ->
  let points c := region_points (BuildCurve_fuel c) c in
  points q = points a ++ points b ++ points c ++ points d /\
  Forall (fun c => qs_ok c /\ n c + m c < n q + m q /\
                   Z.of_nat (length (points c)) = area c) [a; b; c; d] /\
  area a + area b + area c + area d = area q.
Proof.
  intros Hok Hbig Hrev points.
  assert (Forall (fun c => qs_ok c /\ n c + m c < n q + m q) [a; b; c; d])
    as Hcs.
  { rewrite <- Hrev. apply Forall_forall. intros e He.
    apply (proj1 (elem_of_rev _ _)) in He.
    apply (children_ok q e) in He as (? & _ & _ & Hlt); [|done]. auto. }
  split; [|split].
  - unfold points at 1. unfold BuildCurve_fuel at 1. cbn [region_points].
    replace ((2 <? n q) || (2 <? m q)) with true by lia.
    rewrite Hrev. cbn [map concat]. rewrite app_nil_r.
    assert (forall e, e ∈ [a; b; c; d] ->
              region_points (Z.to_nat (n q + m q)) e = points e) as He.
    { intros e Hin. rewrite Forall_forall in Hcs.
      destruct (Hcs e Hin) as [Hoke Hlt]. destruct Hoke as (Hne & Hme & Hrest).
      apply region_points_fuel.
      - unfold qs_ok. done.
      - lia.
      - unfold BuildCurve_fuel. lia. }
    rewrite !He by (rewrite elem_of_list4; auto). done.
  - eapply Forall_impl; [exact Hcs|]. intros e [Hoke Hlt].
    split; [done|]. split; [done|].
    apply length_region_points; [done|by apply BuildCurve_fuel_enough].
  - pose proof (sum_area_children q Hok) as Hsum. rewrite Hrev in Hsum.
    simpl in Hsum. unfold area at 5. lia.
Qed.

Lemma pool_rounds_pos q : (1 <= pool_rounds q)%nat.
Proof.
  unfold pool_rounds. induction (Z.to_nat (n q + m q)); simpl; lia.
Qed.

Lemma pool_rounds_child q c :
  0 <= n c + m c < n q + m q -> (4 * pool_rounds c <= pool_rounds q)%nat.
Proof.
  intros Hlt. unfold pool_rounds.
  replace (Z.to_nat (n q + m q))
    with (S (Z.to_nat (n c + m c)) + (Z.to_nat (n q + m q) - S (Z.to_nat (n c + m c))))%nat
    by lia.
  rewrite Nat.pow_add_r. cbn [Nat.pow].
  assert (1 <= 4 ^ (Z.to_nat (n q + m q) - S (Z.to_nat (n c + m c))))%nat.
  { induction (Z.to_nat (n q + m q) - S (Z.to_nat (n c + m c)))%nat; simpl; lia. }
  nia.
Qed.

Lemma area_nonneg q : qs_ok q -> 0 <= area q.
Proof. intros (? & ? & _). unfold area. nia. Qed.

Section pool.
Variable final : list HPoint.
Hypothesis Hfinal : Z.of_nat (length final) < UINT_RANGE.

Local Notation points q := (region_points (BuildCurve_fuel q) q).
Local Notation weight ts :=
    (sum_list_with (fun t : task => pool_rounds (fst t)) ts).
  (* A task whose slots hold the points of its region in [final]. *)
Local Notation task_fits t :=
    (qs_ok (fst t) /\ 0 <= snd t /\
     snd t + area (fst t) <= Z.of_nat (length final) /\
     forall j : nat, Z.of_nat j < area (fst t) ->
       final !! (Z.to_nat (snd t) + j)%nat = points (fst t) !! j).

Lemma fits_children q index a b c d :
    task_fits (q, index) -> 2 < n q \/ 2 < m q ->
    rev (Partition q) = [a; b; c; d] ->
    task_fits (a, index) /\
    task_fits (b, index + area a) /\
    task_fits (c, index + area a + area b) /\
    task_fits (d, index + area a + area b + area c).
  Proof.
    cbn [fst snd]. intros (Hok & Hi & Hlen & Hget) Hbig Hrev.
    destruct (points_children q a b c d Hok Hbig Hrev) as (Hpts & Hcs & Hsum).
    apply Forall_cons_1 in Hcs as [(Hoka & _ & Hla) Hcs].
    apply Forall_cons_1 in Hcs as [(Hokb & _ & Hlb) Hcs].
    apply Forall_cons_1 in Hcs as [(Hokc & _ & Hlc) Hcs].
    apply Forall_cons_1 in Hcs as [(Hokd & _ & Hld) _].
    pose proof (area_nonneg a Hoka). pose proof (area_nonneg b Hokb).
    pose proof (area_nonneg c Hokc). pose proof (area_nonneg d Hokd).
    split; [|split; [|split]];
      (split; [done|]); (split; [lia|]); (split; [lia|]).
    - intros j Hj. rewrite Hget by lia. rewrite Hpts.
      by rewrite lookup_app_l by lia.
    - intros j Hj.
      replace (Z.to_nat (index + area a) + j)%nat
        with (Z.to_nat index + (length (points a) + j))%nat by lia.
      rewrite Hget by lia. rewrite Hpts.
      rewrite lookup_app_r by lia.
      replace (length (points a) + j - length (points a))%nat with j by lia.
      by rewrite lookup_app_l by lia.
    - intros j Hj.
      replace (Z.to_nat (index + area a + area b) + j)%nat
        with (Z.to_nat index
              + (length (points a) + (length (points b) + j)))%nat by lia.
      rewrite Hget by lia. rewrite Hpts.
      rewrite lookup_app_r by lia.
      replace (length (points a) + (length (points b) + j)
               - length (points a))%nat
        with (length (points b) + j)%nat by lia.
      rewrite lookup_app_r by lia.
      replace (length (points b) + j - length (points b))%nat with j by lia.
      by rewrite lookup_app_l by lia.
    - intros j Hj.
      replace (Z.to_nat (index + area a + area b + area c) + j)%nat
        with (Z.to_nat index
              + (length (points a)
                 + (length (points b) + (length (points c) + j))))%nat by lia.
      rewrite Hget by lia. rewrite Hpts.
      rewrite lookup_app_r by lia.
      replace (length (points a)
               + (length (points b) + (length (points c) + j))
               - length (points a))%nat
        with (length (points b) + (length (points c) + j))%nat by lia.
      rewrite lookup_app_r by lia.
      replace (length (points b) + (length (points c) + j)
               - length (points b))%nat
        with (length (points c) + j)%nat by lia.
      rewrite lookup_app_r by lia.
      by replace (length (points c) + j - length (points c))%nat with j by lia.
  Qed.

  (** One call: the slots outside its region are left alone, the slots of
      the calls it has queued are left alone, the other slots of its region
      hold their points, and the queued calls weigh less than the call. *)
Lemma call_inv fuel : forall q l index queue,
    task_fits (q, index) -> n q + m q < Z.of_nat fuel ->
    length l = length final ->
    exists l' new,
      BuildCurve_call fuel q l index queue = Some (l', queue ++ new) /\
      length l' = length l /\
      (forall k : nat, ~ in_task (q, index) k -> l' !! k = l !! k) /\
      (forall t, t ∈ new ->
         task_fits t /\ forall k, in_task t k -> in_task (q, index) k) /\
      (forall k : nat, in_task (q, index) k ->
         (covered new k -> l' !! k = l !! k) /\
         (~ covered new k -> l' !! k = final !! k)) /\
      (weight new + 1 <= pool_rounds q)%nat /\
      (2 < n q \/ 2 < m q ->
       exists a b rest new',
         rev (Partition q) = a :: b :: rest /\
         new = (a, index) :: (b, index + area a) :: new').
  Proof.
    induction fuel as [|fuel IH]; intros q l index queue Hfit Hfuel Hl.
    { destruct Hfit as ((? & ? & _) & _). cbn [fst] in *. lia. }
    pose proof Hfit as (Hok & Hi & Hlen & Hget). cbn [fst snd] in *.
    cbn [BuildCurve_call].
    destruct ((2 <? n q) || (2 <? m q)) eqn:Hbig.
    - assert (2 < n q \/ 2 < m q) as Hbig' by lia.
      destruct (Partition_four q Hok) as (a & b & c & d & Hrev).
      destruct (fits_children q index a b c d Hfit Hbig' Hrev)
        as (Hfa & Hfb & Hfc & Hfd).
      destruct (points_children q a b c d Hok Hbig' Hrev)
        as (_ & Hcs & Hsum).
      apply Forall_cons_1 in Hcs as [(Hoka & Hlta & _) Hcs].
      apply Forall_cons_1 in Hcs as [(Hokb & Hltb & _) Hcs].
      apply Forall_cons_1 in Hcs as [(Hokc & Hltc & _) Hcs].
      apply Forall_cons_1 in Hcs as [(Hokd & Hltd & _) _].
      pose proof (area_nonneg a Hoka) as Ha.
      pose proof (area_nonneg b Hokb) as Hb.
      pose proof (area_nonneg c Hokc) as Hc.
      pose proof (area_nonneg d Hokd) as Hd.
      rewrite Hrev. cbn [imap foldl push_or_run mbind option_bind Nat.ltb
                         Nat.leb compose].
      fold (area a) (area b) (area c) (area d).
      rewrite (wrap_small (area a)), (wrap_small (index + area a)) by lia.
      rewrite (wrap_small (area b)),
        (wrap_small (index + area a + area b)) by lia.
      destruct (IH c l (index + area a + area b)
                  ((queue ++ [(a, index)]) ++ [(b, index + area a)]))
        as (l2 & newc & Hcall2 & Hl2 & Hout2 & Hnew2 & Hin2 & Hw2 & _);
        [done|lia|done|].
      rewrite Hcall2. cbn [mbind option_bind].
      rewrite (wrap_small (area c)),
        (wrap_small (index + area a + area b + area c)) by lia.
      destruct (IH d l2 (index + area a + area b + area c)
                  (((queue ++ [(a, index)]) ++ [(b, index + area a)]) ++ newc))
        as (l3 & newd & Hcall3 & Hl3 & Hout3 & Hnew3 & Hin3 & Hw3 & _);
        [done|lia|congruence|].
      rewrite Hcall3. cbn [mbind option_bind].
      rewrite write_primitive_large by done. cbn [mbind option_bind].
      exists l3, ([(a, index); (b, index + area a)] ++ newc ++ newd).
      split; [by rewrite <- !app_assoc|].
      split; [congruence|].
      assert (exists a0 b0 rest new',
                [a; b; c; d] = a0 :: b0 :: rest /\
                [(a, index); (b, index + area a)] ++ newc ++ newd
                = (a0, index) :: (b0, index + area a0) :: new') as Hshape
        by (by exists a, b, [c; d], (newc ++ newd)).
      revert Hshape.
      unfold in_task, area in *. cbn [fst snd] in *. intros Hshape.
      split; [|split; [|split; [|split; [|done]]]].
      + intros k Hk. rewrite Hout3, Hout2 by lia. done.
      + intros t [Ht|Ht]%elem_of_app.
        * apply elem_of_cons in Ht as [->|Ht];
            [|apply list_elem_of_singleton in Ht as ->]; cbn [fst snd].
          -- split; [done|]. intros k Hk. lia.
          -- split; [done|]. intros k Hk. lia.
        * apply elem_of_app in Ht as [Ht|Ht].
          -- destruct (Hnew2 t Ht) as [Hft Hsub]. split; [done|].
             intros k Hk. specialize (Hsub k Hk). lia.
          -- destruct (Hnew3 t Ht) as [Hft Hsub]. split; [done|].
             intros k Hk. specialize (Hsub k Hk). lia.
      + intros k Hk.
        assert (forall t, t ∈ newc -> snd t <= Z.of_nat k < snd t + n (fst t) * m (fst t) ->
                  index + n a * m a + n b * m b <= Z.of_nat k
                  < index + n a * m a + n b * m b + n c * m c) as Hsubc.
        { intros t Ht Hkt. by apply (proj2 (Hnew2 t Ht)). }
        assert (forall t, t ∈ newd -> snd t <= Z.of_nat k < snd t + n (fst t) * m (fst t) ->
                  index + n a * m a + n b * m b + n c * m c <= Z.of_nat k
                  < index + n a * m a + n b * m b + n c * m c + n d * m d)
          as Hsubd.
        { intros t Ht Hkt. by apply (proj2 (Hnew3 t Ht)). }
        destruct (decide (Z.of_nat k < index + n a * m a + n b * m b))
          as [Hab|Hab].
        { (* a slot of one of the two queued children *)
          split.
          - intros _. rewrite Hout3, Hout2 by lia. done.
          - intros Hnc. exfalso. apply Hnc.
            destruct (decide (Z.of_nat k < index + n a * m a)) as [Hka|Hka].
            + exists (a, index).
              split; [|unfold in_task, area; cbn [fst snd]; lia].
              apply elem_of_app. left. apply elem_of_cons. by left.
            + exists (b, index + n a * m a).
              split; [|unfold in_task, area; cbn [fst snd]; lia].
              apply elem_of_app. left. apply elem_of_cons. right.
              by apply list_elem_of_singleton. }
        destruct (decide (Z.of_nat k
                          < index + n a * m a + n b * m b + n c * m c))
          as [Hkc|Hkc].
        { (* a slot of the third child *)
          rewrite Hout3 by lia.
          destruct (Hin2 k ltac:(lia)) as [Hcov Hncov]. split.
          - intros (t & Ht & Hkt). apply Hcov.
            apply elem_of_app in Ht as [Ht|Ht].
            + apply elem_of_cons in Ht as [->|Ht];
                [|apply list_elem_of_singleton in Ht as ->];
                unfold in_task, area in Hkt; cbn [fst snd] in Hkt; lia.
            + apply elem_of_app in Ht as [Ht|Ht]; [by exists t|].
              specialize (Hsubd t Ht Hkt). lia.
          - intros Hnc. apply Hncov. intros (t & Ht & Hkt). apply Hnc.
            exists t. split; [|done].
            apply elem_of_app. right. apply elem_of_app. by left. }
        (* a slot of the fourth child *)
        destruct (Hin3 k ltac:(lia)) as [Hcov Hncov]. split.
        * intros (t & Ht & Hkt). rewrite <- Hout2 by lia. apply Hcov.
          apply elem_of_app in Ht as [Ht|Ht].
          -- apply elem_of_cons in Ht as [->|Ht];
               [|apply list_elem_of_singleton in Ht as ->];
               unfold in_task, area in Hkt; cbn [fst snd] in Hkt; lia.
          -- apply elem_of_app in Ht as [Ht|Ht]; [|by exists t].
             specialize (Hsubc t Ht Hkt). lia.
        * intros Hnc. apply Hncov. intros (t & Ht & Hkt). apply Hnc.
          exists t. split; [|done].
          apply elem_of_app. right. apply elem_of_app. by right.
      + rewrite !sum_list_with_app. cbn [sum_list_with fst].
        pose proof (pool_rounds_child q a ltac:(destruct Hoka as (? & ? & _); lia)).
        pose proof (pool_rounds_child q b ltac:(destruct Hokb as (? & ? & _); lia)).
        pose proof (pool_rounds_child q c ltac:(destruct Hokc as (? & ? & _); lia)).
        pose proof (pool_rounds_child q d ltac:(destruct Hokd as (? & ? & _); lia)).
        lia.
    - assert (0 <= n q <= 2 /\ 0 <= m q <= 2) as [Hn Hm].
      { destruct Hok as (? & ? & _). lia. }
      cbn [mbind option_bind]. unfold area in *.
      rewrite write_primitive_small by (done || lia).
      cbn [mbind option_bind].
      pose proof (length_primitive_points q Hn Hm) as Hlp.
      assert (points q = primitive_points q) as Hpts.
      { unfold BuildCurve_fuel. cbn [region_points]. by rewrite Hbig. }
      exists (splice l index (primitive_points q)), [].
      split; [by rewrite app_nil_r|].
      split; [apply length_splice; lia|].
      unfold in_task, area. cbn [fst snd].
      split; [|split; [|split; [|split; [|lia]]]].
      + intros k Hk. apply lookup_splice_out; lia.
      + by intros t Ht%elem_of_nil.
      + intros k Hk. split.
        * by intros (t & Ht%elem_of_nil & _).
        * intros _.
          replace k with (Z.to_nat index + (k - Z.to_nat index))%nat by lia.
          rewrite lookup_splice_in by lia.
          rewrite Hget by lia. by rewrite Hpts.
      + cbn. pose proof (pool_rounds_pos q). lia.
  Qed.

Lemma weight_delete (queue : list task) (k : nat) t :
    queue !! k = Some t ->
    weight queue = (pool_rounds (fst t) + weight (delete k queue))%nat /\
    forall t', t' ∈ queue <-> t' = t \/ t' ∈ delete k queue.
  Proof.
    intros Hk. rewrite delete_take_drop.
    pose proof (take_drop_middle queue k t Hk) as Hmid.
    split.
    - rewrite <- Hmid at 1.
      rewrite !sum_list_with_app. cbn [sum_list_with]. lia.
    - intros t'. rewrite <- Hmid at 1.
      rewrite !elem_of_app, elem_of_cons. tauto.
  Qed.

  (** The drain: every schedule that is long enough empties the queue, and
      the vector is [final] then. *)
Lemma drain_inv (rounds : nat) : forall schedule l queue,
    (weight queue <= rounds)%nat -> (rounds <= length schedule)%nat ->
    length l = length final ->
    (forall t, t ∈ queue -> task_fits t) ->
    (forall k : nat, ~ covered queue k -> l !! k = final !! k) ->
    drain schedule (l, queue) = Some final.
  Proof.
    induction rounds as [|rounds IH];
      intros schedule l queue Hw Hs Hl Hfits Hrest.
    - destruct queue as [|t queue].
      + destruct schedule; cbn; f_equal; apply list_eq; intros k;
          apply Hrest; by intros (t & Ht%elem_of_nil & _).
      + cbn [sum_list_with] in Hw. pose proof (pool_rounds_pos (fst t)). lia.
    - destruct queue as [|t0 queue0] eqn:Hq.
      { destruct schedule; cbn; f_equal; apply list_eq; intros k;
          apply Hrest; by intros (t & Ht%elem_of_nil & _). }
      rewrite <- Hq in *.
      destruct schedule as [|pick schedule]; [simpl in Hs; lia|].
      assert (drain (pick :: schedule) (l, queue)
              = st ← run_task pick (l, queue); drain schedule st) as ->
        by (by rewrite Hq).
      assert (pick mod length queue < length queue)%nat as Hpick.
      { apply Nat.mod_upper_bound. rewrite Hq. simpl. lia. }
      unfold run_task.
      destruct (queue !! (pick mod length queue)%nat) as [[qt it]|] eqn:Hk;
        [|apply lookup_ge_None in Hk; lia].
      destruct (weight_delete queue _ _ Hk) as [Hwd Hmem].
      cbn [fst] in Hwd.
      assert (task_fits (qt, it)) as Hfit
        by (apply Hfits; by eapply list_elem_of_lookup_2).
      destruct (call_inv (BuildCurve_fuel qt) qt l it
                  (delete (pick mod length queue)%nat queue))
        as (l' & new & -> & Hl' & Hout & Hnew & Hin & Hwn & _);
        [done|apply BuildCurve_fuel_enough; by destruct Hfit|done|].
      cbn [mbind option_bind].
      apply IH.
      + rewrite sum_list_with_app. lia.
      + simpl in Hs. lia.
      + congruence.
      + intros t [Ht|Ht]%elem_of_app.
        * apply Hfits, Hmem. by right.
        * by apply Hnew.
      + intros k Hnc.
        assert (~ covered new k) as Hnn.
        { intros (t & Ht & Hkt). apply Hnc. exists t.
          split; [|done]. apply elem_of_app. by right. }
        destruct (decide (it <= Z.of_nat k < it + area qt)) as [Hkin|Hkout].
        * by apply Hin.
        * rewrite Hout by done. apply Hrest.
          intros (t & Ht & Hkt). apply Hmem in Ht as [->|Ht]; [done|].
          apply Hnc. exists t. split; [|done]. apply elem_of_app. by left.
  Qed.

End pool.


(** ** The further properties at work *)

Ltac hint_range := unfold is_hint; rewrite UINT_RANGE_eq; lia.


(** The children of the region of 3 rows and 5 columns. *)
Lemma Partition_halves_3_5 :
  let q := mkQS 3 5 (HPoint_n 0) C in
  Forall (fun c =>
            (n c = n q / 2 \/ n c = n q - n q / 2) /\
            (m c = m q / 2 \/ m c = m q - m q / 2) /\
            qs_ok c /\
            (2 < n q \/ 2 < m q -> n c + m c < n q + m q))
         (Partition q).
Proof.
  apply Forall_forall. intros c Hc.
  apply (Partition_halves (mkQS 3 5 (HPoint_n 0) C) c); [|exact Hc].
  unfold qs_ok. vm_compute. repeat split; discriminate.
Defined.

(** The curve on the square of side 2 under the five transforms. *)
Lemma transforms_keep_cells_2x2 :
  (curve_fills (reverse curve_2x2) /\ qs (reverse curve_2x2) = qs curve_2x2) /\
  (curve_fills (reflectX curve_2x2) /\ qs (reflectX curve_2x2) = qs curve_2x2) /\
  (curve_fills (reflectY curve_2x2) /\ qs (reflectY curve_2x2) = qs curve_2x2) /\
  (curve_fills (reflect curve_2x2) /\ qs (reflect curve_2x2) = qs curve_2x2) /\
  (curve_fills (reflectAndReverse curve_2x2) /\
   qs (reflectAndReverse curve_2x2) = qs curve_2x2).
Proof.
  apply (transforms_keep_cells curve_2x2).
  - unfold qs_ok. vm_compute. repeat split; discriminate.
  - unfold curve_fills. apply (bool_decide_unpack _). vm_compute. exact I.
Defined.

Lemma reflectAndReverse_involutive_2x2 :
  reflectAndReverse curve_2x2 = reflect (reverse curve_2x2) /\
  reflectAndReverse (reflectAndReverse curve_2x2) = curve_2x2.
Proof.
  apply (reflectAndReverse_involutive curve_2x2).
  unfold curve_2x2. simpl.
  repeat (apply List.Forall_cons;
          [unfold is_hpoint, is_hint; rewrite UINT_RANGE_eq; simpl; lia|]).
  apply List.Forall_nil.
Defined.

(** The curve of type [H0] on the square of side 4 at the origin, in the
    orientation [C]: from [(3, 3)] to [(0, 3)]. *)
Lemma H0_corner_to_corner_4x4 :
  exists hc first final,
    new_HilbertCurve 4 4 H0 (HPoint_n 0) C false = Some hc /\
    head (m_curve hc) = Some first /\ last (m_curve hc) = Some final /\
    coords first = (3, 3) /\ coords final = (0, 3).
Proof.
  change 4 with (2 ^ Z.of_nat 2).
  apply (H0_corner_to_corner 2 (HPoint_n 0) C).
  - unfold qs_ok. vm_compute. repeat split; discriminate.
  - vm_compute. reflexivity.
Defined.

Lemma HPoint_add_sub_3_4 :
  HPoint_sub (HPoint_add (HPoint_xy 3 4) (HPoint_xy 5 1)) (HPoint_xy 5 1)
  = HPoint_xy 3 4 /\
  HPoint_add (HPoint_sub (HPoint_xy 3 4) (HPoint_xy 5 1)) (HPoint_xy 5 1)
  = HPoint_xy 3 4.
Proof.
  apply (HPoint_add_sub (HPoint_xy 3 4) (HPoint_xy 5 1)).
  unfold is_hpoint, is_hint. rewrite UINT_RANGE_eq. simpl. lia.
Defined.

(** A sequence of 7 values gets the dimensions 3 and 2: one value has no
    cell. *)
Lemma bestDimensions_area_7 :
  let '(w, h) := bestDimensions 7 in
  (h = 2 \/ h = 2 + 1) /\ (w = h \/ w = h + 1) /\
  (w * h < 7 <-> 0 < 2 * 3 < 2 \/ (2 < 3 /\ 2 * 3 <= 3 * 2 + 1)).
Proof.
  refine (bestDimensions_area 7 _).
  rewrite UINT_RANGE_eq. lia.
Defined.

Lemma hammingDistance_marks_equal_123 :
  hammingDistance (map hf_of_Z [1; 2; 3]) (map hf_of_Z [1; 2; 3])
  = replicate 3 hf_one.
Proof.
  apply (hammingDistance_marks_equal (map hf_of_Z [1; 2; 3]) []).
  simpl. repeat (apply List.Forall_cons; [discriminate|]).
  apply List.Forall_nil.
Defined.

(** The granularity 2 of five values: two blocks and one value left. *)
Lemma granularity_blocks_5 :
  exists r,
    granularity (map hf_of_Z [1; 2; 3; 4; 5]) 2 = Some r /\
    length r = 5%nat.
Proof.
  destruct (granularity_blocks (map hf_of_Z [1; 2; 3; 4; 5]) 2)
    as (r & Hr & Hlen & _); [lia|].
  exists r. split; [exact Hr|exact Hlen].
Defined.

(** The mean of one half and one half. *)
Lemma mean_of_fractions_halves :
  DataSequence_mean [Fin (Q2Qc (1 # 2)); Fin (Q2Qc (1 # 2))] = Some hf_zero.
Proof.
  apply (mean_of_fractions [Fin (Q2Qc (1 # 2)); Fin (Q2Qc (1 # 2))]).
  repeat (apply List.Forall_cons;
          [eexists; split; [reflexivity|]; split; vm_compute; reflexivity|]).
  apply List.Forall_nil.
Defined.

(** Four bins in ascending order: the second largest is not found. *)
Lemma scan_bins_bounds_ascending :
  let '(max, min, max2) := scan_bins (map hf_of_Z [4; 16; 36; 64]) in
  last (DBL_MIN :: map hf_of_Z [4; 16; 36; 64]) = Some max /\
  max2 = DBL_MIN.
Proof.
  pose proof (scan_bins_bounds (map hf_of_Z [4; 16; 36; 64])) as Hb.
  destruct (scan_bins (map hf_of_Z [4; 16; 36; 64])) as [[max min] max2].
  destruct Hb as (_ & _ & _ & _ & _ & Hasc). apply Hasc.
  intros i a b Ha Hb.
  destruct i as [|[|[|[|i]]]]; simpl in Ha, Hb; try discriminate;
    injection Ha as <-; injection Hb as <-; vm_compute; reflexivity.
Defined.

(** Replacing the second value of the plot of four values. *)
Lemma replaceValueAt_stores_2x2 :
  (data_size plot_2x2 <= 1 ->
   replaceValueAt plot_2x2 1 (hf_of_Z 7) = Throw HilbertIndexOutOfRange) /\
  (1 < data_size plot_2x2 ->
   exists pl',
     replaceValueAt plot_2x2 1 (hf_of_Z 7) = Return pl' /\
     curve pl' = curve plot_2x2 /\
     m_plotToCurve pl' = m_plotToCurve plot_2x2 /\
     data_size pl' = data_size plot_2x2 /\
     valueAt pl' 1 = Return (hf_of_Z 7) /\
     (forall j, 0 <= j -> j <> 1 -> valueAt pl' j = valueAt plot_2x2 j) /\
     m_min pl' ∈ m_data pl' /\ m_max pl' ∈ m_data pl' /\
     forall v, v ∈ m_data pl' ->
       hf_ltb v (m_min pl') = false /\ hf_ltb (m_max pl') v = false).
Proof.
  apply (replaceValueAt_stores plot_2x2 1 (hf_of_Z 7)). lia.
Defined.

(** Three values on the grid of width 2 and height 1: the third is
    dropped. *)
Lemma new_HilbertPlot_resizes_2x1 :
  exists pl,
    new_HilbertPlot (map hf_of_Z [1; 2; 3]) 2 1 H0 = Some pl /\
    width (curve pl) = 2 /\ height (curve pl) = 1 /\
    m_data pl = map hf_of_Z [1; 2].
Proof.
  destruct (new_HilbertPlot_resizes (map hf_of_Z [1; 2; 3]) 2 1 H0)
    as (pl & Hnew & Hw & Hh & _ & _ & Hd & _);
    [lia | lia | vm_compute; reflexivity |].
  exists pl. split; [exact Hnew|]. split; [exact Hw|]. split; [exact Hh|].
  exact Hd.
Defined.


(** The plot of the values 0, 4, 8, 2 on the grid of width 1 and height 4,
    with the threshold [1.2] of binary64: the quotient [1.5 / 1.25] of the
    machine is not greater than it, and no entry is marked. *)
Lemma generateImage_entries_1x4 :
  let threshold := Fin (Q2Qc (5404319552844595 # 4503599627370496)) in
  exists pl image,
    new_HilbertPlot (map hf_of_Z [0; 4; 8; 2]) 1 4 H0 = Some pl /\
    generateImage_in binary64 pl threshold = Return image /\
    Z.of_nat (length image) = 1 /\
    image = [map (fun q => Fin (Q2Qc q)) [1 # 2; 0; 1; 1 # 4]%Q].
Proof.
  intros threshold. eexists.
  match goal with
  | |- exists image, new_HilbertPlot ?d ?w ?h ?t = Some ?pl /\ _ =>
      assert (new_HilbertPlot d w h t = Some pl) as Hnew
        by (vm_compute; reflexivity);
      destruct (generateImage_entries binary64 pl threshold)
        as (image & Himage & _ & Hlen & _)
  end.
  - apply (new_HilbertPlot_invariant (map hf_of_Z [0; 4; 8; 2]) 1 4 H0).
    + hint_range.
    + hint_range.
    + exact Hnew.
    + vm_compute. discriminate.
    + vm_compute. discriminate.
    + vm_compute. reflexivity.
  - exists image. split; [exact Hnew|]. split; [exact Himage|].
    split; [exact Hlen|].
    vm_compute in Himage. injection Himage as <-. hf_evaluate.
Defined.



